(** * openapi-postman-sync: the Collection Merger and the Value Sanitizer

    A shallow embedding of [scripts/merge-collections.js] and of the
    value sanitizer it is shipped with, together with the properties the
    specification states about them.

    Conventions of the embedding.
    - A JS string is a [string] holding its UTF-8 text, the encoding of the
      collection files; its characters are the code points of that text.
      [trim] strips the white space of ECMAScript; [toUpperCase] and
      [toLowerCase] are used on ASCII text only.
    - An optional property is an [option]; an array is a [list].
    - A JSON number is an integer [Z]; fractional numbers are not modelled.
    - An event has a string [listen] and a script whose [exec] is an array
      of lines; a request is an object (the string form is not modelled).
    - The lookup object [existingItemsMap] is a plain object: its own
      properties are a [gmap string _], and a read falls back on the
      prototype chain, which an assignment to [__proto__] changes. *)

From Stdlib Require Import ZArith NArith Ascii String.
From stdpp Require Import gmap strings list fin_maps.

Set Warnings "-register-all".

Local Open Scope Z_scope.

(** ** JSON values *)

Inductive Scalar :=
  | SNull
  | SBool (b : bool)
  | SNum (n : Z)
  | SStr (s : string).

Inductive JSON :=
  | JLeaf (v : Scalar)
  | JArr (elems : list JSON)
  | JObj (fields : list (string * JSON)).

Global Instance Scalar_eq_dec : EqDecision Scalar.
Proof. solve_decision. Defined.

(** ** String helpers *)

Module Str.

(** [Array.prototype.join] on an array of strings. *)
Fixpoint join (sep : string) (l : list string) : string :=
  match l with
  | [] => ""
  | [x] => x
  | x :: xs => x +:+ sep +:+ join sep xs
  end.

Definition is_empty (s : string) : bool :=
  match s with EmptyString => true | _ => false end.

(** The UTF-8 bytes of a code point of the Basic Multilingual Plane. *)
Definition utf8 (codePoint : N) : string :=
  let byte (n : N) := ascii_of_N n in
  if (codePoint <? 0x80)%N then String (byte codePoint) EmptyString
  else if (codePoint <? 0x800)%N then
    String (byte (0xC0 + codePoint / 64)%N)
      (String (byte (0x80 + codePoint mod 64)%N) EmptyString)
  else
    String (byte (0xE0 + codePoint / 4096)%N)
      (String (byte (0x80 + (codePoint / 64) mod 64)%N)
         (String (byte (0x80 + codePoint mod 64)%N) EmptyString)).

(** A continuation byte, [10xxxxxx]. *)
Definition is_continuation (c : ascii) : bool :=
  let n := nat_of_ascii c in ((128 <=? n) && (n <? 192))%nat.

Definition starts_with_continuation (s : string) : bool :=
  match s with String c _ => is_continuation c | EmptyString => false end.

(** The characters of a string, each with its bytes: a byte opens a new
    character unless it is a continuation byte. *)
Fixpoint chars (s : string) : list string :=
  match s with
  | EmptyString => []
  | String c s' =>
      if starts_with_continuation s' then
        match chars s' with
        | ch :: rest => String c ch :: rest
        | [] => [String c EmptyString]
        end
      else String c EmptyString :: chars s'
  end.

(** The code points [String.prototype.trim] strips: WhiteSpace (TAB, VT,
    FF, ZWNBSP and the space separators of Unicode) and LineTerminator (LF,
    CR, LS, PS) of ECMAScript. *)
Definition WhiteSpace : list N :=
  [0x0009; 0x000B; 0x000C; 0xFEFF;
   0x0020; 0x00A0; 0x1680; 0x2000; 0x2001; 0x2002; 0x2003; 0x2004; 0x2005;
   0x2006; 0x2007; 0x2008; 0x2009; 0x200A; 0x202F; 0x205F; 0x3000]%N.

Definition LineTerminator : list N := [0x000A; 0x000D; 0x2028; 0x2029]%N.

Definition is_white_space (ch : string) : bool :=
  bool_decide (ch ∈ map utf8 (WhiteSpace ++ LineTerminator)).

Fixpoint dropWhile {A} (p : A → bool) (l : list A) : list A :=
  match l with
  | x :: xs => if p x then dropWhile p xs else l
  | [] => []
  end.

Definition dropWhileEnd {A} (p : A → bool) (l : list A) : list A :=
  reverse (dropWhile p (reverse l)).

(** [String.prototype.trim]: the string without its leading and trailing
    white space. *)
Definition trim (s : string) : string :=
  join "" (dropWhileEnd is_white_space (dropWhile is_white_space (chars s))).

Definition upper_ascii (c : ascii) : ascii :=
  let n := nat_of_ascii c in
  if ((97 <=? n) && (n <=? 122))%nat then ascii_of_nat (n - 32) else c.

(** [String.prototype.toUpperCase] on ASCII text. *)
Fixpoint toUpperCase (s : string) : string :=
  match s with
  | String c s' => String (upper_ascii c) (toUpperCase s')
  | EmptyString => EmptyString
  end.

Definition lower_ascii (c : ascii) : ascii :=
  let n := nat_of_ascii c in
  if ((65 <=? n) && (n <=? 90))%nat then ascii_of_nat (n + 32) else c.

Fixpoint toLowerCase (s : string) : string :=
  match s with
  | String c s' => String (lower_ascii c) (toLowerCase s')
  | EmptyString => EmptyString
  end.

(** [s.startsWith(p)]. *)
Fixpoint startsWith (p s : string) : bool :=
  match p, s with
  | EmptyString, _ => true
  | String a p', String b s' => bool_decide (a = b) && startsWith p' s'
  | String _ _, EmptyString => false
  end.

(** [s.endsWith(p)]. *)
Definition endsWith (p s : string) : bool :=
  let lp := String.length p in
  let ls := String.length s in
  (lp <=? ls)%nat && bool_decide (String.substring (ls - lp) lp s = p).

(** [s.split(sep)] for a one-character separator. *)
Fixpoint split (sep : ascii) (s : string) : list string :=
  match s with
  | EmptyString => [EmptyString]
  | String c s' =>
      if bool_decide (c = sep) then EmptyString :: split sep s'
      else match split sep s' with
           | w :: ws => String c w :: ws
           | [] => [String c EmptyString]
           end
  end.

End Str.

(** ** The collection data model (Postman collection v2.1, as the code reads it) *)

Record Script := mkScript {
  exec : option (list string);
  script_rest : list (string * JSON)
}.

Record Event := mkEvent {
  listen : string;
  script : option Script
}.

Record PathVariable := mkPathVariable {
  pv_key : string;
  pv_value : Scalar
}.

Inductive UrlPath :=
  | PathArray (segments : list string)
  | PathString (s : string).

Record UrlObject := mkUrlObject {
  raw : option string;
  path : option UrlPath;
  url_variable : option (list PathVariable)
}.

Inductive Url :=
  | UrlString (s : string)
  | UrlObj (u : UrlObject).

(** A body is kept with the result of [JSON.parse] on its text: either the
    text is not JSON, or it is and the tree stands for it.  The merger
    copies bodies as they are; the sanitizer works on the tree. *)
Inductive BodyContent :=
  | NotJson (text : string)
  | Json (j : JSON).

Record Request := mkRequest {
  method : option string;   (* [None]: absent or not a string *)
  url : option Url;
  body : option BodyContent
}.

Record Response := mkResponse {
  resp_name : string;
  resp_body : option BodyContent
}.

(** A node of the tree: a folder when [item] is present, a request
    otherwise. *)
Inductive Item :=
  mkItem (name : string) (item : option (list Item))
         (request : option Request) (event : option (list Event))
         (response : option (list Response)).

Definition i_name (i : Item) : string := let 'mkItem n _ _ _ _ := i in n.
Definition i_item (i : Item) : option (list Item) := let 'mkItem _ c _ _ _ := i in c.
Definition i_request (i : Item) : option Request := let 'mkItem _ _ r _ _ := i in r.
Definition i_event (i : Item) : option (list Event) := let 'mkItem _ _ _ e _ := i in e.

Record Info := mkInfo {
  info_name : string;
  _postman_id : option string;
  info_rest : list (string * JSON)
}.

Record Variable_ := mkVariable {
  key : string;
  value : Scalar
}.

Record Collection := mkCollection {
  c_info : option Info;
  c_item : option (list Item);
  c_event : option (list Event);
  c_variable : option (list Variable_);
  c_rest : list (string * JSON)
}.


(** ** The Collection Merger ([scripts/merge-collections.js]) *)

(** Template literal [`${parentPath}/${item.name}`], or the bare name when
    the parent path is the empty string. *)
Definition item_path (parentPath name : string) : string :=
  if Str.is_empty parentPath then name else parentPath +:+ "/" +:+ name.

(** Generate a unique key for an item based on method + path. *)
Definition generateItemKey (it : Item) (itemPath : string) : string :=
  match i_request it with
  | Some rq =>
      let method := match method rq with Some m => m | None => "GET" end in
      let urlPath :=
        match url rq with
        | Some (UrlString s) => s
        | Some (UrlObj u) =>
            match path u with
            | Some (PathArray segments) => Str.join "/" segments
            | Some (PathString s) => s
            | None => ""
            end
        | None => ""
        end in
      method +:+ ":" +:+ urlPath
  | None => itemPath
  end.

(** *** The lookup object

    [existingItemsMap] is a plain object, [{}] at first, with
    [Object.prototype] behind it.  [own] holds its own properties, each an
    entry [{ item, path }].  An assignment to the key [__proto__] runs the
    setter the object inherits: it makes the entry the prototype of the
    object (with [Object.prototype] behind it) and adds no property;
    [proto] holds that entry. *)
Record ItemsMap := mkItemsMap {
  own : gmap string (Item * string);
  proto : option (Item * string)
}.

(** The object [{}]. *)
Global Instance ItemsMap_empty : Empty ItemsMap := {| own := ∅; proto := None |}.

(** [map[key] = { item, path: itemPath }] *)
Definition set_property (key : string) (entry : Item * string) (map : ItemsMap)
    : ItemsMap :=
  if String.eqb key "__proto__" then {| own := own map; proto := Some entry |}
  else {| own := <[key := entry]> (own map); proto := proto map |}.

(** What a read of the lookup object can evaluate to. *)
Inductive Value :=
  | Undefined
  | EntryObject (entry : Item * string)   (* an object [{ item, path }] *)
  | ItemObject (it : Item)                (* a node of the previous collection *)
  | StringValue (s : string)
  | PrototypeObject                       (* [Object.prototype] itself *)
  | FunctionObject.                       (* a method of [Object.prototype] *)

(** The methods of [Object.prototype]. *)
Definition Object_prototype : list string :=
  ["constructor"; "__defineGetter__"; "__defineSetter__"; "hasOwnProperty";
   "__lookupGetter__"; "__lookupSetter__"; "isPrototypeOf";
   "propertyIsEnumerable"; "toString"; "valueOf"; "toLocaleString"].

Definition inherited (key : string) : Value :=
  if bool_decide (key ∈ Object_prototype) then FunctionObject else Undefined.

(** [map[key]]: the getter [__proto__] answers with the prototype; any
    other key is looked for among the own properties, then in the entry
    made prototype, then in [Object.prototype]. *)
Definition get_property (map : ItemsMap) (key : string) : Value :=
  if String.eqb key "__proto__" then
    match proto map with
    | Some entry => EntryObject entry
    | None => PrototypeObject
    end
  else
    match own map !! key, proto map with
    | Some entry, _ => EntryObject entry
    | None, Some (it, itemPath) =>
        if String.eqb key "item" then ItemObject it
        else if String.eqb key "path" then StringValue itemPath
        else inherited key
    | None, None => inherited key
    end.

(** The condition [if (existing)]. *)
Definition truthy (v : Value) : bool :=
  match v with
  | Undefined => false
  | StringValue s => negb (Str.is_empty s)
  | _ => true
  end.

(** What [existing.item] evaluates to: a node, the array of children of a
    node, or [undefined]. *)
Inductive ItemProperty :=
  | NoItem
  | AnItem (it : Item)
  | AnArray (items : list Item).

Definition item_of (existing : Value) : ItemProperty :=
  match existing with
  | EntryObject entry => AnItem entry.1
  | ItemObject it =>
      match i_item it with
      | Some children => AnArray children
      | None => NoItem
      end
  | _ => NoItem
  end.

(** Build a map of items by their unique path: the body of the loop, for
    one item. *)
Fixpoint buildItemsMap_item (parentPath : string) (map : ItemsMap) (it : Item)
    : ItemsMap :=
  let itemPath := item_path parentPath (i_name it) in
  match i_item it with
  | Some children => fold_left (buildItemsMap_item itemPath) children map
  | None => set_property (generateItemKey it itemPath) (it, itemPath) map
  end.

Definition buildItemsMap (items : list Item) (parentPath : string) (map : ItemsMap)
    : ItemsMap :=
  fold_left (buildItemsMap_item parentPath) items map.

(** [line.trim() !== ''] *)
Definition nonblank (line : string) : bool := negb (Str.is_empty (Str.trim line)).

(** Check if an event has a non-empty script. *)
Definition hasNonEmptyScript (e : Event) : bool :=
  match script e with
  | Some s =>
      match exec s with
      | Some lines => (0 <? Z.of_nat (length lines)) && existsb nonblank lines
      | None => false
      end
  | None => false
  end.


(** [Array.prototype.findIndex]: the first index whose element satisfies
    the predicate, [-1] when there is none. *)
Fixpoint findIndex {A} (p : A → bool) (l : list A) : Z :=
  match l with
  | [] => -1
  | x :: xs =>
      if p x then 0
      else let r := findIndex p xs in if r =? -1 then -1 else r + 1
  end.

(** One round of the loop of [mergeRequest] over the existing events;
    [events] is [merged.event].  The test [hasScript] of the loop is the
    expression of [hasNonEmptyScript], on the existing event. *)
Definition mergeRequest_event (events : list Event) (existingEvent : Event) : list Event :=
  if hasNonEmptyScript existingEvent then
    let existingEventIndex :=
      findIndex (λ e, String.eqb (listen e) (listen existingEvent)) events in
    if existingEventIndex =? -1 then events ++ [existingEvent]
    else
      match events !! Z.to_nat existingEventIndex with
      | Some e =>
          if negb (hasNonEmptyScript e)
          then <[Z.to_nat existingEventIndex := existingEvent]> events
          else events
      | None => events
      end
  else events.

(** [item.event], an absent list read as the empty one. *)
Definition events_of (it : Item) : list Event :=
  match i_event it with Some evs => evs | None => [] end.

(** Merge a single request, preserving scripts from existing.  The clone
    of [newRequest] is [newRequest] itself: values are not shared. *)
Definition mergeRequest (newRequest existingRequest : Item) : Item :=
  let 'mkItem name children request event response := newRequest in
  match i_event existingRequest with
  | Some ((_ :: _) as existingEvents) =>
      let events := match event with Some evs => evs | None => [] end in
      mkItem name children request
             (Some (fold_left mergeRequest_event existingEvents events)) response
  | _ => newRequest
  end.

(** Merge items from new collection with existing items: the function
    mapped over [newItems].  [None] is a thrown [TypeError]: when the
    lookup answers with a value that has no [item], [mergeRequest] reads
    [existingRequest.event] on [undefined].  When [item] is an array the
    call finds no [event] on it and returns its clone of [newItem]. *)
Fixpoint mergeItems_item (existingItemsMap : ItemsMap)
    (parentPath : string) (newItem : Item) : option Item :=
  let itemPath := item_path parentPath (i_name newItem) in
  match newItem with
  | mkItem name (Some children) request event response =>
      mergedChildren ← mapM (mergeItems_item existingItemsMap itemPath) children;
      Some (mkItem name (Some mergedChildren) request event response)
  | mkItem _ None _ _ _ =>
      let existing := get_property existingItemsMap (generateItemKey newItem itemPath) in
      if truthy existing then
        match item_of existing with
        | AnItem existingRequest => Some (mergeRequest newItem existingRequest)
        | AnArray _ => Some newItem
        | NoItem => None
        end
      else Some newItem
  end.

Definition mergeItems (newItems : list Item)
    (existingItemsMap : ItemsMap) (parentPath : string) : option (list Item) :=
  mapM (mergeItems_item existingItemsMap parentPath) newItems.

(** ** The merge itself *)

Record Options := mkOptions {
  existing : string;
  output : option string;
  preserveTests : bool;
  preservePrerequest : bool;
  preserveVariables : bool;
  dryRun : bool;
  verbose : bool
}.

(** What is found at the resolved path of an option: no file, a file that
    [readJsonFile] fails on (it cannot be read, or its text is not JSON),
    or a file with the JSON text of a collection. *)
Inductive File :=
  | Absent
  | Unreadable
  | Parsed (c : Collection).

(** [path.resolve(p)]: the absolute path that [p] stands for in the
    working directory of the run; it is kept as the call. *)
Inductive Path := path_resolve (p : string).

(** What the [try] block can throw before [process.exit(1)]. *)
Inductive MergeError :=
  | NewCollectionNotFound
  | JsonFileError
  | TypeError.

(** The outcome of a run: the error that ends the process, or the
    collection returned with the file the run goes on to write (the write
    itself is left to the file system). *)
Inductive Outcome :=
  | Failed (e : MergeError)
  | Returned (result : Collection) (written : option (Path * Collection)).

(** Read and parse a JSON file that exists. *)
Definition readJsonFile (file : File) : option Collection :=
  match file with
  | Parsed c => Some c
  | _ => None
  end.

(** [a || b] on optional strings: the empty string is falsy. *)
Definition or_string (a b : option string) : option string :=
  match a with
  | Some s => if Str.is_empty s then b else a
  | None => b
  end.

Definition listens (listenType : string) (e : Event) : bool :=
  String.eqb (listen e) listenType.

(** Preserve collection-level scripts: one of the two blocks, for the
    listen type it names.  [mergedEvent] is [mergedCollection.event]. *)
Definition preserveCollectionEvent (listenType : string)
    (existingEvent mergedEvent : option (list Event)) : option (list Event) :=
  match existingEvent with
  | Some existingEvents =>
      match find (listens listenType) existingEvents with
      | Some existingScript =>
          let events := match mergedEvent with Some evs => evs | None => [] end in
          match find (listens listenType) events with
          | None => Some (events ++ [existingScript])
          | Some _ => Some events
          end
      | None => mergedEvent
      end
  | None => mergedEvent
  end.

(** Preserve collection variables: existing variables whose key is not
    one of the new collection's are pushed. *)
Definition preserveCollectionVariables
    (existingVariable newVariable mergedVariable : option (list Variable_))
    : option (list Variable_) :=
  match existingVariable with
  | Some existingVars =>
      let newVarKeys := map key (match newVariable with Some vs => vs | None => [] end) in
      let variables := match mergedVariable with Some vs => vs | None => [] end in
      Some (fold_left
              (λ acc variable,
                 if bool_decide (key variable ∈ newVarKeys) then acc
                 else acc ++ [variable])
              existingVars variables)
  | None => mergedVariable
  end.

Definition when {A} (b : bool) (f : A → A) (x : A) : A := if b then f x else x.

(** Main merge function, on what the two paths hold.  The diff of the run
    is only displayed and is left out of the outcome. *)
Definition merge (options : Options) (newFile existingFile : File) : Outcome :=
  let existingCollectionPath := path_resolve (existing options) in
  let outputPath :=
    match output options with
    | Some p => if Str.is_empty p then existingCollectionPath else path_resolve p
    | None => existingCollectionPath
    end in
  let write (c : Collection) :=
    if dryRun options then None else Some (outputPath, c) in
  match newFile, existingFile with
  | Absent, _ => Failed NewCollectionNotFound
  | _, Absent =>
      match readJsonFile newFile with
      | Some newCollection => Returned newCollection (write newCollection)
      | None => Failed JsonFileError
      end
  | _, _ =>
      match readJsonFile newFile, readJsonFile existingFile with
      | Some newCollection, Some existingCollection =>
          match c_info newCollection, c_info existingCollection,
                c_item existingCollection, c_item newCollection with
          | Some newInfo, Some existingInfo, Some existingItems, Some newItems =>
              let existingItemsMap := buildItemsMap existingItems "" ∅ in
              match mergeItems newItems existingItemsMap "" with
              | Some mergedItems =>
                  let mergedInfo :=
                    {| info_name := info_name newInfo;
                       _postman_id :=
                         or_string (_postman_id existingInfo) (_postman_id newInfo);
                       info_rest := info_rest newInfo |} in
                  let event1 :=
                    when (preservePrerequest options)
                         (preserveCollectionEvent "prerequest" (c_event existingCollection))
                         (c_event newCollection) in
                  let event2 :=
                    when (preserveTests options)
                         (preserveCollectionEvent "test" (c_event existingCollection))
                         event1 in
                  let variable :=
                    when (preserveVariables options)
                         (preserveCollectionVariables (c_variable existingCollection)
                                                      (c_variable newCollection))
                         (c_variable newCollection) in
                  let mergedCollection :=
                    {| c_info := Some mergedInfo;
                       c_item := Some mergedItems;
                       c_event := event2;
                       c_variable := variable;
                       c_rest := c_rest newCollection |} in
                  Returned mergedCollection (write mergedCollection)
              | None => Failed TypeError
              end
          | _, _, _, _ => Failed TypeError
          end
      | _, _ => Failed JsonFileError
      end
  end.

(** The collection-level event list, an absent list read as the empty
    one. *)
Definition root_events (c : Collection) : list Event :=
  match c_event c with Some evs => evs | None => [] end.

(** What the collection-level block for [listenType] appends to the
    candidate's events [candidate]: the first previous event of that type,
    when the candidate has none of that type. *)
Definition carried (listenType : string) (previous candidate : list Event) : list Event :=
  match find (listens listenType) previous with
  | Some existingScript =>
      match find (listens listenType) candidate with
      | None => [existingScript]
      | Some _ => []
      end
  | None => []
  end.

(** ** The reconciliation report *)

(** [Set.prototype.add]: insertion order, no duplicates. *)
Definition set_add (x : string) (s : list string) : list string :=
  if bool_decide (x ∈ s) then s else s ++ [x].

Fixpoint collectEndpoints_item (prefix : string) (set : list string) (it : Item)
    : list string :=
  match i_item it with
  | Some children =>
      fold_left (collectEndpoints_item (prefix +:+ i_name it +:+ "/")) children set
  | None => set_add (prefix +:+ i_name it) set
  end.

Definition collectEndpoints (items : list Item) (set : list string) (prefix : string)
    : list string :=
  fold_left (collectEndpoints_item prefix) items set.

Record Diff := mkDiff {
  added : list string;
  removed : list string;
  preserved : list string
}.

(** Calculate diff between collections.  [None] when an [item] list is
    missing (the loop throws). *)
Definition calculateDiff (existingCollection mergedCollection : Collection) : option Diff :=
  match c_item existingCollection, c_item mergedCollection with
  | Some existingItems, Some mergedItems =>
      let existingEndpoints := collectEndpoints existingItems [] "" in
      let mergedEndpoints := collectEndpoints mergedItems [] "" in
      Some {| added := filter (λ e, e ∉ existingEndpoints) mergedEndpoints;
              removed := filter (λ e, e ∉ mergedEndpoints) existingEndpoints;
              preserved := filter (λ e, e ∈ existingEndpoints) mergedEndpoints |}
  | _, _ => None
  end.

(** ** The Value Sanitizer ([scripts/value-sanitizer.js]) *)

(** The module itself is not part of the sources at hand: only its tests
    and its caller are.  Its functions are modelled from the
    specification (§3, §4.1), and what the specification leaves open
    (tables, vocabulary, thresholds) is gathered in one record. *)

(** Modelled from the spec: the Specification Schema Field of §3, the
    descriptor [{ type, format?, example?, enum?, minimum?, maximum? }] that
    the missing [value-sanitizer.js] reads. *)
Record FieldSchema := mkFieldSchema {
  fs_type : option string;
  fs_format : option string;
  fs_example : option Scalar;
  fs_enum : option (list Scalar);
  fs_minimum : option Z;
  fs_maximum : option Z
}.

(** Modelled from the spec: the User Value Map of §3, [{ fieldDefaults,
    endpointOverrides }], both optional, as the missing
    [value-sanitizer.js] receives it. *)
Record UserValueMap := mkUserValueMap {
  fieldDefaults : option (gmap string Scalar);
  endpointOverrides : option (gmap string (gmap string Scalar))
}.

(** Modelled from the spec: the constants of the missing module
    [value-sanitizer.js] -- the two static tables [FORMAT_DEFAULTS] and
    [FIELD_NAME_DEFAULTS] (§3), the lorem-ipsum vocabulary, the
    high-entropy test on the parts of an e-mail address, the cutoff year for
    generated dates, the band of reasonable integers (§4.1, §9) and the
    integer that the type-based fallback clamps into the declared bounds. *)
Record Heuristics := mkHeuristics {
  FORMAT_DEFAULTS : list (string * Scalar);
  FIELD_NAME_DEFAULTS : list (string * Scalar);
  lorem_vocabulary : list string;
  high_entropy : string → bool;
  date_cutoff_year : Z;
  min_reasonable : Z;
  max_reasonable : Z;
  integer_default : Z
}.

(** [table[k]] on a static table, the first entry of a key. *)
Fixpoint table_lookup {A} (k : string) (table : list (string * A)) : option A :=
  match table with
  | [] => None
  | (k', v) :: rest => if String.eqb k' k then Some v else table_lookup k rest
  end.

(** Modelled from the spec: the character shapes the string rules of the
    missing [isRandomValue] test (§4.1): the timestamp of the generator, and
    alphabetic words. *)
Module Shape.

(** A character class of a fixed-width shape: a decimal digit or a
    literal character. *)
Inductive Pat := Digit | Lit (c : ascii).

Definition is_digit (c : ascii) : bool :=
  match Ascii.is_nat c with Some _ => true | None => false end.

Fixpoint matches (shape : list Pat) (s : string) : bool :=
  match shape, s with
  | [], EmptyString => true
  | Digit :: shape', String c s' => is_digit c && matches shape' s'
  | Lit a :: shape', String c s' => bool_decide (a = c) && matches shape' s'
  | _, _ => false
  end.

(** [YYYY-MM-DDTHH:MM:SS.mmmZ] *)
Definition timestamp : list Pat :=
  [Digit; Digit; Digit; Digit; Lit "-"; Digit; Digit; Lit "-"; Digit; Digit;
   Lit "T"; Digit; Digit; Lit ":"; Digit; Digit; Lit ":"; Digit; Digit;
   Lit "."; Digit; Digit; Digit; Lit "Z"]%char.

Fixpoint number (acc : Z) (n : nat) (s : string) : Z :=
  match n, s with
  | S n', String c s' =>
      match Ascii.is_nat c with
      | Some d => number (10 * acc + Z.of_nat d) n' s'
      | None => acc
      end
  | _, _ => acc
  end.

Definition year (s : string) : Z := number 0 4 s.

Definition is_letter (c : ascii) : bool :=
  let n := nat_of_ascii c in
  ((65 <=? n) && (n <=? 90) || (97 <=? n) && (n <=? 122))%nat.

Fixpoint alphabetic (s : string) : bool :=
  match s with
  | String c s' => is_letter c && alphabetic s'
  | EmptyString => true
  end.

End Shape.

(** Modelled from the spec: the string rules of [isRandomValue] in the
    missing [value-sanitizer.js] (§4.1).  A string matches the lorem-ipsum
    vocabulary when it has a word and each of its words (separated by
    spaces, case ignored) is a vocabulary token. *)
Definition isLoremText (h : Heuristics) (s : string) : bool :=
  let words := filter (λ w, w ≠ EmptyString) (Str.split " " (Str.toLowerCase s)) in
  negb (bool_decide (words = [])) &&
  forallb (λ w, bool_decide (w ∈ lorem_vocabulary h)) words.

(** Modelled from the spec: the shape of a randomly generated e-mail address
    (§4.1): a local part and a domain that are both high-entropy strings. *)
Definition isRandomEmail (h : Heuristics) (s : string) : bool :=
  match Str.split "@" s with
  | [localPart; domain] => high_entropy h localPart && high_entropy h domain
  | _ => false
  end.

(** Modelled from the spec: a date before the cutoff, in the timestamp
    shape of the generator (§4.1). *)
Definition isOldGeneratedDate (h : Heuristics) (s : string) : bool :=
  Shape.matches Shape.timestamp s && (Shape.year s <? date_cutoff_year h).

(** Modelled from the spec: [isRandomValue(value)] of the missing
    [value-sanitizer.js] (§4.1): strings by the four placeholder patterns,
    integers by the magnitude band; booleans (and null) are never flagged. *)
Definition isRandomValue (h : Heuristics) (v : Scalar) : bool :=
  match v with
  | SStr s =>
      isLoremText h s || isRandomEmail h s || isOldGeneratedDate h s
      || Str.startsWith "urn:uuid:" s
  | SNum n => (max_reasonable h <? n) || (n <? min_reasonable h)
  | SBool _ => false
  | SNull => false
  end.

(** The first of two optional results. *)
Definition or_else {A} (a b : option A) : option A :=
  match a with Some _ => a | None => b end.

(** Modelled from the spec: step 6 of [resolveValue] (§4.1): the
    field-name table by case-insensitive exact match, then by
    case-insensitive suffix match, in the order of the table. *)
Definition fieldNameDefault (h : Heuristics) (fieldName : string) : option Scalar :=
  let lower := Str.toLowerCase fieldName in
  or_else
    (snd <$> find (λ kv, String.eqb (Str.toLowerCase kv.1) lower) (FIELD_NAME_DEFAULTS h))
    (snd <$> find (λ kv, Str.endsWith (Str.toLowerCase kv.1) lower) (FIELD_NAME_DEFAULTS h)).

(** Modelled from the spec: "within [minimum, maximum] inclusive (clamped
    if only one bound given)" in step 7 of the missing [resolveValue]. *)
Definition clamp (lo hi : option Z) (x : Z) : Z :=
  let x := match hi with Some m => Z.min m x | None => x end in
  match lo with Some m => Z.max m x | None => x end.

(** Modelled from the spec: step 7 of [resolveValue] (§4.1): the type-based
    fallback. *)
Definition typeDefault (h : Heuristics) (schema : FieldSchema) : option Scalar :=
  match fs_type schema with
  | Some ty =>
      if String.eqb ty "integer" || String.eqb ty "number" then
        match fs_minimum schema, fs_maximum schema with
        | None, None => None
        | lo, hi => Some (SNum (clamp lo hi (integer_default h)))
        end
      else if String.eqb ty "boolean" then Some (SBool true)
      else None
  | None => None
  end.

(** Modelled from the spec: step 1 of [resolveValue] (§4.1):
    [userValueMap.endpointOverrides[endpointKey][fieldName]], when an
    endpoint key is given and the override exists. *)
Definition endpointOverride (userValueMap : option UserValueMap)
    (endpointKey : option string) (fieldName : string) : option Scalar :=
  match userValueMap, endpointKey with
  | Some um, Some k =>
      match endpointOverrides um with
      | Some overrides =>
          match overrides !! k with
          | Some fields => fields !! fieldName
          | None => None
          end
      | None => None
      end
  | _, _ => None
  end.

(** Modelled from the spec: step 2 of [resolveValue] (§4.1):
    [userValueMap.fieldDefaults[fieldName]], when present. *)
Definition fieldDefault (userValueMap : option UserValueMap) (fieldName : string)
    : option Scalar :=
  match userValueMap with
  | Some um =>
      match fieldDefaults um with
      | Some defaults => defaults !! fieldName
      | None => None
      end
  | None => None
  end.

(** Modelled from the spec: steps 3 to 7 of [resolveValue] (§4.1): the
    schema's example, the first enum value, the format table, the field-name
    table, the type-based fallback. *)
Definition builtinValue (h : Heuristics) (fieldName : string)
    (fieldSchema : option FieldSchema) : option Scalar :=
  let fromSchema (f : FieldSchema → option Scalar) :=
    match fieldSchema with Some schema => f schema | None => None end in
  or_else (fromSchema fs_example)
  (or_else (fromSchema (λ schema,
              match fs_enum schema with Some (v :: _) => Some v | _ => None end))
  (or_else (fromSchema (λ schema,
              match fs_format schema with
              | Some f => table_lookup f (FORMAT_DEFAULTS h)
              | None => None
              end))
  (or_else (fieldNameDefault h fieldName)
           (fromSchema (typeDefault h))))).

(** Modelled from the spec: [resolveValue(fieldName, fieldSchema,
    userValueMap?, endpointKey?)] of the missing [value-sanitizer.js]
    (§4.1): the strict priority chain, first match wins; [None] is [null]. *)
Definition resolveValue (h : Heuristics) (fieldName : string)
    (fieldSchema : option FieldSchema) (userValueMap : option UserValueMap)
    (endpointKey : option string) : option Scalar :=
  or_else (endpointOverride userValueMap endpointKey fieldName)
  (or_else (fieldDefault userValueMap fieldName)
           (builtinValue h fieldName fieldSchema)).

(** Modelled from the spec: the part of an OpenAPI document the missing
    [buildSchemaMap] reads (§4.1): [components.schemas], each schema with
    its [properties]. *)
Record SchemaDecl := mkSchemaDecl {
  properties : option (list (string * FieldSchema))
}.

Record Components := mkComponents {
  schemas : option (list (string * SchemaDecl))
}.

Record Specification := mkSpecification {
  components : option Components
}.

(** Modelled from the spec: [buildSchemaMap(specification)] of the missing
    [value-sanitizer.js] (§4.1): schema name to field name to descriptor,
    empty when the specification is absent or declares no schema. *)
Definition buildSchemaMap (specification : option Specification)
    : list (string * list (string * FieldSchema)) :=
  match specification with
  | Some spec =>
      match components spec with
      | Some comps =>
          match schemas comps with
          | Some decls =>
              map (λ d, (d.1, match properties d.2 with Some ps => ps | None => [] end))
                  decls
          | None => []
          end
      | None => []
      end
  | None => []
  end.

(** Modelled from the spec: [findFieldSchema(fieldName, schemaMap)] of the
    missing [value-sanitizer.js] (§4.1): the first descriptor among all
    schemas that declares the field, [None] for [null]. *)
Fixpoint findFieldSchema (fieldName : string)
    (schemaMap : list (string * list (string * FieldSchema))) : option FieldSchema :=
  match schemaMap with
  | [] => None
  | (_, fields) :: rest =>
      or_else (table_lookup fieldName fields) (findFieldSchema fieldName rest)
  end.

(** Modelled from the spec: the normalization of a segment in the missing
    [buildEndpointKey] (§3, §4.1): a path-variable segment [:name] in brace
    form [{name}], any other segment as it is. *)
Definition brace_segment (segment : string) : string :=
  match segment with
  | String ":" name => "{" +:+ name +:+ "}"
  | _ => segment
  end.

(** Modelled from the spec: the Endpoint Key of §3, [METHOD:/normalized/path],
    from a method token and the path segments. *)
Definition endpoint_key (method : string) (segments : list string) : string :=
  Str.toUpperCase method +:+ ":/" +:+ Str.join "/" (map brace_segment segments).

(** Modelled from the spec: [buildEndpointKey(request)] of the missing
    [value-sanitizer.js] (§4.1), on the requests the specification speaks
    of: a method and a URL whose path is a list of segments.  [None]
    elsewhere. *)
Definition buildEndpointKey (it : Item) : option string :=
  match i_request it with
  | Some rq =>
      match method rq, url rq with
      | Some m, Some (UrlObj u) =>
          match path u with
          | Some (PathArray segments) => Some (endpoint_key m segments)
          | _ => None
          end
      | _, _ => None
      end
  | None => None
  end.

Section Sanitize.

Variable h : Heuristics.
Variable schemaMap : list (string * list (string * FieldSchema)).
Variable userValueMap : option UserValueMap.

(** Modelled from the spec: steps 2 to 4 of the contract of [sanitize]
    (§4.1) on one scalar: an authentic value is left unchanged, a
    placeholder is replaced by what [resolveValue] yields, and kept when
    it yields nothing. *)
Definition sanitizeValue (endpointKey : option string) (fieldName : string)
    (v : Scalar) : Scalar :=
  if isRandomValue h v then
    match resolveValue h fieldName (findFieldSchema fieldName schemaMap)
                       userValueMap endpointKey with
    | Some v' => v'
    | None => v
    end
  else v.

(** Modelled from the spec: the recursive walk of a body (§4.1): every
    scalar leaf within an object, across nested objects and arrays, under
    the name of the closest enclosing field. *)
Fixpoint sanitizeJson (endpointKey : option string) (fieldName : option string)
    (j : JSON) : JSON :=
  match j with
  | JLeaf v =>
      match fieldName with
      | Some f => JLeaf (sanitizeValue endpointKey f v)
      | None => j
      end
  | JArr elems => JArr (map (sanitizeJson endpointKey fieldName) elems)
  | JObj fields =>
      JObj (map (λ kv, (kv.1, sanitizeJson endpointKey (Some kv.1) kv.2)) fields)
  end.

(** Modelled from the spec: the missing sanitizer on a body (§4.1): a
    JSON body is walked, a body that is not JSON is left untouched. *)
Definition sanitizeBody (endpointKey : option string) (b : BodyContent) : BodyContent :=
  match b with
  | Json j => Json (sanitizeJson endpointKey None j)
  | NotJson _ => b
  end.

(** Modelled from the spec: the missing sanitizer on the bound path
    variables of a URL (§4.1): each value is treated as a scalar under the
    name of its key. *)
Definition sanitizePathVariable (endpointKey : option string) (pv : PathVariable)
    : PathVariable :=
  {| pv_key := pv_key pv;
     pv_value := sanitizeValue endpointKey (pv_key pv) (pv_value pv) |}.

Definition sanitizeUrl (endpointKey : option string) (u : Url) : Url :=
  match u with
  | UrlObj o =>
      UrlObj {| raw := raw o; path := path o;
                url_variable := map (sanitizePathVariable endpointKey) <$> url_variable o |}
  | UrlString _ => u
  end.

(** Modelled from the spec: the missing sanitizer on a Request and on a
    response example (§4.1): the body and the path variables, nothing
    else. *)
Definition sanitizeRequest (endpointKey : option string) (rq : Request) : Request :=
  {| method := method rq;
     url := sanitizeUrl endpointKey <$> url rq;
     body := sanitizeBody endpointKey <$> body rq |}.

Definition sanitizeResponse (endpointKey : option string) (r : Response) : Response :=
  {| resp_name := resp_name r;
     resp_body := sanitizeBody endpointKey <$> resp_body r |}.

(** Modelled from the spec: the traversal of every Folder/Request node
    (§4.1). *)
Fixpoint sanitizeItem (it : Item) : Item :=
  match it with
  | mkItem name (Some children) request event response =>
      mkItem name (Some (map sanitizeItem children)) request event response
  | mkItem name None request event response =>
      let endpointKey := buildEndpointKey it in
      mkItem name None (sanitizeRequest endpointKey <$> request) event
             (map (sanitizeResponse endpointKey) <$> response)
  end.

End Sanitize.

(** Modelled from the spec: [sanitizeCollection(collection, specification,
    userValueMap?)] of the missing [value-sanitizer.js] (§4.1); [None] is
    the [null] collection. *)
Definition sanitizeCollection (h : Heuristics) (collection : option Collection)
    (specification : option Specification) (userValueMap : option UserValueMap)
    : option Collection :=
  match collection with
  | None => None
  | Some c =>
      let schemaMap := buildSchemaMap specification in
      Some {| c_info := c_info c;
              c_item := map (sanitizeItem h schemaMap userValueMap) <$> c_item c;
              c_event := c_event c;
              c_variable := c_variable c;
              c_rest := c_rest c |}
  end.

(** The scalar values the sanitizer may classify: every scalar leaf of a
    JSON body, and every bound path-variable value. *)
Fixpoint jsonLeaves (j : JSON) : list Scalar :=
  match j with
  | JLeaf v => [v]
  | JArr elems => concat (map jsonLeaves elems)
  | JObj fields => concat (map (λ kv, jsonLeaves kv.2) fields)
  end.

Definition bodyLeaves (b : option BodyContent) : list Scalar :=
  match b with
  | Some (Json j) => jsonLeaves j
  | _ => []
  end.

Definition requestValues (rq : Request) : list Scalar :=
  bodyLeaves (body rq) ++
  match url rq with
  | Some (UrlObj o) =>
      map pv_value (match url_variable o with Some vs => vs | None => [] end)
  | _ => []
  end.

Fixpoint itemValues (it : Item) : list Scalar :=
  match it with
  | mkItem _ (Some children) _ _ _ => concat (map itemValues children)
  | mkItem _ None request _ response =>
      match request with Some rq => requestValues rq | None => [] end ++
      concat (map (λ r, bodyLeaves (resp_body r))
                  (match response with Some rs => rs | None => [] end))
  end.

Definition collectionValues (c : Collection) : list Scalar :=
  concat (map itemValues (match c_item c with Some items => items | None => [] end)).

(** A value and what stands in its place after a run: an authentic value
    is still there. *)
Definition keeps_authentic (h : Heuristics) (v v' : Scalar) : Prop :=
  isRandomValue h v = false → v' = v.

(** ** The merge over a store of shared arrays *)

(** [mergedCollection] is built with an object spread of [newCollection]:
    its [event] and [variable] properties are the very arrays of the
    candidate, and [push] writes into them.  Here the two arrays live in a
    store and the collections hold their addresses.  The item tree stays
    a value: [mergeItems] builds new folder objects and [mergeRequest]
    works on a deep clone. *)
Module Shared.

Abbreviation loc := nat.

Inductive Cell :=
  | Events (es : list Event)
  | Variables (vs : list Variable_).

Abbreviation Store := (list Cell).

Record CollectionObj := mkCollectionObj {
  o_info : option Info;
  o_item : option (list Item);
  o_event : option loc;
  o_variable : option loc;
  o_rest : list (string * JSON)
}.

(** State and failure: [None] is a thrown [TypeError]. *)
Definition M (A : Type) : Type := Store → option (A * Store).

Definition ret {A} (a : A) : M A := λ σ, Some (a, σ).

Definition bind {A B} (m : M A) (k : A → M B) : M B :=
  λ σ, match m σ with Some (a, σ') => k a σ' | None => None end.

Global Instance M_ret : MRet M := @ret.
Global Instance M_bind : MBind M := λ A B k m, bind m k.

(** A new array. *)
Definition alloc (c : Cell) : M loc := λ σ, Some (length σ, σ ++ [c]).

Definition readEvents (l : loc) : M (list Event) :=
  λ σ, match σ !! l with Some (Events es) => Some (es, σ) | _ => None end.

Definition readVariables (l : loc) : M (list Variable_) :=
  λ σ, match σ !! l with Some (Variables vs) => Some (vs, σ) | _ => None end.

(** [array.push(e)] *)
Definition pushEvent (l : loc) (e : Event) : M unit :=
  λ σ, match σ !! l with
       | Some (Events es) => Some (tt, <[l := Events (es ++ [e])]> σ)
       | _ => None
       end.

Definition pushVariable (l : loc) (v : Variable_) : M unit :=
  λ σ, match σ !! l with
       | Some (Variables vs) => Some (tt, <[l := Variables (vs ++ [v])]> σ)
       | _ => None
       end.

Fixpoint forEach {A} (l : list A) (f : A → M unit) : M unit :=
  match l with
  | [] => ret tt
  | x :: xs => f x ;; forEach xs f
  end.

(** [if (!mergedCollection.event) mergedCollection.event = [];] *)
Definition ensureArray (empty : Cell) (l : option loc) : M loc :=
  match l with
  | Some l => ret l
  | None => alloc empty
  end.

Definition preserveCollectionEvent (listenType : string)
    (existingEvent mergedEvent : option loc) : M (option loc) :=
  match existingEvent with
  | Some le =>
      existingEvents ← readEvents le;
      match find (listens listenType) existingEvents with
      | Some existingScript =>
          lm ← ensureArray (Events []) mergedEvent;
          events ← readEvents lm;
          match find (listens listenType) events with
          | None => pushEvent lm existingScript;; ret (Some lm)
          | Some _ => ret (Some lm)
          end
      | None => ret mergedEvent
      end
  | None => ret mergedEvent
  end.

(** The loop runs over the existing array as it is when the loop starts:
    the two collections come from two calls of [JSON.parse] and the
    merged array is never the existing one. *)
Definition preserveCollectionVariables
    (existingVariable newVariable mergedVariable : option loc) : M (option loc) :=
  match existingVariable with
  | Some le =>
      existingVars ← readVariables le;
      newVars ← match newVariable with
                | Some ln => readVariables ln
                | None => ret []
                end;
      let newVarKeys := map key newVars in
      lm ← ensureArray (Variables []) mergedVariable;
      forEach existingVars
        (λ variable,
           if bool_decide (key variable ∈ newVarKeys) then ret tt
           else pushVariable lm variable);;
      ret (Some lm)
  | None => ret mergedVariable
  end.

Definition whenM {A} (b : bool) (f : A → M A) (x : A) : M A :=
  if b then f x else ret x.

(** The body of [merge] once both collections are loaded. *)
Definition mergeLoaded (options : Options)
    (newCollection existingCollection : CollectionObj) : M CollectionObj :=
  match o_info newCollection, o_info existingCollection,
        o_item existingCollection, o_item newCollection with
  | Some newInfo, Some existingInfo, Some existingItems, Some newItems =>
      let existingItemsMap := buildItemsMap existingItems "" ∅ in
      match mergeItems newItems existingItemsMap "" with
      | Some mergedItems =>
          let mergedInfo :=
            {| info_name := info_name newInfo;
               _postman_id := or_string (_postman_id existingInfo) (_postman_id newInfo);
               info_rest := info_rest newInfo |} in
          event1 ← whenM (preservePrerequest options)
                     (preserveCollectionEvent "prerequest" (o_event existingCollection))
                     (o_event newCollection);
          event2 ← whenM (preserveTests options)
                     (preserveCollectionEvent "test" (o_event existingCollection))
                     event1;
          variable ← whenM (preserveVariables options)
                       (preserveCollectionVariables (o_variable existingCollection)
                                                    (o_variable newCollection))
                       (o_variable newCollection);
          ret {| o_info := Some mergedInfo;
                 o_item := Some mergedItems;
                 o_event := event2;
                 o_variable := variable;
                 o_rest := o_rest newCollection |}
      | None => λ _, None
      end
  | _, _, _, _ => λ _, None
  end.

(** The content of an optional array in a store; the outer [None] is a
    dangling address. *)
Definition eventsAt (σ : Store) (l : option loc) : option (option (list Event)) :=
  match l with
  | Some l => match σ !! l with Some (Events es) => Some (Some es) | _ => None end
  | None => Some None
  end.

Definition variablesAt (σ : Store) (l : option loc) : option (option (list Variable_)) :=
  match l with
  | Some l => match σ !! l with Some (Variables vs) => Some (Some vs) | _ => None end
  | None => Some None
  end.

(** The collection an object stands for in a store. *)
Definition reify (σ : Store) (o : CollectionObj) : option Collection :=
  match eventsAt σ (o_event o), variablesAt σ (o_variable o) with
  | Some ev, Some var =>
      Some {| c_info := o_info o; c_item := o_item o; c_event := ev;
              c_variable := var; c_rest := o_rest o |}
  | _, _ => None
  end.

End Shared.


(** The display paths of the leaves of a node, as the specification words
    them: the names of the enclosing folders and the request's own name,
    joined with [/]. *)
Fixpoint displayPaths (folders : list string) (it : Item) : list string :=
  match i_item it with
  | Some children => concat (map (displayPaths (folders ++ [i_name it])) children)
  | None => [Str.join "/" (folders ++ [i_name it])]
  end.

(** The prefix [collectEndpoints] carries for a list of enclosing folders. *)
Fixpoint folder_prefix (folders : list string) : string :=
  match folders with
  | [] => ""
  | f :: fs => f +:+ "/" +:+ folder_prefix fs
  end.

Definition collectionPaths (c : Collection) : list string :=
  concat (map (displayPaths [])
              (match c_item c with Some items => items | None => [] end)).

(** A run that leaves the variable arrays (the event arrays) of a store as
    they are. *)
Definition keeps_variables (σ σ' : Shared.Store) : Prop :=
  ∀ l vs, σ !! l = Some (Shared.Variables vs) → σ' !! l = Some (Shared.Variables vs).

Definition keeps_events (σ σ' : Shared.Store) : Prop :=
  ∀ l es, σ !! l = Some (Shared.Events es) → σ' !! l = Some (Shared.Events es).

(** ** Views of the item tree used to state what the merger keeps *)

(** The request leaves of a node in traversal order, each with the key and
    the name path [buildItemsMap] computes for it. *)
Fixpoint leafEntries (parentPath : string) (it : Item) : list (string * (Item * string)) :=
  let itemPath := item_path parentPath (i_name it) in
  match i_item it with
  | Some children => concat (map (leafEntries itemPath) children)
  | None => [(generateItemKey it itemPath, (it, itemPath))]
  end.

Definition treeEntries (parentPath : string) (items : list Item)
    : list (string * (Item * string)) :=
  concat (map (leafEntries parentPath) items).

(** The entry a key stands for in the lookup object: the entry made
    prototype for [__proto__], the own property for any other key. *)
Definition entry_at (map : ItemsMap) (key : string) : option (Item * string) :=
  if String.eqb key "__proto__" then proto map else own map !! key.

(** A key at which the lookup answers with something that has no [item]:
    [mergeRequest] is then called on [undefined] and throws. *)
Definition finds_foreign (existingItemsMap : ItemsMap) (key : string) : bool :=
  let existing := get_property existingItemsMap key in
  truthy existing && match item_of existing with NoItem => true | _ => false end.

(** A tree without the event lists of its request leaves. *)
Fixpoint eraseLeafEvents (it : Item) : Item :=
  match it with
  | mkItem name (Some children) request event response =>
      mkItem name (Some (map eraseLeafEvents children)) request event response
  | mkItem name None request _ response => mkItem name None request None response
  end.

(** The first event of a listen type exists and has a non-empty script. *)
Definition settled (listenType : string) (events : list Event) : bool :=
  match find (listens listenType) events with
  | Some e => hasNonEmptyScript e
  | None => false
  end.

(** ** [scripts/convert.js]: counting the endpoints *)

(** Count total items (endpoints) in collection: the body of the loop, for
    one item.  The function reads nothing but [item.item]; it is stated on
    the item tree of the merger, whose report it can then be compared
    with. *)
Fixpoint countItems_item (count : nat) (it : Item) : nat :=
  match i_item it with
  | Some children => fold_left countItems_item children count
  | None => S count
  end.

Definition countItems (items : list Item) (count : nat) : nat :=
  fold_left countItems_item items count.

(** ** [scripts/utils.js]: file names *)

Module Filename.

(** The class [[a-z0-9\-_]] under the flag [i]. *)
Definition is_safe (c : ascii) : bool :=
  let n := nat_of_ascii c in
  ((65 <=? n) && (n <=? 90) || (97 <=? n) && (n <=? 122) || (48 <=? n) && (n <=? 57)
   || (n =? 45) || (n =? 95))%nat.

Definition is_underscore (c : ascii) : bool := (nat_of_ascii c =? 95)%nat.

Definition starts_with_underscore (s : string) : bool :=
  match s with String c _ => is_underscore c | EmptyString => false end.

(** [str.replace(/[^a-z0-9\-_]/gi, '_')]: every other character becomes an
    underscore.  A character outside ASCII is several bytes here and one or
    two code units in JS, each replaced by an underscore; the next step
    makes one underscore of them either way. *)
Fixpoint replaceUnsafe (str : string) : string :=
  match str with
  | String c rest => String (if is_safe c then c else "_"%char) (replaceUnsafe rest)
  | EmptyString => EmptyString
  end.

(** [str.replace(/_+/g, '_')]: a run of underscores becomes one. *)
Fixpoint collapseUnderscores (str : string) : string :=
  match str with
  | String c rest =>
      if is_underscore c && starts_with_underscore rest then collapseUnderscores rest
      else String c (collapseUnderscores rest)
  | EmptyString => EmptyString
  end.

(** Sanitize a string for use as a filename. *)
Definition sanitizeFilename (str : string) : string :=
  Str.toLowerCase (collapseUnderscores (replaceUnsafe str)).

Fixpoint all_safe (s : string) : bool :=
  match s with
  | String c rest => is_safe c && all_safe rest
  | EmptyString => true
  end.

(** The characters of a sanitized name: [a-z], [0-9], [-] and [_]. *)
Definition is_plain (c : ascii) : bool :=
  let n := nat_of_ascii c in
  ((97 <=? n) && (n <=? 122) || (48 <=? n) && (n <=? 57) || (n =? 45) || (n =? 95))%nat.

Fixpoint all_plain (s : string) : bool :=
  match s with
  | String c rest => is_plain c && all_plain rest
  | EmptyString => true
  end.

Fixpoint single_underscores (s : string) : bool :=
  match s with
  | String c rest =>
      negb (is_underscore c && starts_with_underscore rest) && single_underscores rest
  | EmptyString => true
  end.

End Filename.

(** ** [scripts/convert.js]: the collection after the conversion *)

(** [convert.js] reads and writes properties of the generated collection
    that the merger does not look at ([url.raw], [url.host], the [type] of a
    variable); its functions are embedded on a data model of their own. *)
Module Convert.

Record Variable_ := mkVariable {
  key : string;
  value : JSON;
  type : option string
}.

Record UrlObject := mkUrlObject {
  raw : option string;
  host : option (list string);
  url_rest : list (string * JSON)   (* path, query, variable, ... *)
}.

Inductive Url :=
  | UrlString (s : string)
  | UrlObj (u : UrlObject).

Record Request := mkRequest {
  url : option Url;
  request_rest : list (string * JSON)   (* method, header, body, ... *)
}.

Inductive Item :=
  mkItem (name : string) (item : option (list Item)) (request : option Request)
         (item_rest : list (string * JSON)).

Definition i_name (i : Item) : string := let 'mkItem n _ _ _ := i in n.
Definition i_item (i : Item) : option (list Item) := let 'mkItem _ c _ _ := i in c.
Definition i_request (i : Item) : option Request := let 'mkItem _ _ r _ := i in r.

Record Collection := mkCollection {
  info_name : string;
  item : list Item;
  variable : option (list Variable_);
  collection_rest : list (string * JSON)
}.

(** *** The two patterns of [overrideBaseUrl] *)

(** The rest of [s] after the prefix [p], when [s] starts with it. *)
Fixpoint dropPrefix (p s : string) : option string :=
  match p, s with
  | EmptyString, _ => Some s
  | String a p', String b s' => if bool_decide (a = b) then dropPrefix p' s' else None
  | String _ _, EmptyString => None
  end.

(** [/^https?:\/\//]: the scheme matched and what follows it. *)
Definition matchScheme (s : string) : option (string * string) :=
  match dropPrefix "https://" s with
  | Some rest => Some ("https://", rest)
  | None =>
      match dropPrefix "http://" s with
      | Some rest => Some ("http://", rest)
      | None => None
      end
  end.

(** [[^\/]*], greedy: the characters before the first slash, and the
    rest. *)
Fixpoint spanHost (s : string) : string * string :=
  match s with
  | String c s' =>
      if bool_decide (c = "/"%char) then (EmptyString, s)
      else let (h, rest) := spanHost s' in (String c h, rest)
  | EmptyString => (EmptyString, EmptyString)
  end.

(** [/^https?:\/\/[^\/]+/]: the text matched and the text after it. *)
Definition matchOrigin (s : string) : option (string * string) :=
  match matchScheme s with
  | Some (scheme, afterScheme) =>
      match spanHost afterScheme with
      | (EmptyString, _) => None
      | (h, rest) => Some (scheme +:+ h, rest)
      end
  | None => None
  end.

(** The replacement text of [String.prototype.replace] for a pattern
    without groups that matched at the start of the string: [$$] is a
    dollar sign, [$&] the text matched, [$'] the text after the match, and
    the text before the match is empty. *)
Fixpoint expandReplacement (replacement matched after : string) : string :=
  match replacement with
  | String "$" (String "$" r) => String "$" (expandReplacement r matched after)
  | String "$" (String "&" r) => matched +:+ expandReplacement r matched after
  | String "$" (String "`" r) => expandReplacement r matched after
  | String "$" (String "'" r) => after +:+ expandReplacement r matched after
  | String c r => String c (expandReplacement r matched after)
  | EmptyString => EmptyString
  end.

(** [s.replace(/^https?:\/\/[^\/]+/, baseUrl)] *)
Definition replaceOrigin (baseUrl s : string) : string :=
  match matchOrigin s with
  | Some (matched, after) => expandReplacement baseUrl matched after +:+ after
  | None => s
  end.

(** [baseUrl.replace(/^https?:\/\//, '')] *)
Definition stripScheme (baseUrl : string) : string :=
  match matchScheme baseUrl with
  | Some (_, rest) => rest
  | None => baseUrl
  end.

(** The body of the loop of [traverse] on the URL of a request. *)
Definition overrideUrl (baseUrl : string) (u : Url) : Url :=
  match u with
  | UrlString s => UrlString (replaceOrigin baseUrl s)
  | UrlObj o =>
      match raw o with
      | Some r =>
          if Str.is_empty r then u
          else UrlObj {| raw := Some (replaceOrigin baseUrl r);
                         host := Some [stripScheme baseUrl];
                         url_rest := url_rest o |}
      | None => u
      end
  end.

(** [traverse], for one item: folders are walked, requests of leaves are
    rewritten. *)
Fixpoint traverse_item (baseUrl : string) (it : Item) : Item :=
  match it with
  | mkItem name (Some children) request rest =>
      mkItem name (Some (map (traverse_item baseUrl) children)) request rest
  | mkItem name None (Some rq) rest =>
      mkItem name None
             (Some {| url := overrideUrl baseUrl <$> url rq;
                      request_rest := request_rest rq |})
             rest
  | mkItem name None None rest => it
  end.

(** Override base URL in all requests. *)
Definition overrideBaseUrl (collection : Collection) (baseUrl : string) : Collection :=
  {| info_name := info_name collection;
     item := map (traverse_item baseUrl) (item collection);
     variable := variable collection;
     collection_rest := collection_rest collection |}.

(** Add environment variables to collection; [envVars] is
    [Object.entries(envVars)]. *)
Definition addEnvironmentVariables (collection : Collection)
    (envVars : list (string * JSON)) : Collection :=
  let variables := match variable collection with Some vs => vs | None => [] end in
  {| info_name := info_name collection;
     item := item collection;
     variable :=
       Some (fold_left
               (λ acc entry,
                  acc ++ [{| key := entry.1; value := entry.2; type := Some "string" |}])
               envVars variables);
     collection_rest := collection_rest collection |}.

(** The URLs of the request leaves of a tree, in traversal order. *)
Fixpoint leafUrls (it : Item) : list (option Url) :=
  match it with
  | mkItem _ (Some children) _ _ => concat (map leafUrls children)
  | mkItem _ None (Some rq) _ => [url rq]
  | mkItem _ None None _ => []
  end.

(** A tree without the URLs of the requests of its leaves. *)
Fixpoint eraseLeafUrls (it : Item) : Item :=
  match it with
  | mkItem name (Some children) request rest =>
      mkItem name (Some (map eraseLeafUrls children)) request rest
  | mkItem name None (Some rq) rest =>
      mkItem name None (Some {| url := None; request_rest := request_rest rq |}) rest
  | mkItem name None None rest => it
  end.

Fixpoint has_char (c : ascii) (s : string) : bool :=
  match s with
  | String a s' => bool_decide (a = c) || has_char c s'
  | EmptyString => false
  end.

(** The text after a match is empty or starts with a slash. *)
Definition at_path (rest : string) : bool :=
  match rest with
  | EmptyString => true
  | String c _ => bool_decide (c = "/"%char)
  end.

(** A base URL that is an origin: a scheme and a host, with no slash after
    the scheme. *)
Definition is_origin (baseUrl : string) : bool :=
  match matchOrigin baseUrl with
  | Some (_, after) => Str.is_empty after
  | None => false
  end.

End Convert.


(** ** Sample data *)

(** A request node with a string method and a URL whose path is a list of
    segments. *)
Definition request_item (name : string) (m : string) (segments : list string)
    (variables : option (list PathVariable)) (b : option BodyContent)
    (event : option (list Event)) (response : option (list Response)) : Item :=
  mkItem name None
    (Some {| method := Some m;
             url := Some (UrlObj {| raw := None; path := Some (PathArray segments);
                                    url_variable := variables |});
             body := b |})
    event response.

Definition get_pet : Item :=
  request_item "Get Pet" "GET" ["pets"; ":petId"] None None None None.

Definition script_of (lines : list string) : option Script :=
  Some {| exec := Some lines; script_rest := [] |}.

Definition status_test : Event :=
  {| listen := "test";
     script := script_of ["pm.test('ok', () => pm.response.to.have.status(200));"] |}.

Definition blank_test : Event :=
  {| listen := "test"; script := script_of [""; "  "] |}.

(** A test script of two lines of white space outside ASCII: a no-break
    space and an em space, then a line separator. *)
Definition unicode_blank_test : Event :=
  {| listen := "test";
     script := script_of [Str.utf8 0x00A0 +:+ Str.utf8 0x2003; Str.utf8 0x2028] |}.

Definition generated_test : Event :=
  {| listen := "test"; script := script_of ["// generated"] |}.

Definition auth_prerequest : Event :=
  {| listen := "prerequest"; script := script_of ["pm.variables.set('t', 1);"] |}.

Definition blank_prerequest : Event :=
  {| listen := "prerequest"; script := script_of [] |}.

Definition list_pets (event : option (list Event)) : Item :=
  request_item "List pets" "GET" ["pets"] None None event None.

Definition endpoint (name : string) (segment : string) : Item :=
  request_item name "GET" [segment] None None None None.

Definition collection_of (id : string) (items : list Item) : Collection :=
  {| c_info := Some {| info_name := "Pets API"; _postman_id := Some id; info_rest := [] |};
     c_item := Some items;
     c_event := None;
     c_variable := None;
     c_rest := [] |}.

(** A previous collection with the endpoints A and B, a candidate with B
    and C. *)
Definition previous_AB : Collection :=
  collection_of "previous-id" [endpoint "A" "a"; endpoint "B" "b"].

Definition candidate_BC : Collection :=
  collection_of "fresh-id" [endpoint "B" "b"; endpoint "C" "c"].

Definition default_options : Options :=
  {| existing := "collections/api.json"; output := None;
     preserveTests := true; preservePrerequest := true; preserveVariables := true;
     dryRun := false; verbose := false |}.

Definition merged_BC : Collection :=
  match merge default_options (Parsed candidate_BC) (Parsed previous_AB) with
  | Returned result _ => result
  | Failed _ => candidate_BC
  end.

Definition with_events (c : Collection) (events : list Event) : Collection :=
  {| c_info := c_info c; c_item := c_item c; c_event := Some events;
     c_variable := c_variable c; c_rest := c_rest c |}.

(** A candidate whose collection-level test script is blank, against a
    previous collection with a populated test script and a blank
    pre-request script. *)
Definition candidate_blank_test : Collection := with_events candidate_BC [blank_test].

Definition previous_scripted : Collection :=
  with_events previous_AB [status_test; blank_prerequest].

(** Two loaded collections that declare collection-level arrays: the
    candidate's events at address 0 and variables at 1, the previous
    collection's at 2 and 3. *)
Definition base_url : Variable_ := {| key := "baseUrl"; value := SStr "https://api.example.com" |}.
Definition token : Variable_ := {| key := "token"; value := SStr "secret" |}.

Definition loaded_store : Shared.Store :=
  [Shared.Events [generated_test]; Shared.Variables [base_url];
   Shared.Events [auth_prerequest]; Shared.Variables [token]].

Definition loaded_object (id : string) (items : list Item) (event variable : nat)
    : Shared.CollectionObj :=
  {| Shared.o_info := Some {| info_name := "Pets API"; _postman_id := Some id; info_rest := [] |};
     Shared.o_item := Some items;
     Shared.o_event := Some event;
     Shared.o_variable := Some variable;
     Shared.o_rest := [] |}.

Definition loaded_candidate : Shared.CollectionObj :=
  loaded_object "fresh-id" [endpoint "B" "b"; endpoint "C" "c"] 0%nat 1%nat.

Definition loaded_previous : Shared.CollectionObj :=
  loaded_object "previous-id" [endpoint "A" "a"; endpoint "B" "b"] 2%nat 3%nat.

(** The user value map of the priority scenario. *)
Definition priority_map : UserValueMap :=
  {| fieldDefaults := Some {["name" := SStr "Default"]};
     endpointOverrides := Some {["POST:/pets" := {["name" := SStr "Override"]}]} |}.

Definition has_upper (s : string) : bool :=
  bool_decide (Str.toLowerCase s ≠ s).

(** Constants with which the model passes the module's tests. *)
Definition sample_heuristics : Heuristics :=
  {| FORMAT_DEFAULTS :=
       [("uuid", SStr "550e8400-e29b-41d4-a716-446655440000");
        ("email", SStr "user@example.com");
        ("date-time", SStr "2025-01-15T10:30:00.000Z")];
     FIELD_NAME_DEFAULTS :=
       [("email", SStr "user@example.com"); ("age", SNum 25);
        ("city", SStr "Springfield"); ("firstName", SStr "John");
        ("name", SStr "John Doe");
        ("id", SStr "550e8400-e29b-41d4-a716-446655440000")];
     lorem_vocabulary :=
       ["lorem"; "ipsum"; "dolor"; "sit"; "amet"; "ut"; "labore"; "sint";
        "tempor"; "duis"; "nulla"; "aliquip"];
     high_entropy := has_upper;
     date_cutoff_year := 2000;
     min_reasonable := -1000;
     max_reasonable := 1000000;
     integer_default := 1 |}.

Definition empty_collection : Collection :=
  {| c_info := None; c_item := None; c_event := None; c_variable := None; c_rest := [] |}.

Definition empty_specification : Specification := {| components := None |}.

(** The body [{name: 'Buddy', species: 'dog', age: 3}] of the request
    Create Pet. *)
Definition buddy : JSON :=
  JObj [("name", JLeaf (SStr "Buddy")); ("species", JLeaf (SStr "dog"));
        ("age", JLeaf (SNum 3))].

Definition create_pet : Item :=
  request_item "Create Pet" "POST" ["pets"] None (Some (Json buddy)) None None.

Definition clean_collection : Collection :=
  collection_of "fresh-id" [mkItem "Pets" (Some [create_pet]) None None None].

Definition pet_schemas : Specification :=
  {| components :=
       Some {| schemas :=
         Some [("Pet",
                {| properties :=
                     Some [("name", {| fs_type := Some "string"; fs_format := None;
                                       fs_example := Some (SStr "Rex"); fs_enum := None;
                                       fs_minimum := None; fs_maximum := None |});
                           ("age", {| fs_type := Some "integer"; fs_format := None;
                                      fs_example := None; fs_enum := None;
                                      fs_minimum := Some 0; fs_maximum := None |})] |})] |} |}.

(** The request Create Pet of the module's tests, with placeholders. *)
Definition create_pet_generated : Item :=
  request_item "Create Pet" "POST" ["pets"] None
    (Some (Json (JObj [("name", JLeaf (SStr "ut labore sint tempor"));
                       ("age", JLeaf (SNum 78171233))])))
    None None.

Definition custom_map : UserValueMap :=
  {| fieldDefaults := Some {["name" := SStr "Custom Pet"]};
     endpointOverrides := Some {["POST:/pets" := {["age" := SNum 5]}]} |}.

Definition get_pet_bound : Item :=
  request_item "Get Pet" "GET" ["pets"; ":petId"]
    (Some [{| pv_key := "petId";
              pv_value := SStr "urn:uuid:36a23258-2561-a45b-0feb-223506c7ee66" |}])
    None None None.

Definition schema_with (ty format : option string) (example : option Scalar)
    (enum : option (list Scalar)) (lo hi : option Z) : option FieldSchema :=
  Some {| fs_type := ty; fs_format := format; fs_example := example; fs_enum := enum;
          fs_minimum := lo; fs_maximum := hi |}.

(** ** Further sample data *)

Definition with_variables (c : Collection) (variables : list Variable_) : Collection :=
  {| c_info := c_info c; c_item := c_item c; c_event := c_event c;
     c_variable := Some variables; c_rest := c_rest c |}.

Definition api_key_new : Variable_ := {| key := "apiKey"; value := SStr "generated" |}.
Definition api_key_old : Variable_ := {| key := "apiKey"; value := SStr "hand-written" |}.

(** A generated collection with a folder, a request given by a URL object
    and a request given by a URL string. *)
Definition generated_pets : Convert.Collection :=
  {| Convert.info_name := "Pets API";
     Convert.item :=
       [Convert.mkItem "Pets"
          (Some [Convert.mkItem "List pets" None
                   (Some {| Convert.url :=
                              Some (Convert.UrlObj
                                      {| Convert.raw := Some "http://localhost:3000/pets";
                                         Convert.host := Some ["localhost"];
                                         Convert.url_rest :=
                                           [("path", JArr [JLeaf (SStr "pets")])] |});
                            Convert.request_rest := [("method", JLeaf (SStr "GET"))] |})
                   [];
                 Convert.mkItem "Health" None
                   (Some {| Convert.url :=
                              Some (Convert.UrlString "https://localhost/health");
                            Convert.request_rest := [("method", JLeaf (SStr "GET"))] |})
                   []])
          None []];
     Convert.variable := None;
     Convert.collection_rest := [] |}.

(** * Properties *)

(** ** Strings *)

Lemma string_app_cons c s t : String c s +:+ t = String c (s +:+ t).
Proof. reflexivity. Qed.

Lemma string_length_app s t :
  String.length (s +:+ t) = (String.length s + String.length t)%nat.
Proof.
  induction s as [|c s IH]; [reflexivity|].
  rewrite string_app_cons. simpl. by rewrite IH.
Qed.

Lemma toUpperCase_length s : String.length (Str.toUpperCase s) = String.length s.
Proof. induction s as [|c s IH]; simpl; [done|]. by rewrite IH. Qed.

Lemma brace_segment_length segment :
  (String.length segment ≤ String.length (brace_segment segment))%nat.
Proof.
  destruct segment as [|c name]; [done|].
  unfold brace_segment.
  destruct (decide (c = ":"%char)) as [->|Hc].
  - rewrite !string_length_app. simpl. lia.
  - destruct c as [[] [] [] [] [] [] [] []]; try done.
Qed.

Lemma join_brace_length segments :
  (String.length (Str.join "/" segments)
   ≤ String.length (Str.join "/" (map brace_segment segments)))%nat.
Proof.
  induction segments as [|x xs IH]; [done|].
  destruct xs as [|y ys].
  - simpl. apply brace_segment_length.
  - change (Str.join "/" (x :: y :: ys)) with (x +:+ "/" +:+ Str.join "/" (y :: ys)).
    change (Str.join "/" (map brace_segment (x :: y :: ys)))
      with (brace_segment x +:+ "/" +:+ Str.join "/" (map brace_segment (y :: ys))).
    rewrite !string_length_app.
    pose proof (brace_segment_length x). lia.
Qed.

(** A colon-prefixed segment is rewritten to brace form, any other segment
    is kept. *)
Lemma brace_segment_variable name : brace_segment (String ":" name) = "{" +:+ name +:+ "}".
Proof. reflexivity. Qed.

Lemma brace_segment_literal segment :
  Str.startsWith ":" segment = false → brace_segment segment = segment.
Proof.
  destruct segment as [|c name]; [done|].
  destruct c as [[] [] [] [] [] [] [] []]; try done.
Qed.

(** ** Endpoint keys (C1) *)

(** C1, as stated, fails: on method GET and path ['pets', ':petId'] the
    Merger's generateItemKey returns 'GET:pets/:petId', without the leading
    '/' and without the brace form, not 'GET:/pets/{petId}'. *)
Lemma C1_generateItemKey_not_normalized :
  generateItemKey get_pet "Get Pet" = "GET:pets/:petId" ∧
  ¬ (generateItemKey get_pet "Get Pet" = "GET:/pets/{petId}" ∧
     buildEndpointKey get_pet = Some "GET:/pets/{petId}").
Proof.
  split; [reflexivity|].
  intros [Hkey _]. vm_compute in Hkey. discriminate Hkey.
Qed.

(** C1, amended: for every Request whose URL path is a list of segments,
    the Sanitizer's buildEndpointKey returns the normalized key (method
    upper-cased, ':/', the segments joined with '/', colon-prefixed segments
    in brace form), the Merger's generateItemKey returns the method as
    written, ':' and the segments joined with '/' as they are, and the two
    keys are never the same string; for GET and ['pets', ':petId'] they are
    'GET:/pets/{petId}' and 'GET:pets/:petId'. *)
Theorem C1_endpoint_keys :
  (∀ name m segments variables b event response itemPath,
     let it := request_item name m segments variables b event response in
     generateItemKey it itemPath = m +:+ ":" +:+ Str.join "/" segments ∧
     buildEndpointKey it
       = Some (Str.toUpperCase m +:+ ":/" +:+ Str.join "/" (map brace_segment segments)) ∧
     buildEndpointKey it ≠ Some (generateItemKey it itemPath)) ∧
  (∀ name, brace_segment (String ":" name) = "{" +:+ name +:+ "}") ∧
  (∀ segment, Str.startsWith ":" segment = false → brace_segment segment = segment) ∧
  buildEndpointKey get_pet = Some "GET:/pets/{petId}" ∧
  generateItemKey get_pet "Get Pet" = "GET:pets/:petId".
Proof.
  split; [|split; [|split; [|split]]].
  - intros name m segments variables b event response itemPath it.
    split; [reflexivity|]. split; [reflexivity|].
    intros Heq. injection Heq as Heq.
    apply (f_equal String.length) in Heq.
    change (generateItemKey it itemPath)
      with (m +:+ ":" +:+ Str.join "/" segments) in Heq.
    unfold endpoint_key in Heq.
    rewrite !string_length_app, toUpperCase_length in Heq.
    pose proof (join_brace_length segments). simpl in Heq. lia.
  - apply brace_segment_variable.
  - apply brace_segment_literal.
  - reflexivity.
  - reflexivity.
Qed.

(** ** Scripts and events *)

(** The characters of a string partition its text. *)
Lemma join_cons_char c ch rest :
  Str.join "" (String c ch :: rest) = String c (Str.join "" (ch :: rest)).
Proof. destruct rest; [done|]. reflexivity. Qed.

Lemma chars_join s : Str.join "" (Str.chars s) = s.
Proof.
  induction s as [|c s IH]; [done|]. simpl.
  destruct (Str.starts_with_continuation s).
  - destruct (Str.chars s) as [|ch rest]; [by rewrite <- IH|].
    by rewrite join_cons_char, IH.
  - destruct (Str.chars s) as [|ch rest]; [by rewrite <- IH|].
    change (String c (Str.join "" (ch :: rest)) = String c s). by rewrite IH.
Qed.

Lemma chars_nonempty s : Forall (λ ch, ch ≠ EmptyString) (Str.chars s).
Proof.
  induction s as [|c s IH]; simpl; [constructor|].
  destruct (Str.starts_with_continuation s).
  - destruct IH as [|ch rest Hch Hrest]; by repeat constructor.
  - by constructor.
Qed.

Lemma join_is_empty l :
  Forall (λ ch, ch ≠ EmptyString) l → Str.join "" l = EmptyString → l = [].
Proof.
  intros [|ch rest Hch _]; [done|].
  destruct ch as [|c ch]; [done|]. by rewrite join_cons_char.
Qed.

Lemma dropWhile_split {A} (p : A → bool) l :
  ∃ pre, l = pre ++ Str.dropWhile p l ∧ Forall (λ x, p x = true) pre.
Proof.
  induction l as [|x l (pre & Hl & Hpre)]; simpl; [by exists []|].
  destruct (p x) eqn:Hx; [|by exists []].
  exists (x :: pre). split; [by rewrite <- app_comm_cons, <- Hl|by constructor].
Qed.

Lemma dropWhile_nil {A} (p : A → bool) l :
  Str.dropWhile p l = [] ↔ Forall (λ x, p x = true) l.
Proof.
  induction l as [|x l IH]; simpl; [by split; [constructor|]|].
  destruct (p x) eqn:Hx.
  - rewrite IH. split; [by constructor|by intros [_ ?]%Forall_cons].
  - split; [done|]. intros [? _]%Forall_cons. congruence.
Qed.

Lemma dropWhileEnd_nil {A} (p : A → bool) l :
  Str.dropWhileEnd p l = [] ↔ Forall (λ x, p x = true) l.
Proof.
  unfold Str.dropWhileEnd.
  rewrite <- (Forall_reverse _ l), <- dropWhile_nil. split; [|by intros ->].
  intros Hrev. apply (f_equal reverse) in Hrev. by rewrite reverse_involutive in Hrev.
Qed.

Lemma dropWhileEnd_nonempty (p : string → bool) l :
  Forall (λ ch, ch ≠ EmptyString) l → Forall (λ ch, ch ≠ EmptyString) (Str.dropWhileEnd p l).
Proof.
  intros Hne. unfold Str.dropWhileEnd. apply Forall_reverse.
  destruct (dropWhile_split p (reverse l)) as (pre & Hsplit & _).
  apply Forall_reverse in Hne. rewrite Hsplit in Hne.
  by apply Forall_app in Hne as [_ ?].
Qed.

(** Trimming leaves nothing exactly when every character is white space. *)
Lemma trim_empty s :
  Str.trim s = EmptyString ↔ Forall (λ ch, Str.is_white_space ch = true) (Str.chars s).
Proof.
  unfold Str.trim.
  destruct (dropWhile_split Str.is_white_space (Str.chars s)) as (pre & Hsplit & Hpre).
  pose proof (chars_nonempty s) as Hne.
  rewrite Hsplit at 2. rewrite Forall_app.
  rewrite <- (dropWhileEnd_nil _ (Str.dropWhile _ _)).
  split.
  - intros Hjoin. split; [done|]. apply join_is_empty; [|done].
    apply dropWhileEnd_nonempty.
    rewrite Hsplit in Hne. by apply Forall_app in Hne as [_ Hne].
  - intros [_ Hnil]. by rewrite Hnil.
Qed.

(** A line is non-blank after trimming exactly when one of its characters
    is not white space. *)
Lemma nonblank_spec line :
  nonblank line = true ↔
  ∃ ch, ch ∈ Str.chars line ∧ Str.is_white_space ch = false.
Proof.
  unfold nonblank. rewrite negb_true_iff.
  assert (Str.is_empty (Str.trim line) = false ↔ Str.trim line ≠ EmptyString) as ->.
  { by destruct (Str.trim line). }
  rewrite trim_empty. split.
  - intros Hnot. apply not_Forall_Exists in Hnot; [|intros x; apply _].
    apply Exists_exists in Hnot as (ch & Hin & Hch). exists ch. split; [done|].
    by apply not_true_is_false.
  - intros (ch & Hin & Hch) Hall. rewrite Forall_forall in Hall.
    specialize (Hall ch Hin). congruence.
Qed.


Lemma hasNonEmptyScript_lines e :
  hasNonEmptyScript e = true ↔
  ∃ s lines line, script e = Some s ∧ exec s = Some lines ∧
                  line ∈ lines ∧ nonblank line = true.
Proof.
  unfold hasNonEmptyScript. split.
  - destruct (script e) as [s|]; [|done].
    destruct (exec s) as [lines|] eqn:Hexec; [|done].
    intros [_ (line & Hin & Hnb)%existsb_exists]%andb_true_iff.
    exists s, lines, line. split; [done|]. split; [done|].
    split; [by apply list_elem_of_In|done].
  - intros (s & lines & line & -> & -> & Hin & Hsp).
    apply andb_true_iff. split.
    + destruct lines; [by apply elem_of_nil in Hin|]. apply Z.ltb_lt. simpl length. lia.
    + apply existsb_exists. exists line. split; [by apply list_elem_of_In|done].
Qed.



(** X20: hasNonEmptyScript holds exactly when the event has a script whose
    exec holds a line with a character that is not white space (so not
    without a script, without an exec, or with an empty exec); the
    characters of a line are a partition of its text, and white space is
    that of ECMAScript: a script of no-break spaces, em spaces and line
    separators is empty. *)
Lemma hasNonEmptyScript_spec e :
  (hasNonEmptyScript e = true ↔
   ∃ s lines line ch, script e = Some s ∧ exec s = Some lines ∧ line ∈ lines ∧
                      ch ∈ Str.chars line ∧ Str.is_white_space ch = false) ∧
  (∀ line, Str.join "" (Str.chars line) = line) ∧
  hasNonEmptyScript unicode_blank_test = false.
Proof.
  split_and!.
  - rewrite hasNonEmptyScript_lines. split.
    + intros (s & lines & line & Hs & He & Hin & (ch & Hch & Hw)%nonblank_spec).
      by exists s, lines, line, ch.
    + intros (s & lines & line & ch & Hs & He & Hin & Hch & Hw).
      exists s, lines, line. split_and!; try done. apply nonblank_spec. by exists ch.
  - apply chars_join.
  - by vm_compute.
Qed.

Lemma findIndex_range {A} (p : A → bool) l :
  -1 ≤ findIndex p l < Z.of_nat (length l).
Proof.
  induction l as [|x xs IH]; simpl; [lia|].
  destruct (p x); [lia|].
  destruct (findIndex p xs =? -1) eqn:E; lia.
Qed.

Lemma findIndex_none {A} (p : A → bool) l :
  findIndex p l = -1 ↔ Forall (λ x, p x = false) l.
Proof.
  induction l as [|x xs IH]; simpl.
  - split; [constructor|done].
  - destruct (p x) eqn:Hp.
    + split; [lia|]. intros H. apply Forall_cons in H as [H _]. congruence.
    + pose proof (findIndex_range p xs).
      destruct (findIndex p xs =? -1) eqn:E.
      * apply Z.eqb_eq in E. split; [|done].
        intros _. constructor; [done|]. by apply IH.
      * apply Z.eqb_neq in E. split; [lia|].
        intros Hall. apply Forall_cons in Hall as [_ Hall]. apply IH in Hall. lia.
Qed.

Lemma findIndex_first {A} (p : A → bool) pre x post :
  Forall (λ y, p y = false) pre → p x = true →
  findIndex p (pre ++ x :: post) = Z.of_nat (length pre).
Proof.
  intros Hpre Hx. induction Hpre as [|y pre Hy _ IH]; simpl.
  - by rewrite Hx.
  - rewrite Hy, IH.
    destruct (Z.of_nat (length pre) =? -1) eqn:E; [apply Z.eqb_eq in E|]; lia.
Qed.


Lemma listen_differs e events :
  Forall (λ x, listen x ≠ listen e) events ↔
  Forall (λ x, String.eqb (listen x) (listen e) = false) events.
Proof. apply Forall_iff. intros x. by rewrite String.eqb_neq. Qed.

(** The four cases of one round of the loop. *)
Lemma mergeRequest_event_empty events e :
  hasNonEmptyScript e = false → mergeRequest_event events e = events.
Proof. unfold mergeRequest_event. by intros ->. Qed.

Lemma mergeRequest_event_append events e :
  hasNonEmptyScript e = true →
  Forall (λ x, listen x ≠ listen e) events →
  mergeRequest_event events e = events ++ [e].
Proof.
  intros He Hnone%listen_differs%findIndex_none.
  unfold mergeRequest_event. by rewrite He, Hnone.
Qed.

Lemma mergeRequest_event_at pre x post e :
  hasNonEmptyScript e = true →
  Forall (λ y, listen y ≠ listen e) pre → listen x = listen e →
  mergeRequest_event (pre ++ x :: post) e
  = if hasNonEmptyScript x then pre ++ x :: post else pre ++ e :: post.
Proof.
  intros He Hpre%listen_differs Hx%String.eqb_eq.
  unfold mergeRequest_event. rewrite He.
  rewrite (findIndex_first _ pre x post Hpre Hx).
  destruct (Z.of_nat (length pre) =? -1) eqn:E; [apply Z.eqb_eq in E; lia|].
  rewrite Nat2Z.id, list_lookup_middle by done.
  destruct (hasNonEmptyScript x); simpl; [done|].
  rewrite insert_app_r_alt by done. by rewrite Nat.sub_diag.
Qed.









(** ** Merging a request (C2) *)


(** ** Induction on the item tree *)

Lemma Item_tree_ind (P : Item → Prop) :
  (∀ name request event response, P (mkItem name None request event response)) →
  (∀ name children request event response,
     Forall P children → P (mkItem name (Some children) request event response)) →
  ∀ it, P it.
Proof.
  intros Hleaf Hfolder.
  fix IH 1. intros [name [children|] request event response].
  - apply Hfolder.
    refine ((fix go (l : list Item) : Forall P l :=
               match l with
               | [] => Forall_nil_2 P
               | x :: xs => Forall_cons_2 P x xs (IH x) (go xs)
               end) children).
  - apply Hleaf.
Qed.

(** ** What the reconciliation keeps of the tree *)

Lemma Forall2_map_eq {A B C} (f : B → C) (g : A → C) (R : A → B → Prop) l k :
  Forall2 R l k → Forall (λ x, ∀ y, R x y → f y = g x) l → map f k = map g l.
Proof.
  induction 1 as [|x y l k Hxy _ IH]; [done|].
  intros [Hx Hl]%Forall_cons. simpl. by rewrite (Hx y Hxy), IH.
Qed.

(** The leaf case of [mergeItems_item]: the three ways it ends. *)
Lemma mergeItems_leaf existingItemsMap parentPath name request event response :
  let newItem := mkItem name None request event response in
  let existing :=
    get_property existingItemsMap (generateItemKey newItem (item_path parentPath name)) in
  mergeItems_item existingItemsMap parentPath newItem
  = if finds_foreign existingItemsMap (generateItemKey newItem (item_path parentPath name))
    then None
    else match existing with
         | EntryObject entry => Some (mergeRequest newItem entry.1)
         | _ => Some newItem
         end.
Proof.
  intros newItem existing. unfold finds_foreign. fold existing. simpl. fold newItem existing.
  destruct existing as [|entry|it|s| |]; simpl; try done.
  - by destruct (i_item it).
  - by destruct (Str.is_empty s).
Qed.

Lemma mergeRequest_erase name request event response existingRequest :
  eraseLeafEvents (mergeRequest (mkItem name None request event response) existingRequest)
  = mkItem name None request None response.
Proof. unfold mergeRequest. by destruct (i_event existingRequest) as [[|??]|]. Qed.

(** The reconciliation changes nothing but the events of request leaves. *)
Lemma mergeItems_item_erase existingItemsMap it :
  ∀ parentPath merged,
    mergeItems_item existingItemsMap parentPath it = Some merged →
    eraseLeafEvents merged = eraseLeafEvents it.
Proof.
  induction it as [name request event response|name children request event response IH]
    using Item_tree_ind; intros parentPath merged.
  - rewrite mergeItems_leaf. cbv zeta.
    destruct (finds_foreign _ _); [done|].
    destruct (get_property _ _) as [|entry|?|?| |]; intros [= <-]; try done.
    apply mergeRequest_erase.
  - simpl.
    destruct (mapM _ children) as [mergedChildren|] eqn:Hmap; [|done].
    simpl. intros [= <-]. simpl. do 2 f_equal.
    apply mapM_Some_1 in Hmap.
    eapply Forall2_map_eq; [exact Hmap|].
    eapply Forall_impl; [exact IH|]. intros child Hchild y Hy. by eapply Hchild.
Qed.

Lemma mergeItems_erase newItems existingItemsMap parentPath mergedItems :
  mergeItems newItems existingItemsMap parentPath = Some mergedItems →
  map eraseLeafEvents mergedItems = map eraseLeafEvents newItems.
Proof.
  intros Hmap%mapM_Some_1.
  eapply Forall2_map_eq; [exact Hmap|].
  apply Forall_forall. intros it _ y Hy. by eapply mergeItems_item_erase.
Qed.

(** What depends on the tree without the events of its leaves is the same
    for two trees that differ in these events only. *)
Lemma map_through_erase {B} (f : Item → B) (l k : list Item) :
  (∀ it, f (eraseLeafEvents it) = f it) →
  map eraseLeafEvents k = map eraseLeafEvents l → map f k = map f l.
Proof.
  intros Hf Heq.
  rewrite <- (map_ext _ _ Hf k), <- (map_ext _ _ Hf l).
  by rewrite <- !(map_map eraseLeafEvents f), Heq.
Qed.

Lemma displayPaths_erase it :
  ∀ folders, displayPaths folders (eraseLeafEvents it) = displayPaths folders it.
Proof.
  induction it as [name request event response|name children request event response IH]
    using Item_tree_ind; intros folders; [done|].
  simpl. f_equal. rewrite map_map. apply map_ext_Forall.
  eapply Forall_impl; [exact IH|]. intros child Hchild. apply Hchild.
Qed.

(** The merge keeps the folder hierarchy and the names of the candidate:
    the display paths of the merged items are the candidate's. *)
Lemma mergeItems_displayPaths newItems existingItemsMap parentPath mergedItems :
  mergeItems newItems existingItemsMap parentPath = Some mergedItems →
  concat (map (displayPaths []) mergedItems) = concat (map (displayPaths []) newItems).
Proof.
  intros Hmerge%mergeItems_erase. f_equal.
  apply map_through_erase; [|done]. intros it. apply displayPaths_erase.
Qed.

(** ** The reconciliation report (C7) *)

Lemma string_app_assoc a b c : (a +:+ b) +:+ c = a +:+ b +:+ c.
Proof.
  induction a as [|x a IH]; [done|].
  rewrite !string_app_cons. by rewrite IH.
Qed.

Lemma string_app_nil_r s : s +:+ "" = s.
Proof.
  induction s as [|c s IH]; [done|].
  rewrite string_app_cons. by rewrite IH.
Qed.

Lemma folder_prefix_snoc folders name :
  folder_prefix (folders ++ [name]) = folder_prefix folders +:+ name +:+ "/".
Proof.
  induction folders as [|f fs IH]; simpl.
  - change ("" +:+ name +:+ "/") with (name +:+ "/").
    by rewrite <- string_app_assoc, string_app_nil_r.
  - by rewrite IH, !string_app_assoc.
Qed.

Lemma join_snoc folders name :
  Str.join "/" (folders ++ [name]) = folder_prefix folders +:+ name.
Proof.
  induction folders as [|f fs IH]; [done|].
  change ((f :: fs) ++ [name]) with (f :: (fs ++ [name])).
  destruct (fs ++ [name]) as [|y ys] eqn:E.
  - by destruct fs.
  - change (Str.join "/" (f :: y :: ys)) with (f +:+ "/" +:+ Str.join "/" (y :: ys)).
    rewrite IH. simpl. by rewrite !string_app_assoc.
Qed.

Lemma set_add_elem x y s : y ∈ set_add x s ↔ y ∈ s ∨ y = x.
Proof.
  unfold set_add. case_bool_decide as Hin.
  - split; [auto|]. by intros [?| ->].
  - rewrite elem_of_app, list_elem_of_singleton. done.
Qed.

Lemma set_add_NoDup x s : NoDup s → NoDup (set_add x s).
Proof.
  intros Hs. unfold set_add. case_bool_decide as Hin; [done|].
  apply NoDup_app. split; [done|]. split; [|apply NoDup_singleton].
  intros y Hy ->%list_elem_of_singleton. done.
Qed.

Lemma fold_collect_elem (f : list string → Item → list string)
    (paths : Item → list string) children :
  Forall (λ it, ∀ set x, x ∈ f set it ↔ x ∈ set ∨ x ∈ paths it) children →
  ∀ set x, x ∈ fold_left f children set ↔ x ∈ set ∨ x ∈ concat (map paths children).
Proof.
  induction 1 as [|it children Hit _ IH]; intros set x; simpl.
  - rewrite elem_of_nil. tauto.
  - rewrite IH, Hit, elem_of_app. tauto.
Qed.

Lemma collectEndpoints_item_elem it :
  ∀ folders set x,
    x ∈ collectEndpoints_item (folder_prefix folders) set it
    ↔ x ∈ set ∨ x ∈ displayPaths folders it.
Proof.
  induction it as [name request event response|name children request event response IH]
    using Item_tree_ind; intros folders set x.
  - simpl. rewrite set_add_elem, list_elem_of_singleton, join_snoc. done.
  - simpl. rewrite <- folder_prefix_snoc.
    apply (fold_collect_elem _ (displayPaths (folders ++ [name]))).
    eapply Forall_impl; [exact IH|]. intros it Hit. apply Hit.
Qed.

Lemma collectEndpoints_item_NoDup it :
  ∀ prefix set, NoDup set → NoDup (collectEndpoints_item prefix set it).
Proof.
  induction it as [name request event response|name children request event response IH]
    using Item_tree_ind; intros prefix set Hset; simpl.
  - by apply set_add_NoDup.
  - generalize (prefix +:+ name +:+ "/"). intros p. revert set Hset.
    induction IH as [|it children Hit _ IHc]; intros set Hset; simpl; [done|].
    apply IHc, Hit, Hset.
Qed.

(** [collectEndpoints] gathers the display paths of the leaves, each once. *)
Lemma collectEndpoints_spec items :
  NoDup (collectEndpoints items [] "") ∧
  ∀ x, x ∈ collectEndpoints items [] "" ↔ x ∈ concat (map (displayPaths []) items).
Proof.
  split.
  - unfold collectEndpoints. generalize (@NoDup_nil_2 string).
    generalize (@nil string) as set.
    induction items as [|it items IH]; intros set Hset; simpl; [done|].
    by apply IH, collectEndpoints_item_NoDup.
  - intros x. unfold collectEndpoints.
    rewrite (fold_collect_elem _ (displayPaths [])).
    + rewrite elem_of_nil. tauto.
    + apply Forall_forall. intros it _ set y.
      apply (collectEndpoints_item_elem it []).
Qed.

Lemma filter_disjoint (P Q : string → Prop) `{∀ x, Decision (P x)} `{∀ x, Decision (Q x)}
    (l k : list string) x :
  (∀ y, P y → Q y → False) → ¬ (x ∈ filter P l ∧ x ∈ filter Q k).
Proof. intros HPQ [[HP _]%list_elem_of_filter [HQ _]%list_elem_of_filter]. eauto. Qed.

(** C7: the diff is computed over the display paths of the leaves (folder
    names joined with '/', ending in the request's own name); added are the
    paths of the merged collection that the previous one lacks, removed
    those of the previous collection that the merged one lacks, preserved
    those in both; the three lists are pairwise disjoint and without
    repeats; a previous collection with endpoints A and B merged with a
    candidate with B and C gives added = [C], removed = [A],
    preserved = [B]. *)
Theorem C7_calculateDiff :
  (∀ existingCollection mergedCollection existingItems mergedItems,
     c_item existingCollection = Some existingItems →
     c_item mergedCollection = Some mergedItems →
     ∃ diff,
       calculateDiff existingCollection mergedCollection = Some diff ∧
       (∀ x, x ∈ added diff ↔
             x ∈ collectionPaths mergedCollection ∧ x ∉ collectionPaths existingCollection) ∧
       (∀ x, x ∈ removed diff ↔
             x ∈ collectionPaths existingCollection ∧ x ∉ collectionPaths mergedCollection) ∧
       (∀ x, x ∈ preserved diff ↔
             x ∈ collectionPaths mergedCollection ∧ x ∈ collectionPaths existingCollection) ∧
       (∀ x, ¬ (x ∈ added diff ∧ x ∈ removed diff)) ∧
       (∀ x, ¬ (x ∈ added diff ∧ x ∈ preserved diff)) ∧
       (∀ x, ¬ (x ∈ removed diff ∧ x ∈ preserved diff)) ∧
       NoDup (added diff) ∧ NoDup (removed diff) ∧ NoDup (preserved diff)) ∧
  c_item merged_BC = Some [endpoint "B" "b"; endpoint "C" "c"] ∧
  calculateDiff previous_AB merged_BC
  = Some {| added := ["C"]; removed := ["A"]; preserved := ["B"] |}.
Proof.
  split; [|split; vm_compute; reflexivity].
  intros existingCollection mergedCollection existingItems mergedItems He Hm.
  unfold calculateDiff, collectionPaths. rewrite He, Hm.
  destruct (collectEndpoints_spec existingItems) as [Hnd_e Hin_e].
  destruct (collectEndpoints_spec mergedItems) as [Hnd_m Hin_m].
  eexists. split; [reflexivity|]. simpl.
  split_and!.
  - intros x. rewrite list_elem_of_filter, Hin_e, Hin_m. tauto.
  - intros x. rewrite list_elem_of_filter, Hin_e, Hin_m. tauto.
  - intros x. rewrite list_elem_of_filter, Hin_e, Hin_m. tauto.
  - intros x [[Hx _]%list_elem_of_filter [_ Hy]%list_elem_of_filter]. done.
  - intros x. apply filter_disjoint. tauto.
  - intros x [[Hx _]%list_elem_of_filter [_ Hy]%list_elem_of_filter].
    by apply Hx.
  - by apply NoDup_filter.
  - by apply NoDup_filter.
  - by apply NoDup_filter.
Qed.

(** ** First run (C8) *)

(** C8: with no previous collection, merge returns the candidate as it is
    (and writes it, unless the run is a dry run). *)
Theorem C8_merge_without_previous (options : Options) (newCollection : Collection) :
  ∃ written,
    merge options (Parsed newCollection) Absent = Returned newCollection written ∧
    (∀ file, written = Some file → file.2 = newCollection) ∧
    (written = None ↔ dryRun options = true).
Proof.
  unfold merge. eexists. split; [reflexivity|].
  destruct (dryRun options); split.
  - by intros file.
  - done.
  - intros file [= <-]. done.
  - done.
Qed.

(** ** Collection-level scripts (C10) *)

Lemma find_listens_listen listenType events e :
  find (listens listenType) events = Some e → listen e = listenType.
Proof.
  induction events as [|x xs IH]; simpl; [done|].
  destruct (listens listenType x) eqn:Hx; [|done].
  intros [= <-]. by apply String.eqb_eq.
Qed.

Lemma find_listens_none listenType events :
  find (listens listenType) events = None ↔
  Forall (λ e, listen e ≠ listenType) events.
Proof.
  induction events as [|x xs IH]; simpl.
  - split; [constructor|done].
  - unfold listens at 1. destruct (String.eqb_spec (listen x) listenType) as [Heq|Hne].
    + split; [done|]. intros [Hx _]%Forall_cons. done.
    + rewrite IH. split; [by constructor|by intros [_ ?]%Forall_cons].
Qed.

Lemma find_listens_app listenType xs ys :
  find (listens listenType) (xs ++ ys)
  = match find (listens listenType) xs with
    | Some e => Some e
    | None => find (listens listenType) ys
    end.
Proof.
  induction xs as [|x xs IH]; simpl; [done|].
  by destruct (listens listenType x).
Qed.

Lemma carried_listen listenType previous candidate e :
  e ∈ carried listenType previous candidate →
  listen e = listenType ∧ find (listens listenType) candidate = None ∧
  find (listens listenType) previous = Some e.
Proof.
  unfold carried.
  destruct (find (listens listenType) previous) as [p|] eqn:Hp;
    [|by intros ?%elem_of_nil].
  destruct (find (listens listenType) candidate) eqn:Hc;
    [by intros ?%elem_of_nil|].
  intros ->%list_elem_of_singleton.
  split; [by eapply find_listens_listen|done].
Qed.

Lemma filter_listen_none listenType (events : list Event) :
  Forall (λ e, listen e ≠ listenType) events →
  filter (λ e, listen e = listenType) events = [].
Proof.
  induction 1 as [|x xs Hx _ IH]; [done|].
  by rewrite filter_cons_False.
Qed.

(** One collection-level block, in closed form. *)
Lemma preserveCollectionEvent_spec listenType existingEvent mergedEvent :
  let previous := match existingEvent with Some evs => evs | None => [] end in
  let events := match mergedEvent with Some evs => evs | None => [] end in
  match preserveCollectionEvent listenType existingEvent mergedEvent with
  | Some evs => evs
  | None => []
  end = events ++ carried listenType previous events.
Proof.
  unfold preserveCollectionEvent, carried.
  destruct existingEvent as [existingEvents|]; simpl; [|by rewrite app_nil_r].
  destruct (find (listens listenType) existingEvents); [|by rewrite app_nil_r].
  destruct mergedEvent as [evs|]; simpl; [|done].
  destruct (find (listens listenType) evs); [by rewrite app_nil_r|done].
Qed.

Lemma carried_test_after_prerequest previous candidate :
  carried "test" previous (candidate ++ carried "prerequest" previous candidate)
  = carried "test" previous candidate.
Proof.
  unfold carried at 1 3. rewrite find_listens_app.
  assert (find (listens "test") (carried "prerequest" previous candidate) = None) as ->.
  { apply find_listens_none, Forall_forall.
    intros e [He _]%carried_listen. by rewrite He. }
  by destruct (find (listens "test") candidate).
Qed.

(** The collection-level events of the merged collection, in closed form. *)
Lemma merge_root_events options newCollection existingCollection
    newInfo existingInfo newItems existingItems mergedItems :
  c_info newCollection = Some newInfo → c_info existingCollection = Some existingInfo →
  c_item newCollection = Some newItems → c_item existingCollection = Some existingItems →
  mergeItems newItems (buildItemsMap existingItems "" ∅) "" = Some mergedItems →
  preservePrerequest options = true → preserveTests options = true →
  ∃ merged written,
    merge options (Parsed newCollection) (Parsed existingCollection)
      = Returned merged written ∧
    root_events merged
    = root_events newCollection
      ++ carried "prerequest" (root_events existingCollection) (root_events newCollection)
      ++ carried "test" (root_events existingCollection) (root_events newCollection).
Proof.
  intros Hni Hei Hnt Het Hitems Hpre Htest.
  unfold merge. simpl. rewrite Hni, Hei, Hnt, Het, Hitems, Hpre, Htest.
  eexists _, _. split; [reflexivity|].
  unfold root_events at 1. simpl. unfold when.
  rewrite preserveCollectionEvent_spec, preserveCollectionEvent_spec.
  fold (root_events existingCollection) (root_events newCollection).
  by rewrite carried_test_after_prerequest, <- app_assoc.
Qed.

(** C10: at the collection root, with both toggles on, a run whose item
    merge goes through returns, and the merged event list is the
    candidate's list followed by the previous collection's first
    pre-request Event and first test Event, each only when the candidate
    has no Event of that listen type at all.  Every candidate Event keeps
    its place whatever its script, so a candidate Event with an empty script
    is never replaced; and the previous Event is appended whatever its own
    script. *)
Theorem C10_collection_level_events options newCollection existingCollection
    newInfo existingInfo newItems existingItems mergedItems :
  c_info newCollection = Some newInfo → c_info existingCollection = Some existingInfo →
  c_item newCollection = Some newItems → c_item existingCollection = Some existingItems →
  mergeItems newItems (buildItemsMap existingItems "" ∅) "" = Some mergedItems →
  preservePrerequest options = true → preserveTests options = true →
  ∃ merged written,
    merge options (Parsed newCollection) (Parsed existingCollection)
      = Returned merged written ∧
    let candidate := root_events newCollection in
    let previous := root_events existingCollection in
    root_events merged
      = candidate ++ carried "prerequest" previous candidate
                  ++ carried "test" previous candidate ∧
    (∀ i e, candidate !! i = Some e → root_events merged !! i = Some e) ∧
    (∀ listenType, listenType = "prerequest" ∨ listenType = "test" →
       (∀ e, find (listens listenType) candidate = Some e →
             filter (λ x, listen x = listenType) (root_events merged)
             = filter (λ x, listen x = listenType) candidate) ∧
       (∀ p, find (listens listenType) candidate = None →
             find (listens listenType) previous = Some p →
             filter (λ x, listen x = listenType) (root_events merged) = [p])).
Proof.
  intros Hni Hei Hnt Het Hitems Hpre Htest.
  destruct (merge_root_events options newCollection existingCollection
              newInfo existingInfo newItems existingItems mergedItems)
    as (merged & written & Hmerge & Hevents); try done.
  exists merged, written. split; [done|]. cbv zeta. rewrite Hevents.
  set (candidate := root_events newCollection).
  set (previous := root_events existingCollection).
  split; [done|]. split.
  { intros i e Hi. by apply lookup_app_l_Some. }
  assert (∀ a b, a ≠ b →
            filter (λ x : Event, listen x = a) (carried b previous candidate) = []) as Hother.
  { intros a b Hab. apply filter_listen_none, Forall_forall.
    intros e [He _]%carried_listen. congruence. }
  intros listenType Hlt. split.
  - intros e He. rewrite !filter_app.
    assert (carried listenType previous candidate = []) as Hnone.
    { unfold carried. rewrite He. by destruct (find (listens listenType) previous). }
    destruct Hlt as [-> | ->].
    + rewrite Hnone, (Hother "prerequest" "test") by done. by rewrite !app_nil_r.
    + rewrite Hnone, (Hother "test" "prerequest") by done. by rewrite !app_nil_r.
  - intros p Hnone Hp. rewrite !filter_app.
    rewrite (filter_listen_none listenType candidate)
      by by apply find_listens_none.
    pose proof (find_listens_listen _ _ _ Hp) as Hlp.
    destruct Hlt as [-> | ->].
    + rewrite (Hother "prerequest" "test") by done.
      unfold carried. rewrite Hp, Hnone. simpl.
      by rewrite filter_cons_True, filter_nil.
    + rewrite (Hother "test" "prerequest") by done.
      unfold carried. rewrite Hp, Hnone. simpl.
      by rewrite filter_cons_True, filter_nil.
Qed.

(** A candidate with a blank collection-level test script keeps it against
    a populated previous one, and receives the previous blank pre-request
    script. *)
Lemma C10_collection_level_events_witness :
  ∃ merged written,
    merge default_options (Parsed candidate_blank_test) (Parsed previous_scripted)
      = Returned merged written ∧
    root_events merged = [blank_test; blank_prerequest] ∧
    hasNonEmptyScript blank_test = false ∧
    hasNonEmptyScript status_test = true ∧
    hasNonEmptyScript blank_prerequest = false.
Proof.
  destruct (C10_collection_level_events default_options
              candidate_blank_test previous_scripted
              {| info_name := "Pets API"; _postman_id := Some "fresh-id"; info_rest := [] |}
              {| info_name := "Pets API"; _postman_id := Some "previous-id"; info_rest := [] |}
              [endpoint "B" "b"; endpoint "C" "c"]
              [endpoint "A" "a"; endpoint "B" "b"]
              [endpoint "B" "b"; endpoint "C" "c"]
              eq_refl eq_refl eq_refl eq_refl eq_refl eq_refl eq_refl)
    as (merged & written & Hmerge & Hevents & _).
  exists merged, written. split; [exact Hmerge|].
  split; [exact Hevents|]. repeat split.
Defined.

(** ** The store-level merge against the value-level merge *)

Ltac run_store :=
  unfold mbind, Shared.M_bind, Shared.bind, mret, Shared.M_ret, Shared.ret,
    Shared.readEvents, Shared.readVariables, Shared.pushEvent, Shared.pushVariable,
    Shared.ensureArray, Shared.alloc.

Lemma eventsAt_inv σ l pe :
  Shared.eventsAt σ (Some l) = Some pe →
  ∃ es, σ !! l = Some (Shared.Events es) ∧ pe = Some es.
Proof.
  unfold Shared.eventsAt. destruct (σ !! l) as [[es|vs]|]; [|done..].
  intros [= <-]. by exists es.
Qed.

Lemma variablesAt_inv σ l pv :
  Shared.variablesAt σ (Some l) = Some pv →
  ∃ vs, σ !! l = Some (Shared.Variables vs) ∧ pv = Some vs.
Proof.
  unfold Shared.variablesAt. destruct (σ !! l) as [[es|vs]|]; [done| |done].
  intros [= <-]. by exists vs.
Qed.

Lemma eventsAt_keeps σ σ' l pe :
  keeps_events σ σ' → Shared.eventsAt σ l = Some pe → Shared.eventsAt σ' l = Some pe.
Proof.
  intros Hk. destruct l as [l|]; [|done].
  intros (es & Hl & ->)%eventsAt_inv. unfold Shared.eventsAt. by rewrite (Hk _ _ Hl).
Qed.

Lemma variablesAt_keeps σ σ' l pv :
  keeps_variables σ σ' → Shared.variablesAt σ l = Some pv →
  Shared.variablesAt σ' l = Some pv.
Proof.
  intros Hk. destruct l as [l|]; [|done].
  intros (vs & Hl & ->)%variablesAt_inv. unfold Shared.variablesAt. by rewrite (Hk _ _ Hl).
Qed.

(** One collection-level block on the store computes what the value-level
    block computes, leaves the existing array as it is and touches no
    variable array. *)
Lemma preserveCollectionEvent_run listenType le lm σ pe pm :
  Shared.eventsAt σ le = Some pe → Shared.eventsAt σ lm = Some pm →
  ∃ lm' σ',
    Shared.preserveCollectionEvent listenType le lm σ = Some (lm', σ') ∧
    Shared.eventsAt σ' lm' = Some (preserveCollectionEvent listenType pe pm) ∧
    Shared.eventsAt σ' le = Some pe ∧
    keeps_variables σ σ' ∧
    (is_Some lm → lm' = lm).
Proof.
  intros Hle Hlm. unfold Shared.preserveCollectionEvent, preserveCollectionEvent.
  destruct le as [l|];
    [|injection Hle as <-; exists lm, σ; split_and!; [done..|by intros ??|done]].
  apply eventsAt_inv in Hle as (es & Hl & ->).
  run_store. rewrite Hl.
  destruct (find (listens listenType) es) as [p|] eqn:Hp;
    [|exists lm, σ; split_and!;
      [done|done|unfold Shared.eventsAt; by rewrite Hl|by intros ??|done]].
  destruct lm as [m|].
  - apply eventsAt_inv in Hlm as (ms & Hm & ->). run_store. rewrite Hm.
    destruct (find (listens listenType) ms) as [q|] eqn:Hq.
    + exists (Some m), σ.
      split_and!; [done| | |by intros ??|done]; unfold Shared.eventsAt;
        by rewrite ?Hl, ?Hm.
    + rewrite Hm.
      assert (m < length σ)%nat as Hlt by by eapply lookup_lt_Some.
      assert (l ≠ m) as Hne by (intros ->; congruence).
      eexists (Some m), _. split; [reflexivity|]. split_and!.
      * unfold Shared.eventsAt. by rewrite list_lookup_insert_eq.
      * unfold Shared.eventsAt. by rewrite list_lookup_insert_ne, Hl.
      * intros l' vs Hl'. rewrite list_lookup_insert_ne; [done|]. congruence.
      * done.
  - injection Hlm as <-. run_store.
    assert ((σ ++ [Shared.Events []]) !! length σ = Some (Shared.Events [])) as Hnew
      by by apply list_lookup_middle.
    rewrite Hnew. simpl. rewrite Hnew.
    assert (l < length σ)%nat as Hlt by by eapply lookup_lt_Some.
    eexists (Some (length σ)), _. split; [reflexivity|]. split_and!.
    + unfold Shared.eventsAt.
      rewrite list_lookup_insert_eq; [done|]. rewrite length_app. simpl. lia.
    + unfold Shared.eventsAt.
      rewrite list_lookup_insert_ne by lia. by rewrite lookup_app_l, Hl.
    + intros l' vs Hl'.
      assert (l' < length σ)%nat by by eapply lookup_lt_Some.
      rewrite list_lookup_insert_ne by lia. by rewrite lookup_app_l.
    + by intros [? [=]].
Qed.

Lemma forEach_push lm (newVarKeys : list string) existingVars :
  ∀ σ vs,
    σ !! lm = Some (Shared.Variables vs) →
    ∃ σ',
      Shared.forEach existingVars
        (λ variable,
           if bool_decide (key variable ∈ newVarKeys) then Shared.ret ()
           else Shared.pushVariable lm variable) σ = Some ((), σ') ∧
      σ' !! lm
      = Some (Shared.Variables
                (fold_left (λ acc variable,
                              if bool_decide (key variable ∈ newVarKeys) then acc
                              else acc ++ [variable])
                           existingVars vs)) ∧
      keeps_events σ σ'.
Proof.
  set (f := λ variable : Variable_,
              if bool_decide (key variable ∈ newVarKeys) then Shared.ret ()
              else Shared.pushVariable lm variable).
  induction existingVars as [|v existingVars IH]; intros σ vs Hlm; simpl.
  - exists σ. split_and!; [done|done|by intros ??].
  - unfold mbind, Shared.M_bind, Shared.bind. unfold f at 1.
    case_bool_decide as Hin.
    + destruct (IH σ vs Hlm) as (σ' & Hrun & Hres & Hkeep).
      exists σ'. unfold Shared.ret at 1. by rewrite Hrun.
    + unfold Shared.pushVariable at 1. rewrite Hlm.
      assert (lm < length σ)%nat as Hlt by by eapply lookup_lt_Some.
      destruct (IH (<[lm := Shared.Variables (vs ++ [v])]> σ) (vs ++ [v]))
        as (σ' & Hrun & Hres & Hkeep); [by rewrite list_lookup_insert_eq|].
      exists σ'. rewrite Hrun. split_and!; [done|done|].
      intros l es Hl. apply Hkeep.
      rewrite list_lookup_insert_ne; [done|]. congruence.
Qed.

(** The variables block on the store computes what the value-level block
    computes and touches no event array. *)
Lemma preserveCollectionVariables_run le ln lm σ pe pn pm :
  Shared.variablesAt σ le = Some pe → Shared.variablesAt σ ln = Some pn →
  Shared.variablesAt σ lm = Some pm →
  ∃ lm' σ',
    Shared.preserveCollectionVariables le ln lm σ = Some (lm', σ') ∧
    Shared.variablesAt σ' lm' = Some (preserveCollectionVariables pe pn pm) ∧
    keeps_events σ σ' ∧
    (is_Some lm → lm' = lm).
Proof.
  intros Hle Hln Hlm.
  unfold Shared.preserveCollectionVariables, preserveCollectionVariables.
  destruct le as [l|];
    [|injection Hle as <-; exists lm, σ; split_and!; [done..|by intros ??|done]].
  apply variablesAt_inv in Hle as (evs & Hl & ->).
  set (newVars := match pn with Some vs => vs | None => [] end).
  assert (match ln with
          | Some ln => Shared.readVariables ln
          | None => Shared.ret []
          end σ = Some (newVars, σ)) as Hread.
  { destruct ln as [n|].
    - apply variablesAt_inv in Hln as (nvs & Hn & ->).
      unfold Shared.readVariables. by rewrite Hn.
    - by injection Hln as <-. }
  unfold mbind, Shared.M_bind, Shared.bind.
  unfold Shared.readVariables at 1. rewrite Hl, Hread.
  destruct lm as [m|]; simpl.
  - apply variablesAt_inv in Hlm as (mvs & Hm & ->).
    destruct (forEach_push m (map key newVars) evs σ mvs Hm)
      as (σ' & Hrun & Hres & Hkeep).
    exists (Some m), σ'. rewrite Hrun.
    split_and!; [done| |done|done]. unfold Shared.variablesAt. by rewrite Hres.
  - injection Hlm as <-. unfold Shared.alloc.
    destruct (forEach_push (length σ) (map key newVars) evs
                (σ ++ [Shared.Variables []]) [])
      as (σ' & Hrun & Hres & Hkeep); [by apply list_lookup_middle|].
    exists (Some (length σ)), σ'. rewrite Hrun.
    split_and!; [done| | |by intros [? [=]]].
    + unfold Shared.variablesAt. by rewrite Hres.
    + intros l' es Hl'. apply Hkeep.
      assert (l' < length σ)%nat by by eapply lookup_lt_Some.
      by rewrite lookup_app_l.
Qed.

Lemma whenM_events_run (b : bool) listenType le lm σ pe pm :
  Shared.eventsAt σ le = Some pe → Shared.eventsAt σ lm = Some pm →
  ∃ lm' σ',
    Shared.whenM b (Shared.preserveCollectionEvent listenType le) lm σ = Some (lm', σ') ∧
    Shared.eventsAt σ' lm' = Some (when b (preserveCollectionEvent listenType pe) pm) ∧
    Shared.eventsAt σ' le = Some pe ∧
    keeps_variables σ σ' ∧
    (is_Some lm → lm' = lm).
Proof.
  intros Hle Hlm. destruct b; simpl.
  - by apply preserveCollectionEvent_run.
  - exists lm, σ. split_and!; [done..|by intros ??|done].
Qed.

(** The store-level run of the merge and the value-level [merge] agree: on
    two loaded collections the first returns an object that stands for the
    collection the second returns, and fails when the second fails.  The
    arrays the candidate declares are the arrays of the merged object: read
    after the run, the candidate has the events and the variables of the
    merged collection. *)
Theorem mergeLoaded_refines options σ newObject existingObject
    newCollection existingCollection :
  Shared.reify σ newObject = Some newCollection →
  Shared.reify σ existingObject = Some existingCollection →
  match merge options (Parsed newCollection) (Parsed existingCollection) with
  | Returned merged _ =>
      ∃ mergedObject σ',
        Shared.mergeLoaded options newObject existingObject σ = Some (mergedObject, σ') ∧
        Shared.reify σ' mergedObject = Some merged ∧
        (is_Some (Shared.o_event newObject) →
         Shared.eventsAt σ' (Shared.o_event newObject) = Some (c_event merged)) ∧
        (is_Some (Shared.o_variable newObject) →
         Shared.variablesAt σ' (Shared.o_variable newObject) = Some (c_variable merged))
  | Failed _ => Shared.mergeLoaded options newObject existingObject σ = None
  end.
Proof.
  unfold Shared.reify.
  destruct newObject as [ninfo nitem nev nvar nrest].
  destruct existingObject as [einfo eitem eev evar erest]. simpl.
  destruct (Shared.eventsAt σ nev) as [pne|] eqn:Hne; [|done].
  destruct (Shared.variablesAt σ nvar) as [pnv|] eqn:Hnv; [|done].
  destruct (Shared.eventsAt σ eev) as [pee|] eqn:Hee; [|done].
  destruct (Shared.variablesAt σ evar) as [pev|] eqn:Hev; [|done].
  intros [= <-] [= <-].
  unfold merge, Shared.mergeLoaded. simpl.
  destruct ninfo as [newInfo|]; [|done].
  destruct einfo as [existingInfo|]; [|done].
  destruct eitem as [existingItems|]; [|done].
  destruct nitem as [newItems|]; [|done].
  destruct (mergeItems newItems (buildItemsMap existingItems "" ∅) "")
    as [mergedItems|]; [|done].
  destruct (whenM_events_run (preservePrerequest options) "prerequest"
              eev nev σ pee pne Hee Hne) as (e1 & σ1 & Hrun1 & He1 & Hee1 & Hk1 & Hs1).
  destruct (whenM_events_run (preserveTests options) "test"
              eev e1 σ1 pee _ Hee1 He1) as (e2 & σ2 & Hrun2 & He2 & Hee2 & Hk2 & Hs2).
  assert (Shared.variablesAt σ2 evar = Some pev) as Hev2
    by eauto using variablesAt_keeps.
  assert (Shared.variablesAt σ2 nvar = Some pnv) as Hnv2
    by eauto using variablesAt_keeps.
  assert (∃ v3 σ3,
            Shared.whenM (preserveVariables options)
              (Shared.preserveCollectionVariables evar nvar) nvar σ2 = Some (v3, σ3) ∧
            Shared.variablesAt σ3 v3
            = Some (when (preserveVariables options)
                         (preserveCollectionVariables pev pnv) pnv) ∧
            keeps_events σ2 σ3 ∧
            (is_Some nvar → v3 = nvar)) as (v3 & σ3 & Hrun3 & Hv3 & Hk3 & Hs3).
  { destruct (preserveVariables options); simpl.
    - by apply preserveCollectionVariables_run.
    - exists nvar, σ2. split_and!; [done..|by intros ??|done]. }
  pose proof (eventsAt_keeps σ2 σ3 e2 _ Hk3 He2) as He3.
  eexists _, σ3. run_store. rewrite Hrun1, Hrun2, Hrun3.
  split; [reflexivity|]. simpl. rewrite He3, Hv3.
  split_and!; [done| |].
  - intros Hsome. rewrite <- He3. f_equal.
    rewrite (Hs2 ltac:(by rewrite (Hs1 Hsome))). by rewrite (Hs1 Hsome).
  - intros Hsome. rewrite <- Hv3. f_equal. by rewrite (Hs3 Hsome).
Qed.

(** ** The candidate's arrays (C3) *)

(** C3 fails on the code: [mergedCollection] shares the candidate's
    collection-level [event] and [variable] arrays, and the pushes of the
    collection-level blocks write into them.  On a candidate that declares
    a test script and the variable baseUrl, merged with a previous
    collection that declares a pre-request script and the variable token,
    the candidate itself ends with both scripts and both variables. *)
Theorem C3_candidate_arrays_mutated :
  ∃ merged σ candidate_before candidate_after,
    Shared.mergeLoaded default_options loaded_candidate loaded_previous loaded_store
      = Some (merged, σ) ∧
    Shared.reify loaded_store loaded_candidate = Some candidate_before ∧
    Shared.reify σ loaded_candidate = Some candidate_after ∧
    c_event candidate_before = Some [generated_test] ∧
    c_event candidate_after = Some [generated_test; auth_prerequest] ∧
    c_variable candidate_before = Some [base_url] ∧
    c_variable candidate_after = Some [base_url; token] ∧
    candidate_after ≠ candidate_before ∧
    Shared.o_event merged = Shared.o_event loaded_candidate ∧
    Shared.o_variable merged = Shared.o_variable loaded_candidate ∧
    Shared.reify σ loaded_previous = Shared.reify loaded_store loaded_previous.
Proof.
  eexists _, _, _, _.
  split; [vm_compute; reflexivity|].
  split; [vm_compute; reflexivity|].
  split; [vm_compute; reflexivity|].
  split_and!; try reflexivity.
  intros Heq. apply (f_equal c_event) in Heq. vm_compute in Heq. discriminate Heq.
Qed.

(** On that input the store-level run and the value-level [merge] return
    the same collection. *)
Example mergeLoaded_agrees_with_merge :
  ∃ merged σ candidate previous result written,
    Shared.mergeLoaded default_options loaded_candidate loaded_previous loaded_store
      = Some (merged, σ) ∧
    Shared.reify loaded_store loaded_candidate = Some candidate ∧
    Shared.reify loaded_store loaded_previous = Some previous ∧
    merge default_options (Parsed candidate) (Parsed previous) = Returned result written ∧
    Shared.reify σ merged = Some result.
Proof.
  eexists _, _, _, _, _, _.
  split; [vm_compute; reflexivity|].
  split; [vm_compute; reflexivity|].
  split; [vm_compute; reflexivity|].
  split; vm_compute; reflexivity.
Qed.

(** ** The priority chain of resolveValue (C5) *)

Lemma resolveValue_override h fieldName fieldSchema userValueMap endpointKey v :
  endpointOverride userValueMap endpointKey fieldName = Some v →
  resolveValue h fieldName fieldSchema userValueMap endpointKey = Some v.
Proof. unfold resolveValue. by intros ->. Qed.

Lemma resolveValue_fieldDefault h fieldName fieldSchema userValueMap endpointKey v :
  endpointOverride userValueMap endpointKey fieldName = None →
  fieldDefault userValueMap fieldName = Some v →
  resolveValue h fieldName fieldSchema userValueMap endpointKey = Some v.
Proof. unfold resolveValue. by intros -> ->. Qed.

Lemma resolveValue_builtin h fieldName fieldSchema userValueMap endpointKey :
  endpointOverride userValueMap endpointKey fieldName = None →
  fieldDefault userValueMap fieldName = None →
  resolveValue h fieldName fieldSchema userValueMap endpointKey
  = builtinValue h fieldName fieldSchema.
Proof. unfold resolveValue. by intros -> ->. Qed.

(** C5: an endpoint override outranks a field default, which outranks
    every built-in heuristic, whatever the schema and the tables; with
    fieldDefaults {name: 'Default'} and endpointOverrides {'POST:/pets':
    {name: 'Override'}}, resolving name yields 'Override' for the endpoint
    POST:/pets and 'Default' for any other endpoint, or none. *)
Theorem C5_resolveValue_priority :
  (∀ h fieldName fieldSchema userValueMap endpointKey v,
     endpointOverride userValueMap endpointKey fieldName = Some v →
     resolveValue h fieldName fieldSchema userValueMap endpointKey = Some v) ∧
  (∀ h fieldName fieldSchema userValueMap endpointKey v,
     endpointOverride userValueMap endpointKey fieldName = None →
     fieldDefault userValueMap fieldName = Some v →
     resolveValue h fieldName fieldSchema userValueMap endpointKey = Some v) ∧
  (∀ h fieldName fieldSchema userValueMap endpointKey,
     endpointOverride userValueMap endpointKey fieldName = None →
     fieldDefault userValueMap fieldName = None →
     resolveValue h fieldName fieldSchema userValueMap endpointKey
     = resolveValue h fieldName fieldSchema None None) ∧
  (∀ h fieldSchema,
     resolveValue h "name" fieldSchema (Some priority_map) (Some "POST:/pets")
     = Some (SStr "Override")) ∧
  (∀ h fieldSchema endpointKey,
     endpointKey ≠ Some "POST:/pets" →
     resolveValue h "name" fieldSchema (Some priority_map) endpointKey
     = Some (SStr "Default")).
Proof.
  split_and!.
  - apply resolveValue_override.
  - apply resolveValue_fieldDefault.
  - intros h fieldName fieldSchema userValueMap endpointKey Ho Hd.
    by rewrite resolveValue_builtin.
  - intros h fieldSchema. by apply resolveValue_override.
  - intros h fieldSchema endpointKey Hkey.
    apply resolveValue_fieldDefault; [|done].
    destruct endpointKey as [k|]; [|done]. simpl.
    rewrite lookup_singleton_ne; [done|]. congruence.
Qed.

(** ** The classifier *)

Lemma isRandomNumber_band h n :
  isRandomValue h (SNum n) = false ↔ min_reasonable h ≤ n ≤ max_reasonable h.
Proof. simpl. rewrite orb_false_iff, !Z.ltb_ge. lia. Qed.

(** Where the band of reasonable integers lies decides the numbers of the
    classifier boundary, and nothing else does: they are classified as the
    specification says exactly when the band ends between 100 and 78171233
    and starts between -50000000 and 25. *)
Lemma isRandomNumber_boundary h :
  (isRandomValue h (SNum 78171233) = true ∧ isRandomValue h (SNum (-50000000)) = true ∧
   isRandomValue h (SNum 25) = false ∧ isRandomValue h (SNum 100) = false)
  ↔ (100 ≤ max_reasonable h < 78171233 ∧ -50000000 < min_reasonable h ≤ 25).
Proof.
  rewrite !isRandomNumber_band. simpl.
  rewrite !orb_true_iff, !Z.ltb_lt. lia.
Qed.

(** ** Empty input (C9) *)

(** C9: sanitize returns a null collection as null, whatever the
    specification and the value map, and returns the empty collection [{}]
    as it is (for the empty specification [{}] as for any other). *)
Theorem C9_sanitize_empty_input :
  (∀ h specification userValueMap,
     sanitizeCollection h None specification userValueMap = None) ∧
  (∀ h userValueMap,
     sanitizeCollection h (Some empty_collection) (Some empty_specification) userValueMap
     = Some empty_collection) ∧
  (∀ h specification userValueMap,
     sanitizeCollection h (Some empty_collection) specification userValueMap
     = Some empty_collection).
Proof. by split_and!. Qed.

(** ** Clean data (C4) *)

Lemma JSON_tree_ind (P : JSON → Prop) :
  (∀ v, P (JLeaf v)) →
  (∀ elems, Forall P elems → P (JArr elems)) →
  (∀ fields, Forall (λ kv, P kv.2) fields → P (JObj fields)) →
  ∀ j, P j.
Proof.
  intros Hleaf Harr Hobj.
  fix IH 1. intros [v|elems|fields].
  - apply Hleaf.
  - apply Harr.
    refine ((fix go (l : list JSON) : Forall P l :=
               match l with
               | [] => Forall_nil_2 P
               | x :: xs => Forall_cons_2 P x xs (IH x) (go xs)
               end) elems).
  - apply Hobj.
    refine ((fix go (l : list (string * JSON)) : Forall (λ kv, P kv.2) l :=
               match l with
               | [] => Forall_nil_2 _
               | x :: xs => Forall_cons_2 (λ kv, P kv.2) x xs (IH x.2) (go xs)
               end) fields).
Qed.

Lemma map_id_on {A} (f : A → A) (l : list A) :
  Forall (λ x, f x = x) l → map f l = l.
Proof. induction 1 as [|x l Hx _ IH]; simpl; [done|]. by rewrite Hx, IH. Qed.

Lemma Forall_concat_map {A B} (P : B → Prop) (f : A → list B) (l : list A) :
  Forall P (concat (map f l)) ↔ Forall (λ x, Forall P (f x)) l.
Proof.
  induction l as [|x l IH]; simpl.
  - split; constructor.
  - rewrite Forall_app, Forall_cons, IH. done.
Qed.

Section Clean.

Variable h : Heuristics.
Variable schemaMap : list (string * list (string * FieldSchema)).
Variable userValueMap : option UserValueMap.

Abbreviation authentic := (Forall (λ v, isRandomValue h v = false)).

Lemma sanitizeValue_authentic endpointKey fieldName v :
  isRandomValue h v = false →
  sanitizeValue h schemaMap userValueMap endpointKey fieldName v = v.
Proof. unfold sanitizeValue. by intros ->. Qed.

Lemma sanitizeJson_authentic j :
  ∀ endpointKey fieldName,
    authentic (jsonLeaves j) →
    sanitizeJson h schemaMap userValueMap endpointKey fieldName j = j.
Proof.
  induction j as [v|elems IH|fields IH] using JSON_tree_ind;
    intros endpointKey fieldName Hj; simpl in *.
  - destruct fieldName as [f|]; [|done].
    apply Forall_cons in Hj as [Hv _]. by rewrite sanitizeValue_authentic.
  - f_equal. apply map_id_on.
    apply Forall_concat_map in Hj.
    rewrite Forall_forall in IH, Hj |- *. intros x Hx. by apply IH, Hj.
  - f_equal. apply map_id_on.
    apply (Forall_concat_map _ (λ kv, jsonLeaves kv.2)) in Hj.
    rewrite Forall_forall in IH, Hj |- *. intros [k x] Hx. simpl.
    f_equal. by apply (IH (k, x)), (Hj (k, x)).
Qed.

Lemma sanitizeBody_authentic endpointKey b :
  authentic (bodyLeaves b) →
  sanitizeBody h schemaMap userValueMap endpointKey <$> b = b.
Proof.
  destruct b as [[text|j]|]; simpl; [done| |done].
  intros Hj. by rewrite sanitizeJson_authentic.
Qed.

Lemma sanitizeRequest_authentic endpointKey rq :
  authentic (requestValues rq) →
  sanitizeRequest h schemaMap userValueMap endpointKey rq = rq.
Proof.
  destruct rq as [m u b]. unfold requestValues, sanitizeRequest. simpl.
  intros [Hb Hu]%Forall_app.
  rewrite sanitizeBody_authentic by done. f_equal.
  destruct u as [[s|[r p vars]]|]; simpl in *; [done| |done].
  do 3 f_equal. destruct vars as [vs|]; simpl in *; [|done].
  f_equal. apply map_id_on.
  rewrite Forall_map in Hu. eapply Forall_impl; [exact Hu|].
  intros [k v] Hv. unfold sanitizePathVariable. simpl in *.
  by rewrite sanitizeValue_authentic.
Qed.

Lemma sanitizeItem_authentic it :
  authentic (itemValues it) → sanitizeItem h schemaMap userValueMap it = it.
Proof.
  induction it as [name request event response|name children request event response IH]
    using Item_tree_ind; simpl.
  - intros [Hrq Hrs]%Forall_app. f_equal.
    + destruct request as [rq|]; simpl; [|done].
      by rewrite sanitizeRequest_authentic.
    + destruct response as [rs|]; simpl; [|done].
      f_equal. apply map_id_on.
      apply (Forall_concat_map _ (λ r, bodyLeaves (resp_body r))) in Hrs.
      eapply Forall_impl; [exact Hrs|].
      intros [n b] Hb. unfold sanitizeResponse. simpl in *.
      by rewrite sanitizeBody_authentic.
  - intros Hv. do 2 f_equal. apply map_id_on.
    apply Forall_concat_map in Hv.
    rewrite Forall_forall in IH, Hv |- *. intros x Hx. by apply IH, Hv.
Qed.

End Clean.

Lemma Forall2_map_both {A B C} (R : B → C → Prop) (g : A → B) (g' : A → C) l :
  Forall (λ x, R (g x) (g' x)) l → Forall2 R (map g l) (map g' l).
Proof. induction 1; simpl; by constructor. Qed.

Lemma Forall2_concat_map {A B C} (R : B → C → Prop)
    (g : A → list B) (g' : A → list C) l :
  Forall (λ x, Forall2 R (g x) (g' x)) l →
  Forall2 R (concat (map g l)) (concat (map g' l)).
Proof.
  induction 1 as [|x l Hx _ IH]; simpl; [constructor|]. by apply Forall2_app.
Qed.

Section Mixed.

Variable h : Heuristics.
Variable schemaMap : list (string * list (string * FieldSchema)).
Variable userValueMap : option UserValueMap.

Abbreviation kept := (Forall2 (keeps_authentic h)).

Lemma kept_refl vs : kept vs vs.
Proof. induction vs; constructor; [by intros _|done]. Qed.

Lemma sanitizeValue_keeps endpointKey fieldName v :
  keeps_authentic h v (sanitizeValue h schemaMap userValueMap endpointKey fieldName v).
Proof. intros Hv. by apply sanitizeValue_authentic. Qed.

Lemma sanitizeJson_keeps j :
  ∀ endpointKey fieldName,
    kept (jsonLeaves j)
         (jsonLeaves (sanitizeJson h schemaMap userValueMap endpointKey fieldName j)).
Proof.
  induction j as [v|elems IH|fields IH] using JSON_tree_ind;
    intros endpointKey fieldName; simpl.
  - destruct fieldName as [f|]; simpl; [|apply kept_refl].
    constructor; [apply sanitizeValue_keeps|constructor].
  - rewrite map_map. apply Forall2_concat_map.
    eapply Forall_impl; [exact IH|]. intros x Hx. apply Hx.
  - rewrite map_map. apply Forall2_concat_map.
    eapply Forall_impl; [exact IH|]. intros [k x] Hx. apply Hx.
Qed.

Lemma sanitizeBody_keeps endpointKey b :
  kept (bodyLeaves b)
       (bodyLeaves (sanitizeBody h schemaMap userValueMap endpointKey <$> b)).
Proof.
  destruct b as [[text|j]|]; simpl; [constructor| |constructor].
  apply sanitizeJson_keeps.
Qed.

Lemma sanitizeRequest_keeps endpointKey rq :
  kept (requestValues rq)
       (requestValues (sanitizeRequest h schemaMap userValueMap endpointKey rq)).
Proof.
  destruct rq as [m u b]. unfold requestValues, sanitizeRequest. simpl.
  apply Forall2_app; [apply sanitizeBody_keeps|].
  destruct u as [[s|[r p vars]]|]; simpl; [constructor| |constructor].
  destruct vars as [vs|]; simpl; [|constructor].
  rewrite map_map. apply Forall2_map_both, Forall_forall.
  intros pv _. apply sanitizeValue_keeps.
Qed.

Lemma sanitizeItem_keeps it :
  kept (itemValues it) (itemValues (sanitizeItem h schemaMap userValueMap it)).
Proof.
  induction it as [name request event response|name children request event response IH]
    using Item_tree_ind; simpl.
  - apply Forall2_app.
    + destruct request as [rq|]; simpl; [apply sanitizeRequest_keeps|constructor].
    + destruct response as [rs|]; simpl; [|constructor].
      rewrite map_map. apply Forall2_concat_map, Forall_forall.
      intros r _. destruct r as [n b]. apply sanitizeBody_keeps.
  - rewrite map_map. by apply Forall2_concat_map.
Qed.

End Mixed.

(** C4: sanitize never replaces a value that isRandomValue does not flag:
    the values of the result stand where the values of the input stood,
    and each authentic one is unchanged, whatever the specification and
    the value map offer for it.  So on a collection whose request and
    response bodies and path-variable values hold only values that
    isRandomValue does not flag, sanitize returns the collection unchanged,
    and so does any number of further runs. *)
Theorem C4_sanitize_clean_identity h specification userValueMap :
  (∀ c c',
     sanitizeCollection h (Some c) specification userValueMap = Some c' →
     Forall2 (keeps_authentic h) (collectionValues c) (collectionValues c')) ∧
  (∀ c,
     Forall (λ v, isRandomValue h v = false) (collectionValues c) →
     sanitizeCollection h (Some c) specification userValueMap = Some c ∧
     ∀ n, Nat.iter n (λ x, sanitizeCollection h x specification userValueMap) (Some c)
          = Some c).
Proof.
  split.
  - intros c c' [= <-]. unfold collectionValues. simpl.
    destruct (c_item c) as [items|]; simpl; [|constructor].
    rewrite map_map. apply Forall2_concat_map, Forall_forall.
    intros it _. apply sanitizeItem_keeps.
  - intros c Hclean.
    assert (sanitizeCollection h (Some c) specification userValueMap = Some c) as Hone.
    { destruct c as [info items event variable rest].
      unfold sanitizeCollection, collectionValues in *. simpl in *.
      do 2 f_equal. destruct items as [items|]; simpl; [|done].
      f_equal. apply map_id_on.
      apply Forall_concat_map in Hclean.
      eapply Forall_impl; [exact Hclean|].
      intros it Hit. by apply sanitizeItem_authentic. }
    split; [done|].
    induction n as [|n IH]; simpl; [done|]. by rewrite IH.
Qed.

(** The request Create Pet with the body [{name: 'Buddy', species:
    'dog', age: 3}] is left as it is, although the value map and the
    schema both have a value for [name]. *)
Lemma C4_sanitize_clean_identity_witness :
  sanitizeCollection sample_heuristics (Some clean_collection) (Some pet_schemas)
                     (Some priority_map)
  = Some clean_collection ∧
  ∀ n, Nat.iter n (λ x, sanitizeCollection sample_heuristics x (Some pet_schemas)
                                           (Some priority_map))
                (Some clean_collection)
       = Some clean_collection.
Proof.
  apply (C4_sanitize_clean_identity sample_heuristics (Some pet_schemas)
                                    (Some priority_map)).
  repeat constructor.
Defined.

(** ** The scenarios of the specification and of the module's tests *)

(** Merge script preservation: a candidate without events receives the
    previous test script as it is. *)
Example mergeRequest_preserves_script :
  mergeRequest (list_pets None) (list_pets (Some [status_test]))
  = list_pets (Some [status_test]).
Proof. reflexivity. Qed.

(** Merge non-destructiveness: a populated candidate script is kept, a
    blank one is replaced, a blank previous one is not copied. *)
Example mergeRequest_candidate_wins :
  mergeRequest (list_pets (Some [generated_test])) (list_pets (Some [status_test]))
  = list_pets (Some [generated_test]) ∧
  mergeRequest (list_pets (Some [blank_test])) (list_pets (Some [status_test; auth_prerequest]))
  = list_pets (Some [status_test; auth_prerequest]) ∧
  mergeRequest (list_pets (Some [generated_test])) (list_pets (Some [blank_prerequest]))
  = list_pets (Some [generated_test]).
Proof. by split_and!. Qed.

(** The identifier of the previous collection is kept. *)
Example merge_keeps_previous_id :
  c_info merged_BC
  = Some {| info_name := "Pets API"; _postman_id := Some "previous-id"; info_rest := [] |}.
Proof. reflexivity. Qed.

(** The expectations of the tests of [isRandomValue]. *)
Example isRandomValue_tests :
  Forall (λ v, isRandomValue sample_heuristics v = true)
    [SStr "ut labore sint tempor"; SStr "Duis nulla"; SStr "aliquip";
     SStr "lorem ipsum dolor sit amet";
     SStr "xhWusLJP6pS@dtZnVkyxTktuLkmofguN.jrxq"; SStr "9ZcGNifob9M@uyoD.ugb";
     SStr "1959-10-25T17:44:56.486Z"; SStr "1966-07-04T19:09:56.846Z";
     SStr "1987-08-24T13:51:37.821Z";
     SStr "urn:uuid:36a23258-2561-a45b-0feb-223506c7ee66";
     SNum 78171233; SNum (-50000000)] ∧
  Forall (λ v, isRandomValue sample_heuristics v = false)
    [SStr "Buddy"; SStr "dog"; SNum 3; SNum 25; SStr "user@example.com";
     SStr "2025-01-15T10:30:00.000Z"; SStr "550e8400-e29b-41d4-a716-446655440000";
     SBool true; SNum 100].
Proof. split; repeat constructor. Qed.

(** The expectations of the tests of [resolveValue]. *)
Example resolveValue_tests :
  let resolve := resolveValue sample_heuristics in
  let no_schema := schema_with None None None None None None in
  resolve "contact" (schema_with (Some "string") (Some "email") None None None None) None None
    = Some (SStr "user@example.com") ∧
  resolve "timestamp" (schema_with (Some "string") (Some "date-time") None None None None)
          None None
    = Some (SStr "2025-01-15T10:30:00.000Z") ∧
  resolve "email" no_schema None None = Some (SStr "user@example.com") ∧
  resolve "age" no_schema None None = Some (SNum 25) ∧
  resolve "firstName" no_schema None None = Some (SStr "John") ∧
  resolve "CITY" no_schema None None = Some (SStr "Springfield") ∧
  resolve "petName" no_schema None None = Some (SStr "John Doe") ∧
  resolve "userEmail" no_schema None None = Some (SStr "user@example.com") ∧
  resolve "name" (schema_with None None (Some (SStr "Buddy")) None None None) None None
    = Some (SStr "Buddy") ∧
  resolve "status" (schema_with None None None
                      (Some [SStr "available"; SStr "pending"; SStr "sold"]) None None)
          None None
    = Some (SStr "available") ∧
  resolve "unknownField" (schema_with (Some "integer") None None None (Some 0) (Some 100))
          None None
    = Some (SNum 1) ∧
  resolve "unknownField" (schema_with (Some "boolean") None None None None None) None None
    = Some (SBool true) ∧
  resolve "unknownField" no_schema None None = None.
Proof. by split_and!. Qed.

(** The expectations of the end-to-end tests: the value map applies, and a
    bound path variable loses its urn:uuid placeholder. *)
Example sanitizeItem_tests :
  sanitizeItem sample_heuristics (buildSchemaMap (Some pet_schemas)) (Some custom_map)
               create_pet_generated
  = request_item "Create Pet" "POST" ["pets"] None
      (Some (Json (JObj [("name", JLeaf (SStr "Custom Pet")); ("age", JLeaf (SNum 5))])))
      None None ∧
  sanitizeItem sample_heuristics (buildSchemaMap (Some pet_schemas)) None get_pet_bound
  = request_item "Get Pet" "GET" ["pets"; ":petId"]
      (Some [{| pv_key := "petId";
                pv_value := SStr "550e8400-e29b-41d4-a716-446655440000" |}])
      None None None ∧
  buildEndpointKey create_pet_generated = Some "POST:/pets".
Proof. split_and!; vm_compute; reflexivity. Qed.

(** * Further properties of the code *)

(** ** The index of the previous collection *)

(** Read through [entry_at], the lookup object is a map from keys to
    entries and an assignment is an insertion. *)
Lemma entry_at_empty k : entry_at ∅ k = None.
Proof. unfold entry_at. by destruct (String.eqb k "__proto__"). Qed.

Lemma entry_at_set_eq k e map : entry_at (set_property k e map) k = Some e.
Proof.
  unfold entry_at, set_property.
  destruct (String.eqb k "__proto__"); simpl; [done|]. by rewrite lookup_insert_eq.
Qed.

Lemma entry_at_set_ne k' k e map :
  k' ≠ k → entry_at (set_property k' e map) k = entry_at map k.
Proof.
  intros Hne. unfold entry_at, set_property.
  destruct (String.eqb_spec k' "__proto__") as [->|Hk'];
    destruct (String.eqb_spec k "__proto__") as [->|Hk]; simpl; try done.
  by rewrite lookup_insert_ne.
Qed.

(** A read answers with an entry exactly where there is one. *)
Lemma get_property_entry map k e :
  get_property map k = EntryObject e ↔ entry_at map k = Some e.
Proof.
  unfold get_property, entry_at.
  destruct (String.eqb k "__proto__").
  - destruct (proto map); split; congruence.
  - destruct (own map !! k) as [e'|]; [split; congruence|].
    split; [|done]. unfold inherited.
    destruct (proto map) as [[it p]|]; repeat case_match; done.
Qed.

Lemma buildItemsMap_item_entries it :
  ∀ parentPath map,
    buildItemsMap_item parentPath map it
    = fold_left (λ m e, set_property e.1 e.2 m) (leafEntries parentPath it) map.
Proof.
  induction it as [name request event response|name children request event response IH]
    using Item_tree_ind; intros parentPath map; [done|].
  simpl. generalize (item_path parentPath name). intros p. revert map.
  induction IH as [|child children Hchild _ IHc]; intros map; simpl; [done|].
  by rewrite fold_left_app, <- Hchild, IHc.
Qed.

Lemma buildItemsMap_entries items parentPath map :
  buildItemsMap items parentPath map
  = fold_left (λ m e, set_property e.1 e.2 m) (treeEntries parentPath items) map.
Proof.
  unfold buildItemsMap, treeEntries. revert map.
  induction items as [|it items IH]; intros map; simpl; [done|].
  by rewrite fold_left_app, <- buildItemsMap_item_entries, IH.
Qed.

Lemma fold_set_miss entries map k :
  Forall (λ e, e.1 ≠ k) entries →
  entry_at (fold_left (λ m e, set_property e.1 e.2 m) entries map) k = entry_at map k.
Proof.
  revert map. induction entries as [|e entries IH]; intros map Hall; simpl; [done|].
  apply Forall_cons in Hall as [He Hall].
  by rewrite IH, entry_at_set_ne.
Qed.

Lemma fold_set_last pre post map k v :
  Forall (λ e, e.1 ≠ k) post →
  entry_at (fold_left (λ m e, set_property e.1 e.2 m) (pre ++ (k, v) :: post) map) k
  = Some v.
Proof.
  intros Hpost. rewrite fold_left_app. simpl.
  by rewrite fold_set_miss, entry_at_set_eq.
Qed.

Lemma fold_set_found entries map k v :
  entry_at (fold_left (λ m e, set_property e.1 e.2 m) entries map) k = Some v →
  (k, v) ∈ entries ∨ entry_at map k = Some v.
Proof.
  revert map. induction entries as [|[k' v'] entries IH]; intros map; simpl; [auto|].
  intros [Hin|Hmap]%IH; [left; by right|].
  destruct (decide (k' = k)) as [->|Hne].
  - rewrite entry_at_set_eq in Hmap. injection Hmap as ->. left. by left.
  - rewrite entry_at_set_ne in Hmap by done. auto.
Qed.

Lemma fold_set_hit entries index k :
  k ∈ map fst entries →
  is_Some (entry_at (fold_left (λ m e, set_property e.1 e.2 m) entries index) k).
Proof.
  revert index. induction entries as [|[k' v'] rest IH]; intros m; simpl.
  - by intros ?%elem_of_nil.
  - intros [->|Hin]%elem_of_cons.
    + destruct (decide (k' ∈ map fst rest)) as [Hlater|Hlast]; [by apply IH|].
      rewrite fold_set_miss, entry_at_set_eq; [done|].
      apply Forall_forall. intros e He Heq. apply Hlast.
      rewrite <- Heq. apply list_elem_of_In, in_map. by apply list_elem_of_In.
    + by apply IH.
Qed.

Lemma leafEntries_sound it :
  ∀ parentPath k leaf leafPath,
    (k, (leaf, leafPath)) ∈ leafEntries parentPath it →
    i_item leaf = None ∧ k = generateItemKey leaf leafPath.
Proof.
  induction it as [name request event response|name children request event response IH]
    using Item_tree_ind; intros parentPath k leaf leafPath; simpl.
  - by intros [= -> -> ->]%list_elem_of_singleton.
  - generalize (item_path parentPath name). intros p.
    induction IH as [|child children Hchild _ IHc]; simpl.
    + by intros ?%elem_of_nil.
    + intros [Hin|Hin]%elem_of_app; [by eapply Hchild|by apply IHc].
Qed.

Lemma treeEntries_sound items parentPath k leaf leafPath :
  (k, (leaf, leafPath)) ∈ treeEntries parentPath items →
  i_item leaf = None ∧ generateItemKey leaf leafPath = k.
Proof.
  unfold treeEntries.
  induction items as [|it items IH]; simpl; [by intros ?%elem_of_nil|].
  intros [Hin|Hin]%elem_of_app; [|by apply IH].
  by apply leafEntries_sound in Hin as [? ->].
Qed.

(** The entries of the index are leaves of the collection it is built
    from. *)
Lemma buildItemsMap_entry_at items k leaf leafPath :
  entry_at (buildItemsMap items "" ∅) k = Some (leaf, leafPath) →
  (k, (leaf, leafPath)) ∈ treeEntries "" items.
Proof.
  rewrite buildItemsMap_entries.
  intros [Hin|Hempty]%fold_set_found; [done|]. by rewrite entry_at_empty in Hempty.
Qed.

(** What a read finds under a key that stands for no entry has no [item]. *)
Lemma buildItemsMap_no_item items k :
  entry_at (buildItemsMap items "" ∅) k = None →
  item_of (get_property (buildItemsMap items "" ∅) k) = NoItem.
Proof.
  intros Hnone. unfold get_property.
  pose proof Hnone as Hk. unfold entry_at in Hk.
  destruct (String.eqb k "__proto__"); [by rewrite Hk|]. rewrite Hk.
  destruct (proto (buildItemsMap items "" ∅)) as [[it p]|] eqn:Hproto;
    [|unfold inherited; by case_bool_decide].
  destruct (String.eqb k "item").
  - assert (entry_at (buildItemsMap items "" ∅) "__proto__" = Some (it, p)) as Hentry
      by done.
    apply buildItemsMap_entry_at, treeEntries_sound in Hentry as [Hleaf _].
    simpl. by rewrite Hleaf.
  - destruct (String.eqb k "path"); [done|]. unfold inherited. by case_bool_decide.
Qed.

(** A key that some leaf generates stands for an entry. *)
Lemma buildItemsMap_hit items k :
  k ∈ map fst (treeEntries "" items) →
  ∃ entry, get_property (buildItemsMap items "" ∅) k = EntryObject entry.
Proof.
  intros Hin. rewrite buildItemsMap_entries.
  destruct (fold_set_hit (treeEntries "" items) ∅ k Hin) as [entry Hentry].
  exists entry. by apply get_property_entry.
Qed.

(** X1: a read of the index built from the previous collection answers
    with an entry only for a request leaf of that collection whose
    generated key it is; it answers with an entry exactly for the keys that
    some leaf generates (the key [__proto__] included, whose entry is the
    prototype of the object), and when several leaves generate the same key
    the last one in traversal order is the entry.  Under any other key the
    read finds nothing that has an [item]: under the name of a method of
    [Object.prototype] it finds that method, and nothing at all under a key
    that is not such a name when no leaf generates [__proto__]. *)
Theorem buildItemsMap_lookup (items : list Item) :
  let index := buildItemsMap items "" ∅ in
  let entries := treeEntries "" items in
  (∀ k leaf leafPath,
     get_property index k = EntryObject (leaf, leafPath) →
     (k, (leaf, leafPath)) ∈ entries ∧ i_item leaf = None ∧
     generateItemKey leaf leafPath = k) ∧
  (∀ k, (∃ entry, get_property index k = EntryObject entry) ↔ k ∈ map fst entries) ∧
  (∀ pre post k v,
     entries = pre ++ (k, v) :: post → Forall (λ e, e.1 ≠ k) post →
     get_property index k = EntryObject v) ∧
  (∀ k, k ∉ map fst entries → item_of (get_property index k) = NoItem) ∧
  (∀ k, k ∉ map fst entries → k ∈ Object_prototype →
        get_property index k = FunctionObject) ∧
  (∀ k, k ∉ map fst entries → "__proto__" ∉ map fst entries →
        get_property index k
        = if String.eqb k "__proto__" then PrototypeObject else inherited k).
Proof.
  intros index entries.
  assert (∀ k, k ∉ map fst entries → entry_at index k = None) as Hmiss.
  { intros k Hk. subst index. rewrite buildItemsMap_entries. fold entries.
    rewrite fold_set_miss; [apply entry_at_empty|].
    apply Forall_forall. intros e He Heq. apply Hk. subst k.
    apply list_elem_of_In, in_map. by apply list_elem_of_In. }
  split_and!.
  - intros k leaf leafPath Hin%get_property_entry%buildItemsMap_entry_at.
    split; [done|]. by eapply treeEntries_sound.
  - intros k. split.
    + intros [[leaf leafPath] Hin%get_property_entry%buildItemsMap_entry_at].
      apply list_elem_of_In, in_map_iff. exists (k, (leaf, leafPath)).
      split; [done|]. by apply list_elem_of_In.
    + apply buildItemsMap_hit.
  - intros pre post k v Hentries Hpost. apply get_property_entry.
    subst index. rewrite buildItemsMap_entries. fold entries. rewrite Hentries.
    by apply fold_set_last.
  - intros k Hk. by apply buildItemsMap_no_item, Hmiss.
  - intros k Hk Hmethod. unfold get_property.
    pose proof (Hmiss k Hk) as Hnone. unfold entry_at in Hnone.
    assert (String.eqb k "__proto__" = false ∧ String.eqb k "item" = false ∧
            String.eqb k "path" = false) as (Hp & Hi & Hpa).
    { unfold Object_prototype in Hmethod.
      repeat (apply elem_of_cons in Hmethod as [->|Hmethod]; [done|]).
      by apply elem_of_nil in Hmethod. }
    rewrite Hp in Hnone |- *. rewrite Hnone, Hi, Hpa.
    unfold inherited. rewrite bool_decide_eq_true_2 by done.
    by destruct (proto index) as [[??]|].
  - intros k Hk Hproto. unfold get_property.
    pose proof (Hmiss k Hk) as Hnone. pose proof (Hmiss _ Hproto) as Hnoproto.
    unfold entry_at in Hnone, Hnoproto. simpl in Hnoproto.
    destruct (String.eqb k "__proto__"); [by rewrite Hnoproto|].
    by rewrite Hnone, Hnoproto.
Qed.

(** ** What the reconciliation keeps *)

Lemma Exists_concat_map {A B} (P : B → Prop) (f : A → list B) (l : list A) :
  Exists P (concat (map f l)) ↔ Exists (λ x, Exists P (f x)) l.
Proof.
  induction l as [|x l IH]; simpl.
  - by rewrite !Exists_nil.
  - by rewrite Exists_app, Exists_cons, IH.
Qed.

(** The reconciliation throws exactly when the lookup answers, for the key
    of some candidate leaf, with something that has no [item]. *)
Lemma mergeItems_item_throws existingItemsMap it :
  ∀ parentPath,
    mergeItems_item existingItemsMap parentPath it = None ↔
    Exists (λ e, finds_foreign existingItemsMap e.1 = true) (leafEntries parentPath it).
Proof.
  induction it as [name request event response|name children request event response IH]
    using Item_tree_ind; intros parentPath.
  - rewrite mergeItems_leaf. cbv zeta. simpl leafEntries.
    rewrite Exists_cons, Exists_nil. simpl.
    destruct (finds_foreign _ _); [tauto|].
    split; [|by intros [|[]]]. by destruct (get_property _ _).
  - simpl. rewrite Exists_concat_map.
    destruct (mapM _ children) as [mergedChildren|] eqn:Hmap; simpl.
    + split; [done|]. intros Hex.
      assert (mapM (mergeItems_item existingItemsMap (item_path parentPath name)) children
              = None) as Hnone; [|congruence].
      apply mapM_None. rewrite Exists_exists in Hex |- *.
      destruct Hex as (child & Hin & Hchild). exists child. split; [done|].
      rewrite Forall_forall in IH. by apply IH.
    + split; [|done]. intros _. apply mapM_None in Hmap.
      rewrite Exists_exists in Hmap |- *.
      destruct Hmap as (child & Hin & Hchild). exists child. split; [done|].
      rewrite Forall_forall in IH. by apply IH.
Qed.

Lemma mergeItems_throws newItems existingItemsMap parentPath :
  mergeItems newItems existingItemsMap parentPath = None ↔
  Exists (λ e, finds_foreign existingItemsMap e.1 = true) (treeEntries parentPath newItems).
Proof.
  unfold mergeItems, treeEntries. rewrite mapM_None, Exists_concat_map.
  rewrite !Exists_exists.
  split; intros (it & Hin & Hit); exists it; (split; [done|]);
    by apply mergeItems_item_throws.
Qed.

Lemma mergeItems_item_unmatched existingItemsMap it :
  ∀ parentPath,
    Forall (λ e, truthy (get_property existingItemsMap e.1) = false)
           (leafEntries parentPath it) →
    mergeItems_item existingItemsMap parentPath it = Some it.
Proof.
  induction it as [name request event response|name children request event response IH]
    using Item_tree_ind; intros parentPath; simpl.
  - intros [Hk _]%Forall_cons. simpl in Hk. by rewrite Hk.
  - intros Hall.
    apply (Forall_concat_map _ (leafEntries (item_path parentPath name))) in Hall.
    assert (mapM (mergeItems_item existingItemsMap (item_path parentPath name)) children
            = Some children) as ->; [|done].
    apply mapM_Some_2, Forall_Forall2_diag.
    rewrite Forall_forall in IH, Hall |- *. intros child Hchild.
    by apply IH, Hall.
Qed.

(** X2: candidate requests for whose keys the lookup finds nothing come
    out of the reconciliation as they went in. *)
Theorem mergeItems_unmatched (newItems : list Item)
    (existingItemsMap : ItemsMap) (parentPath : string) :
  Forall (λ e, truthy (get_property existingItemsMap e.1) = false)
         (treeEntries parentPath newItems) →
  mergeItems newItems existingItemsMap parentPath = Some newItems.
Proof.
  intros Hall. unfold mergeItems.
  apply (Forall_concat_map _ (leafEntries parentPath)) in Hall.
  apply mapM_Some_2, Forall_Forall2_diag.
  eapply Forall_impl; [exact Hall|]. intros it Hit.
  by apply mergeItems_item_unmatched.
Qed.

Lemma mergeItems_unmatched_witness :
  mergeItems [endpoint "B" "b"; endpoint "C" "c"] (buildItemsMap [endpoint "A" "a"] "" ∅) ""
  = Some [endpoint "B" "b"; endpoint "C" "c"].
Proof.
  apply (mergeItems_unmatched [endpoint "B" "b"; endpoint "C" "c"]
                              (buildItemsMap [endpoint "A" "a"] "" ∅) "").
  repeat constructor.
Defined.

(** X3: the reconciliation either throws, which it does exactly when the
    lookup answers for the key of a candidate leaf with something that has
    no [item], or returns a tree that differs from the candidate's in
    nothing but the event lists of request leaves: the folder hierarchy,
    the order, the names, every request definition (method, URL, body),
    every response example and the events of folders are the candidate's,
    whatever the previous collection holds. *)
Theorem mergeItems_only_leaf_events (newItems : list Item)
    (existingItemsMap : ItemsMap) (parentPath : string) :
  (mergeItems newItems existingItemsMap parentPath = None ↔
   Exists (λ e, finds_foreign existingItemsMap e.1 = true)
          (treeEntries parentPath newItems)) ∧
  (∀ mergedItems,
     mergeItems newItems existingItemsMap parentPath = Some mergedItems →
     map eraseLeafEvents mergedItems = map eraseLeafEvents newItems ∧
     length mergedItems = length newItems).
Proof.
  split; [apply mergeItems_throws|].
  intros mergedItems Hmerge. split; [by eapply mergeItems_erase|].
  symmetry. by eapply length_mapM.
Qed.

(** ** Running the request merge again *)

Lemma find_listens_first listenType pre x post :
  Forall (λ y, listen y ≠ listenType) pre → listen x = listenType →
  find (listens listenType) (pre ++ x :: post) = Some x.
Proof.
  intros Hpre%find_listens_none Hx. rewrite find_listens_app, Hpre. simpl.
  unfold listens. by rewrite Hx, String.eqb_refl.
Qed.

Lemma find_listens_split listenType events e :
  find (listens listenType) events = Some e →
  ∃ pre post, events = pre ++ e :: post ∧ Forall (λ y, listen y ≠ listenType) pre.
Proof.
  induction events as [|x xs IH]; simpl; [done|].
  unfold listens at 1. destruct (String.eqb_spec (listen x) listenType) as [Heq|Hne].
  - intros [= ->]. by exists [], xs.
  - intros (pre & post & -> & Hpre)%IH. exists (x :: pre), post.
    split; [done|]. by constructor.
Qed.

Lemma find_listens_swap listenType pre x e post :
  listen x = listen e → listen e ≠ listenType →
  find (listens listenType) (pre ++ e :: post)
  = find (listens listenType) (pre ++ x :: post).
Proof.
  intros Hx Hne. rewrite !find_listens_app. simpl. unfold listens at 2 5.
  rewrite Hx. by destruct (String.eqb_spec (listen e) listenType).
Qed.

(** A previous event whose listen type is settled changes nothing. *)
Lemma mergeRequest_event_settled events e :
  hasNonEmptyScript e = true → settled (listen e) events = true →
  mergeRequest_event events e = events.
Proof.
  intros He. unfold settled.
  destruct (find (listens (listen e)) events) as [x|] eqn:Hfind; [|done].
  intros Hx. pose proof (find_listens_listen _ _ _ Hfind) as Hlx.
  apply find_listens_split in Hfind as (pre & post & -> & Hpre).
  by rewrite mergeRequest_event_at, Hx.
Qed.

(** After its round the listen type of a populated previous event is
    settled, and a settled listen type stays settled. *)
Lemma mergeRequest_event_settles events e :
  hasNonEmptyScript e = true → settled (listen e) (mergeRequest_event events e) = true.
Proof.
  intros He. unfold settled.
  destruct (find (listens (listen e)) events) as [x|] eqn:Hfind.
  - pose proof (find_listens_listen _ _ _ Hfind) as Hlx.
    apply find_listens_split in Hfind as (pre & post & -> & Hpre).
    rewrite mergeRequest_event_at by done.
    destruct (hasNonEmptyScript x) eqn:Hx.
    + by rewrite find_listens_first, Hx.
    + by rewrite find_listens_first, He.
  - apply find_listens_none in Hfind.
    rewrite mergeRequest_event_append by done.
    by rewrite (find_listens_first (listen e) events e []), He.
Qed.

Lemma mergeRequest_event_stays_settled listenType events e :
  settled listenType events = true →
  settled listenType (mergeRequest_event events e) = true.
Proof.
  intros Hs.
  destruct (hasNonEmptyScript e) eqn:He; [|by rewrite mergeRequest_event_empty].
  destruct (find (listens (listen e)) events) as [x|] eqn:Hfind.
  - pose proof (find_listens_listen _ _ _ Hfind) as Hlx.
    apply find_listens_split in Hfind as (pre & post & -> & Hpre).
    rewrite mergeRequest_event_at by done.
    destruct (hasNonEmptyScript x) eqn:Hx; [done|].
    destruct (decide (listen e = listenType)) as [<-|Hne].
    + unfold settled in Hs. rewrite find_listens_first in Hs by done. congruence.
    + unfold settled in *. by rewrite (find_listens_swap listenType pre x e post).
  - apply find_listens_none in Hfind.
    rewrite mergeRequest_event_append by done.
    unfold settled in *. rewrite find_listens_app.
    by destruct (find (listens listenType) events).
Qed.

Lemma mergeRequest_events_settle previous : ∀ events e,
  e ∈ previous → hasNonEmptyScript e = true →
  settled (listen e) (fold_left mergeRequest_event previous events) = true.
Proof.
  induction previous as [|e' previous IH]; intros events e Hin He.
  - by apply elem_of_nil in Hin.
  - simpl. apply elem_of_cons in Hin as [->|Hin]; [|by apply IH].
    assert (∀ l evs, settled l evs = true →
                     settled l (fold_left mergeRequest_event previous evs) = true) as Hstay.
    { clear. induction previous as [|x xs IHx]; intros l evs Hl; [done|].
      simpl. by apply IHx, mergeRequest_event_stays_settled. }
    by apply Hstay, mergeRequest_event_settles.
Qed.

Lemma mergeRequest_events_fixed previous events :
  (∀ e, e ∈ previous → hasNonEmptyScript e = true → settled (listen e) events = true) →
  fold_left mergeRequest_event previous events = events.
Proof.
  induction previous as [|e previous IH]; intros Hall; simpl; [done|].
  assert (mergeRequest_event events e = events) as ->.
  { destruct (hasNonEmptyScript e) eqn:He; [|by apply mergeRequest_event_empty].
    apply mergeRequest_event_settled; [done|]. apply Hall; [by left|done]. }
  apply IH. intros e' Hin. apply Hall. by right.
Qed.

(** X4: merging the result once more with the same previous Request
    changes nothing: whatever the events of the two Requests (repeated
    listen types included), mergeRequest is idempotent in its first
    argument. *)
Theorem mergeRequest_idempotent (newRequest existingRequest : Item) :
  mergeRequest (mergeRequest newRequest existingRequest) existingRequest
  = mergeRequest newRequest existingRequest.
Proof.
  destruct newRequest as [name children request event response].
  unfold mergeRequest at 2.
  destruct (i_event existingRequest) as [[|e es]|] eqn:Hprev.
  - unfold mergeRequest. by rewrite Hprev.
  - unfold mergeRequest. rewrite Hprev. do 2 f_equal.
    apply mergeRequest_events_fixed. intros e' Hin He'.
    by apply mergeRequest_events_settle.
  - unfold mergeRequest. by rewrite Hprev.
Qed.

(** X5: a Request whose events have pairwise distinct listen types merged
    with itself as the previous Request comes out unchanged. *)
Theorem mergeRequest_self (request : Item) :
  NoDup (map listen (events_of request)) →
  mergeRequest request request = request.
Proof.
  destruct request as [name children rq event response].
  unfold events_of, mergeRequest. simpl.
  destruct event as [[|e es]|]; [done| |done].
  intros Hnodup. do 2 f_equal.
  apply mergeRequest_events_fixed. intros e' Hin He'.
  unfold settled.
  apply list_elem_of_split in Hin as (pre & post & Hsplit). rewrite Hsplit in *.
  rewrite find_listens_first, He'; [done| |done].
  rewrite map_app in Hnodup. simpl in Hnodup.
  apply NoDup_app in Hnodup as (_ & Hdisj & _).
  apply Forall_forall. intros y Hy Heq. apply (Hdisj (listen y)).
  - apply list_elem_of_In, in_map. by apply list_elem_of_In.
  - rewrite Heq. by left.
Qed.

Lemma mergeRequest_self_witness :
  mergeRequest (list_pets (Some [blank_test; auth_prerequest]))
               (list_pets (Some [blank_test; auth_prerequest]))
  = list_pets (Some [blank_test; auth_prerequest]).
Proof.
  apply (mergeRequest_self (list_pets (Some [blank_test; auth_prerequest]))).
  by apply (bool_decide_unpack _).
Defined.

(** ** Collection variables *)

Lemma push_unless_known (known : list string) (existingVars variables : list Variable_) :
  fold_left (λ acc variable,
               if bool_decide (key variable ∈ known) then acc else acc ++ [variable])
            existingVars variables
  = variables ++ filter (λ v, key v ∉ known) existingVars.
Proof.
  revert variables. induction existingVars as [|v vs IH]; intros variables; simpl.
  - by rewrite app_nil_r.
  - rewrite IH. case_bool_decide as Hin.
    + by rewrite filter_cons_False by (intros Hn; by apply Hn).
    + by rewrite filter_cons_True, <- app_assoc by done.
Qed.

(** X6: with the variables toggle on, the merged variable list is the
    candidate's list followed by the previous variables whose key the
    candidate does not declare, in their order and with their repeats; on a
    key both declare the candidate's variable is the only one kept; without
    a previous list the candidate's list (or its absence) is kept. *)
Theorem merge_variables options newCollection existingCollection
    newInfo existingInfo newItems existingItems mergedItems :
  c_info newCollection = Some newInfo → c_info existingCollection = Some existingInfo →
  c_item newCollection = Some newItems → c_item existingCollection = Some existingItems →
  mergeItems newItems (buildItemsMap existingItems "" ∅) "" = Some mergedItems →
  preserveVariables options = true →
  ∃ merged written,
    merge options (Parsed newCollection) (Parsed existingCollection)
      = Returned merged written ∧
    let candidate := match c_variable newCollection with Some vs => vs | None => [] end in
    c_variable merged
    = match c_variable existingCollection with
      | Some previous =>
          Some (candidate ++ filter (λ v, key v ∉ map key candidate) previous)
      | None => c_variable newCollection
      end.
Proof.
  intros Hni Hei Hnt Het Hitems Hvars.
  unfold merge. simpl. rewrite Hni, Hei, Hnt, Het, Hitems, Hvars.
  eexists _, _. split; [reflexivity|]. simpl.
  unfold preserveCollectionVariables.
  destruct (c_variable existingCollection) as [previous|]; [|done].
  by rewrite push_unless_known.
Qed.

Lemma merge_variables_witness :
  ∃ merged written,
    merge default_options
          (Parsed (with_variables candidate_BC [base_url; api_key_new]))
          (Parsed (with_variables previous_AB [api_key_old; token; token]))
      = Returned merged written ∧
    c_variable merged = Some [base_url; api_key_new; token; token].
Proof.
  destruct (merge_variables default_options
              (with_variables candidate_BC [base_url; api_key_new])
              (with_variables previous_AB [api_key_old; token; token])
              {| info_name := "Pets API"; _postman_id := Some "fresh-id"; info_rest := [] |}
              {| info_name := "Pets API"; _postman_id := Some "previous-id"; info_rest := [] |}
              [endpoint "B" "b"; endpoint "C" "c"]
              [endpoint "A" "a"; endpoint "B" "b"]
              [endpoint "B" "b"; endpoint "C" "c"]
              eq_refl eq_refl eq_refl eq_refl eq_refl eq_refl)
    as (merged & written & Hmerge & Hvars).
  exists merged, written. split; [exact Hmerge|].
  rewrite Hvars. by vm_compute.
Defined.

(** ** Failures and the file written *)

(** X7: a run ends on the error of the missing candidate exactly when the
    candidate file is missing, whatever the previous file; on the error of
    readJsonFile exactly when the candidate file cannot be read or parsed,
    or is there while the previous one cannot be; and on a TypeError
    exactly when both files hold collections and one of them lacks its info
    or its item list, or the lookup answers for the key of a candidate leaf
    with something that has no item (a leaf without request named
    constructor is enough).  On a first run any candidate that parses is
    returned.  A run that returns goes on to write the returned collection
    and nothing else, at the resolved output path when a non-empty one is
    given and at the resolved path of the previous file otherwise, unless
    it is a dry run. *)
Theorem merge_outcome (options : Options) :
  (∀ newFile existingFile,
     merge options newFile existingFile = Failed NewCollectionNotFound ↔
     newFile = Absent) ∧
  (∀ newFile existingFile,
     merge options newFile existingFile = Failed JsonFileError ↔
     newFile = Unreadable ∨ (newFile ≠ Absent ∧ existingFile = Unreadable)) ∧
  (∀ newFile existingFile,
     merge options newFile existingFile = Failed TypeError ↔
     ∃ newCollection existingCollection,
       newFile = Parsed newCollection ∧ existingFile = Parsed existingCollection ∧
       (c_info newCollection = None ∨ c_info existingCollection = None ∨
        c_item existingCollection = None ∨ c_item newCollection = None ∨
        ∃ newItems existingItems,
          c_item newCollection = Some newItems ∧
          c_item existingCollection = Some existingItems ∧
          Exists (λ e, finds_foreign (buildItemsMap existingItems "" ∅) e.1 = true)
                 (treeEntries "" newItems))) ∧
  (∀ newCollection,
     ∃ written, merge options (Parsed newCollection) Absent
                = Returned newCollection written) ∧
  (∀ newFile existingFile result written,
     merge options newFile existingFile = Returned result written →
     written
     = if dryRun options then None
       else Some (match output options with
                  | Some p => if Str.is_empty p then path_resolve (existing options)
                              else path_resolve p
                  | None => path_resolve (existing options)
                  end, result)) ∧
  merge options (Parsed (collection_of "fresh-id" [mkItem "constructor" None None None None]))
                (Parsed previous_AB)
  = Failed TypeError.
Proof.
  split_and!.
  - intros [| |c] [| |p]; simpl;
      try (destruct (c_info c), (c_info p), (c_item p), (c_item c);
           try destruct (mergeItems _ _ _));
      by split.
  - intros [| |c] [| |p]; simpl;
      try (destruct (c_info c), (c_info p), (c_item p), (c_item c);
           try destruct (mergeItems _ _ _));
      (split; [try done; intros _; ((by left) || (right; by split))
              |try done; intros [?|[? ?]]; congruence]).
  - intros [| |c] [| |p]; simpl;
      try (split; [done|intros (c' & p' & ? & ? & _); done]).
    destruct (c_info c) as [newInfo|] eqn:Hni; [|split; [intros _; exists c, p; tauto|done]].
    destruct (c_info p) as [existingInfo|] eqn:Hei;
      [|split; [intros _; exists c, p; tauto|done]].
    destruct (c_item p) as [existingItems|] eqn:Het;
      [|split; [intros _; exists c, p; tauto|done]].
    destruct (c_item c) as [newItems|] eqn:Hnt;
      [|split; [intros _; exists c, p; tauto|done]].
    destruct (mergeItems newItems _ "") as [mergedItems|] eqn:Hmerge.
    + split; [done|].
      intros (c' & p' & [= <-] & [= <-] & [?|[?|[?|[?|Hex]]]]); try congruence.
      destruct Hex as (newItems' & existingItems' & Hn & He & Hex).
      rewrite Hnt in Hn. rewrite Het in He. injection Hn as <-. injection He as <-.
      apply mergeItems_throws in Hex. congruence.
    + split; [|done]. intros _. exists c, p. split; [done|]. split; [done|].
      do 4 right. exists newItems, existingItems. split; [done|]. split; [done|].
      by apply mergeItems_throws.
  - intros c. simpl. by eexists.
  - intros [| |c] [| |p] result written; simpl; try done.
    + by intros [= <- <-].
    + destruct (c_info c), (c_info p), (c_item p), (c_item c); try done.
      destruct (mergeItems _ _ _); [|done]. by intros [= <- <-].
  - by vm_compute.
Qed.

(** ** The report after a merge *)

Lemma fold_left_map_ext {A B C} (f : A → C → A) (g : B → C) (f' : A → B → A)
    (l : list B) :
  Forall (λ x, ∀ a, f a (g x) = f' a x) l →
  ∀ a, fold_left f (map g l) a = fold_left f' l a.
Proof.
  induction 1 as [|x l Hx _ IH]; intros a; simpl; [done|]. by rewrite Hx, IH.
Qed.

Lemma collectEndpoints_item_erase it :
  ∀ prefix set,
    collectEndpoints_item prefix set (eraseLeafEvents it)
    = collectEndpoints_item prefix set it.
Proof.
  induction it as [name request event response|name children request event response IH]
    using Item_tree_ind; intros prefix set; [done|].
  simpl. apply fold_left_map_ext.
  eapply Forall_impl; [exact IH|]. intros child Hchild a. apply Hchild.
Qed.

Lemma collectEndpoints_merge newItems existingItemsMap parentPath mergedItems :
  mergeItems newItems existingItemsMap parentPath = Some mergedItems →
  collectEndpoints mergedItems [] "" = collectEndpoints newItems [] "".
Proof.
  intros Hmerge%mergeItems_erase. unfold collectEndpoints.
  rewrite <- (fold_left_map_ext (collectEndpoints_item "") eraseLeafEvents
                (collectEndpoints_item "") mergedItems)
    by (apply Forall_forall; intros it _ a; apply collectEndpoints_item_erase).
  rewrite <- (fold_left_map_ext (collectEndpoints_item "") eraseLeafEvents
                (collectEndpoints_item "") newItems)
    by (apply Forall_forall; intros it _ a; apply collectEndpoints_item_erase).
  by rewrite Hmerge.
Qed.

(** X8: the report depends on names only: the diff between the previous
    collection and the merged one is the diff between the previous
    collection and the candidate, since the merge keeps every folder and
    request name of the candidate. *)
Theorem calculateDiff_after_merge options newCollection existingCollection
    newInfo existingInfo newItems existingItems mergedItems :
  c_info newCollection = Some newInfo → c_info existingCollection = Some existingInfo →
  c_item newCollection = Some newItems → c_item existingCollection = Some existingItems →
  mergeItems newItems (buildItemsMap existingItems "" ∅) "" = Some mergedItems →
  ∃ merged written,
    merge options (Parsed newCollection) (Parsed existingCollection)
      = Returned merged written ∧
    calculateDiff existingCollection merged
    = calculateDiff existingCollection newCollection.
Proof.
  intros Hni Hei Hnt Het Hitems.
  unfold merge. simpl. rewrite Hni, Hei, Hnt, Het, Hitems.
  eexists _, _. split; [reflexivity|].
  unfold calculateDiff. rewrite Het, Hnt. simpl.
  by rewrite (collectEndpoints_merge _ _ _ _ Hitems).
Qed.

Lemma calculateDiff_after_merge_witness :
  ∃ merged written,
    merge default_options (Parsed candidate_BC) (Parsed previous_AB)
      = Returned merged written ∧
    calculateDiff previous_AB merged = calculateDiff previous_AB candidate_BC.
Proof.
  apply (calculateDiff_after_merge default_options candidate_BC previous_AB
           {| info_name := "Pets API"; _postman_id := Some "fresh-id"; info_rest := [] |}
           {| info_name := "Pets API"; _postman_id := Some "previous-id"; info_rest := [] |}
           [endpoint "B" "b"; endpoint "C" "c"]
           [endpoint "A" "a"; endpoint "B" "b"]
           [endpoint "B" "b"; endpoint "C" "c"]);
    reflexivity.
Defined.

Lemma filter_all {A} (P : A → Prop) `{∀ x, Decision (P x)} (l : list A) :
  Forall P l → filter P l = l.
Proof. induction 1 as [|x l Hx _ IH]; [done|]. by rewrite filter_cons_True, IH. Qed.

Lemma filter_none {A} (P : A → Prop) `{∀ x, Decision (P x)} (l : list A) :
  Forall (λ x, ¬ P x) l → filter P l = [].
Proof. induction 1 as [|x l Hx _ IH]; [done|]. by rewrite filter_cons_False. Qed.

(** X9: the diff of a collection against itself reports nothing added,
    nothing removed and every display path preserved; and exchanging the
    two collections exchanges added and removed and keeps the preserved
    paths (in the order of the other collection). *)
Theorem calculateDiff_symmetry :
  (∀ c items, c_item c = Some items →
     calculateDiff c c
     = Some {| added := []; removed := []; preserved := collectEndpoints items [] "" |}) ∧
  (∀ a b d, calculateDiff a b = Some d →
     ∃ d', calculateDiff b a = Some d' ∧
           added d' = removed d ∧ removed d' = added d ∧
           preserved d' ≡ₚ preserved d).
Proof.
  split.
  - intros c items Hitems. unfold calculateDiff. rewrite Hitems.
    rewrite (filter_none (λ e, e ∉ collectEndpoints items [] ""))
      by (apply Forall_forall; intros x Hx Hn; by apply Hn).
    by rewrite (filter_all (λ e, e ∈ collectEndpoints items [] ""))
      by by apply Forall_forall.
  - intros a b d. unfold calculateDiff.
    destruct (c_item a) as [itemsA|]; [|done].
    destruct (c_item b) as [itemsB|]; [|done].
    intros [= <-]. eexists. split; [reflexivity|]. simpl.
    split; [done|]. split; [done|].
    destruct (collectEndpoints_spec itemsA) as [HndA _].
    destruct (collectEndpoints_spec itemsB) as [HndB _].
    apply NoDup_Permutation; [by apply NoDup_filter..|].
    intros x. rewrite !list_elem_of_filter. tauto.
Qed.

(** ** Counting endpoints *)

Lemma countItems_item_leaves it :
  ∀ count, countItems_item count it = (count + length (displayPaths [] it))%nat.
Proof.
  cut (∀ count folders,
         countItems_item count it = (count + length (displayPaths folders it))%nat).
  { intros Hall count. apply Hall. }
  induction it as [name request event response|name children request event response IH]
    using Item_tree_ind; intros count folders; simpl; [lia|].
  generalize (folders ++ [name]). intros fs. revert count.
  induction IH as [|child children Hchild _ IHc]; intros count; simpl; [lia|].
  rewrite length_app, (Hchild count fs), IHc. lia.
Qed.

Lemma countItems_leaves items count :
  countItems items count = (count + length (concat (map (displayPaths []) items)))%nat.
Proof.
  unfold countItems. revert count.
  induction items as [|it items IH]; intros count; simpl; [lia|].
  rewrite length_app, countItems_item_leaves, IH. lia.
Qed.

(** X10: countItems adds to its counter the number of request leaves of
    the tree (folders count for nothing, an empty folder included); a
    reconciliation that returns keeps that number; and the diff, which
    works on sets of display paths, never sees more endpoints than
    countItems counts. *)
Theorem countItems_leaf_count (items : list Item) (count : nat) :
  countItems items count = (count + length (concat (map (displayPaths []) items)))%nat ∧
  (∀ existingItemsMap parentPath mergedItems,
     mergeItems items existingItemsMap parentPath = Some mergedItems →
     countItems mergedItems count = countItems items count) ∧
  (length (collectEndpoints items [] "") ≤ countItems items 0)%nat.
Proof.
  split_and!.
  - apply countItems_leaves.
  - intros m parentPath mergedItems Hmerge. rewrite !countItems_leaves.
    by rewrite (mergeItems_displayPaths _ _ _ _ Hmerge).
  - rewrite countItems_leaves. simpl.
    destruct (collectEndpoints_spec items) as [Hnd Hin].
    apply submseteq_length, NoDup_submseteq; [done|].
    intros x. by rewrite Hin.
Qed.

(** ** The previous collection in the store *)

Lemma forEach_push_others lm (newVarKeys : list string) existingVars :
  ∀ σ σ' vs,
    σ !! lm = Some (Shared.Variables vs) →
    Shared.forEach existingVars
      (λ variable,
         if bool_decide (key variable ∈ newVarKeys) then Shared.ret ()
         else Shared.pushVariable lm variable) σ = Some ((), σ') →
    (∀ l, l ≠ lm → σ' !! l = σ !! l) ∧
    (Forall (λ v, key v ∈ newVarKeys) existingVars → σ' = σ).
Proof.
  set (f := λ variable : Variable_,
              if bool_decide (key variable ∈ newVarKeys) then Shared.ret ()
              else Shared.pushVariable lm variable).
  induction existingVars as [|v existingVars IH]; intros σ σ' vs Hlm; simpl.
  - by intros [= <-].
  - unfold mbind, Shared.M_bind, Shared.bind. unfold f at 1.
    case_bool_decide as Hin.
    + unfold Shared.ret at 1. intros Hrun.
      destruct (IH σ σ' vs Hlm Hrun) as [Hothers Hsame].
      split; [done|]. intros [_ Hall]%Forall_cons. by apply Hsame.
    + unfold Shared.pushVariable at 1. rewrite Hlm. intros Hrun.
      assert (lm < length σ)%nat as Hlt by by eapply lookup_lt_Some.
      destruct (IH (<[lm := Shared.Variables (vs ++ [v])]> σ) σ' (vs ++ [v]))
        as [Hothers _]; [by rewrite list_lookup_insert_eq|done|].
      split.
      * intros l Hl. by rewrite Hothers, list_lookup_insert_ne.
      * by intros [? _]%Forall_cons.
Qed.

Lemma preserveCollectionVariables_keeps_existing le lm σ lm' σ' pe pm :
  Shared.variablesAt σ le = Some pe → Shared.variablesAt σ lm = Some pm →
  Shared.preserveCollectionVariables le lm lm σ = Some (lm', σ') →
  Shared.variablesAt σ' le = Some pe.
Proof.
  intros Hle Hlm. unfold Shared.preserveCollectionVariables.
  destruct le as [l|]; [|by intros [= <- <-]].
  apply variablesAt_inv in Hle as (evs & Hl & ->).
  assert (l < length σ)%nat as Hlt by by eapply lookup_lt_Some.
  unfold mbind, Shared.M_bind, Shared.bind.
  unfold Shared.readVariables at 1. rewrite Hl.
  destruct lm as [m|]; simpl.
  - apply variablesAt_inv in Hlm as (mvs & Hm & ->).
    unfold Shared.readVariables at 1. rewrite Hm. unfold Shared.ret at 1.
    destruct (Shared.forEach _ _ σ) as [[[] σ1]|] eqn:Hrun; [|done].
    intros [= <- <-].
    destruct (forEach_push_others _ _ _ _ _ _ Hm Hrun) as [Hothers Hsame].
    destruct (decide (l = m)) as [->|Hne].
    + rewrite Hsame; [unfold Shared.variablesAt; by rewrite Hl|].
      assert (mvs = evs) as -> by congruence.
      apply Forall_forall. intros v Hv.
      apply list_elem_of_In, in_map. by apply list_elem_of_In.
    + unfold Shared.variablesAt. by rewrite Hothers, Hl.
  - unfold Shared.ret at 1, Shared.alloc.
    destruct (Shared.forEach _ _ (σ ++ _)) as [[[] σ1]|] eqn:Hrun; [|done].
    intros [= <- <-].
    destruct (forEach_push_others (length σ) [] evs _ _ []
                (list_lookup_middle σ [] _ _ eq_refl) Hrun) as [Hothers _].
    unfold Shared.variablesAt. rewrite Hothers by lia. by rewrite lookup_app_l, Hl.
Qed.

(** X11: a run of the merge on two loaded collections never writes into
    the previous collection: read after the run, its events and its
    variables are what they were, even where the two collections share an
    array. *)
Theorem mergeLoaded_keeps_previous options σ σ' newObject existingObject mergedObject
    newCollection existingCollection :
  Shared.reify σ newObject = Some newCollection →
  Shared.reify σ existingObject = Some existingCollection →
  Shared.mergeLoaded options newObject existingObject σ = Some (mergedObject, σ') →
  Shared.reify σ' existingObject = Some existingCollection.
Proof.
  unfold Shared.reify.
  destruct newObject as [ninfo nitem nev nvar nrest].
  destruct existingObject as [einfo eitem eev evar erest]. simpl.
  destruct (Shared.eventsAt σ nev) as [pne|] eqn:Hne; [|done].
  destruct (Shared.variablesAt σ nvar) as [pnv|] eqn:Hnv; [|done].
  destruct (Shared.eventsAt σ eev) as [pee|] eqn:Hee; [|done].
  destruct (Shared.variablesAt σ evar) as [pev|] eqn:Hev; [|done].
  intros _ [= <-]. unfold Shared.mergeLoaded. simpl.
  destruct ninfo as [newInfo|]; [|done].
  destruct einfo as [existingInfo|]; [|done].
  destruct eitem as [existingItems|]; [|done].
  destruct nitem as [newItems|]; [|done].
  destruct (mergeItems newItems (buildItemsMap existingItems "" ∅) "")
    as [mergedItems|]; [|done].
  destruct (whenM_events_run (preservePrerequest options) "prerequest"
              eev nev σ pee pne Hee Hne) as (e1 & σ1 & Hrun1 & He1 & Hee1 & Hk1 & _).
  destruct (whenM_events_run (preserveTests options) "test"
              eev e1 σ1 pee _ Hee1 He1) as (e2 & σ2 & Hrun2 & He2 & Hee2 & Hk2 & _).
  assert (Shared.variablesAt σ2 evar = Some pev) as Hev2
    by eauto using variablesAt_keeps.
  assert (Shared.variablesAt σ2 nvar = Some pnv) as Hnv2
    by eauto using variablesAt_keeps.
  run_store. rewrite Hrun1, Hrun2.
  destruct (Shared.whenM _ _ nvar σ2) as [[v3 σ3]|] eqn:Hrun3; [|done].
  intros [= _ <-]. simpl.
  assert (Shared.variablesAt σ3 evar = Some pev ∧ keeps_events σ2 σ3) as [Hev3 Hk3].
  { unfold Shared.whenM in Hrun3. destruct (preserveVariables options).
    - split; [by eapply preserveCollectionVariables_keeps_existing|].
      destruct (preserveCollectionVariables_run evar nvar nvar σ2 pev pnv pnv)
        as (v3' & σ3' & Hrun3' & _ & Hk & _); [done..|].
      rewrite Hrun3 in Hrun3'. by injection Hrun3' as <- <-.
    - injection Hrun3 as <- <-. split; [done|by intros ??]. }
  by rewrite (eventsAt_keeps σ2 σ3 eev _ Hk3 Hee2), Hev3.
Qed.

Lemma mergeLoaded_keeps_previous_witness :
  ∃ mergedObject σ',
    Shared.mergeLoaded default_options loaded_candidate loaded_previous loaded_store
      = Some (mergedObject, σ') ∧
    Shared.reify σ' loaded_previous = Shared.reify loaded_store loaded_previous.
Proof.
  destruct (Shared.mergeLoaded default_options loaded_candidate loaded_previous loaded_store)
    as [[mergedObject σ']|] eqn:Hrun; [|by vm_compute in Hrun].
  exists mergedObject, σ'. split; [reflexivity|].
  rewrite (mergeLoaded_keeps_previous default_options loaded_store σ'
             loaded_candidate loaded_previous mergedObject _ _ eq_refl eq_refl Hrun).
  reflexivity.
Defined.

(** X12: the run on the store returns the collection the value-level
    merge returns, and the arrays the candidate declares are the arrays of
    the merged object: read after the run, the candidate's event list and
    variable list are those of the merged collection. *)
Theorem mergeLoaded_agrees options σ σ' newObject existingObject mergedObject
    newCollection existingCollection :
  Shared.reify σ newObject = Some newCollection →
  Shared.reify σ existingObject = Some existingCollection →
  Shared.mergeLoaded options newObject existingObject σ = Some (mergedObject, σ') →
  ∃ merged written,
    merge options (Parsed newCollection) (Parsed existingCollection)
      = Returned merged written ∧
    Shared.reify σ' mergedObject = Some merged ∧
    (is_Some (Shared.o_event newObject) →
     Shared.eventsAt σ' (Shared.o_event newObject) = Some (c_event merged)) ∧
    (is_Some (Shared.o_variable newObject) →
     Shared.variablesAt σ' (Shared.o_variable newObject) = Some (c_variable merged)).
Proof.
  intros Hnew Hexisting Hrun.
  pose proof (mergeLoaded_refines options σ newObject existingObject _ _ Hnew Hexisting)
    as Hrefines.
  destruct (merge options (Parsed newCollection) (Parsed existingCollection))
    as [e|merged written]; [congruence|].
  destruct Hrefines as (mergedObject' & σ'' & Hrun' & Hreify & Hevents & Hvariables).
  rewrite Hrun in Hrun'. injection Hrun' as <- <-.
  by exists merged, written.
Qed.

Lemma mergeLoaded_agrees_witness :
  ∃ mergedObject σ',
    Shared.mergeLoaded default_options loaded_candidate loaded_previous loaded_store
      = Some (mergedObject, σ') ∧
    Shared.eventsAt σ' (Shared.o_event loaded_candidate)
    = Some (Some [generated_test; auth_prerequest]) ∧
    Shared.variablesAt σ' (Shared.o_variable loaded_candidate)
    = Some (Some [base_url; token]).
Proof.
  destruct (Shared.mergeLoaded default_options loaded_candidate loaded_previous loaded_store)
    as [[mergedObject σ']|] eqn:Hrun; [|by vm_compute in Hrun].
  destruct (mergeLoaded_agrees default_options loaded_store σ'
              loaded_candidate loaded_previous mergedObject _ _ eq_refl eq_refl Hrun)
    as (merged & written & Hmerge & _ & Hevents & Hvariables).
  vm_compute in Hmerge. injection Hmerge as <- _.
  exists mergedObject, σ'. split; [reflexivity|].
  split; [by apply Hevents|by apply Hvariables].
Defined.

(** ** File names *)

Section FilenameFacts.

Import Filename.

Lemma lower_ascii_safe c : is_safe c = true → is_plain (Str.lower_ascii c) = true.
Proof. by destruct c as [[] [] [] [] [] [] [] []]. Qed.

Lemma lower_ascii_underscore c :
  is_safe c = true → is_underscore (Str.lower_ascii c) = is_underscore c.
Proof. by destruct c as [[] [] [] [] [] [] [] []]. Qed.

Lemma plain_is_safe c : is_plain c = true → is_safe c = true ∧ Str.lower_ascii c = c.
Proof. by destruct c as [[] [] [] [] [] [] [] []]. Qed.

Lemma replaceUnsafe_safe str : all_safe (replaceUnsafe str) = true.
Proof.
  induction str as [|c rest IH]; [done|]. simpl. rewrite IH.
  by destruct (is_safe c) eqn:Hc; [rewrite Hc|].
Qed.

Lemma collapse_starts str :
  starts_with_underscore (collapseUnderscores str) = starts_with_underscore str.
Proof.
  induction str as [|c rest IH]; [done|]. simpl.
  destruct (is_underscore c) eqn:Hc; simpl; [|done].
  destruct (starts_with_underscore rest) eqn:Hr; simpl; [|done].
  by rewrite IH.
Qed.

Lemma collapse_safe str : all_safe str = true → all_safe (collapseUnderscores str) = true.
Proof.
  induction str as [|c rest IH]; [done|]. simpl.
  intros [Hc Hrest]%andb_true_iff.
  destruct (is_underscore c && starts_with_underscore rest); simpl; [by apply IH|].
  by rewrite Hc, IH.
Qed.

Lemma collapse_single str : single_underscores (collapseUnderscores str) = true.
Proof.
  induction str as [|c rest IH]; [done|]. simpl.
  destruct (is_underscore c && starts_with_underscore rest) eqn:Hrun; [done|].
  simpl. by rewrite collapse_starts, Hrun, IH.
Qed.

Lemma lower_starts s :
  all_safe s = true →
  starts_with_underscore (Str.toLowerCase s) = starts_with_underscore s.
Proof.
  destruct s as [|c rest]; [done|]. simpl.
  intros [Hc _]%andb_true_iff. by apply lower_ascii_underscore.
Qed.

Lemma lower_plain s : all_safe s = true → all_plain (Str.toLowerCase s) = true.
Proof.
  induction s as [|c rest IH]; [done|]. simpl.
  intros [Hc Hrest]%andb_true_iff. by rewrite lower_ascii_safe, IH.
Qed.

Lemma lower_single s :
  all_safe s = true → single_underscores s = true →
  single_underscores (Str.toLowerCase s) = true.
Proof.
  induction s as [|c rest IH]; [done|]. simpl.
  intros [Hc Hrest]%andb_true_iff [Hrun Hsingle]%andb_true_iff.
  by rewrite lower_ascii_underscore, lower_starts, Hrun, IH.
Qed.

Lemma collapse_length str :
  (String.length (collapseUnderscores str) ≤ String.length str)%nat.
Proof.
  induction str as [|c rest IH]; [done|]. simpl.
  destruct (is_underscore c && starts_with_underscore rest); simpl; lia.
Qed.

Lemma replaceUnsafe_length str : String.length (replaceUnsafe str) = String.length str.
Proof. induction str as [|c rest IH]; simpl; [done|]. by rewrite IH. Qed.

Lemma toLowerCase_length s : String.length (Str.toLowerCase s) = String.length s.
Proof. induction s as [|c rest IH]; simpl; [done|]. by rewrite IH. Qed.

Lemma sanitizeFilename_fixed s :
  all_plain s = true → single_underscores s = true → sanitizeFilename s = s.
Proof.
  intros Hplain Hsingle. unfold sanitizeFilename.
  assert (replaceUnsafe s = s) as ->.
  { clear Hsingle. induction s as [|c rest IH]; [done|]. simpl in *.
    apply andb_true_iff in Hplain as [Hc Hrest].
    destruct (plain_is_safe c Hc) as [-> _]. by rewrite IH. }
  assert (collapseUnderscores s = s) as ->.
  { clear Hplain. induction s as [|c rest IH]; [done|]. simpl in *.
    apply andb_true_iff in Hsingle as [Hrun Hrest].
    apply negb_true_iff in Hrun. by rewrite Hrun, IH. }
  clear Hsingle. induction s as [|c rest IH]; [done|]. simpl in *.
  apply andb_true_iff in Hplain as [Hc Hrest].
  destruct (plain_is_safe c Hc) as [_ ->]. by rewrite IH.
Qed.

(** X13: a sanitized file name holds only lower-case letters, digits,
    hyphens and underscores, never two underscores in a row, and is never
    longer than the input; the names it leaves as they are are exactly the
    names of that form. *)
Theorem sanitizeFilename_form (str : string) :
  all_plain (sanitizeFilename str) = true ∧
  single_underscores (sanitizeFilename str) = true ∧
  (String.length (sanitizeFilename str) ≤ String.length str)%nat ∧
  (sanitizeFilename str = str ↔
   all_plain str = true ∧ single_underscores str = true).
Proof.
  assert (all_plain (sanitizeFilename str) = true ∧
          single_underscores (sanitizeFilename str) = true) as [Hplain Hsingle].
  { unfold sanitizeFilename. split.
    - apply lower_plain, collapse_safe, replaceUnsafe_safe.
    - apply lower_single; [apply collapse_safe, replaceUnsafe_safe|apply collapse_single]. }
  split_and!; [done|done| |].
  - unfold sanitizeFilename.
    rewrite toLowerCase_length, <- (replaceUnsafe_length str). apply collapse_length.
  - split; [by intros <-|]. intros [? ?]. by apply sanitizeFilename_fixed.
Qed.

(** X14: sanitizing a file name twice is sanitizing it once. *)
Theorem sanitizeFilename_idempotent (str : string) :
  sanitizeFilename (sanitizeFilename str) = sanitizeFilename str.
Proof.
  apply sanitizeFilename_fixed.
  - unfold sanitizeFilename. apply lower_plain, collapse_safe, replaceUnsafe_safe.
  - unfold sanitizeFilename.
    apply lower_single; [apply collapse_safe, replaceUnsafe_safe|apply collapse_single].
Qed.

End FilenameFacts.

(** ** The base URL of the generated requests *)

Section ConvertFacts.

Import Convert.

Lemma dropPrefix_app p s : dropPrefix p (p +:+ s) = Some s.
Proof.
  induction p as [|a p IH]; [done|].
  rewrite string_app_cons. simpl. by case_bool_decide.
Qed.

Lemma dropPrefix_inv p s rest : dropPrefix p s = Some rest → s = p +:+ rest.
Proof.
  revert s. induction p as [|a p IH]; intros s; simpl; [by intros [= ->]|].
  destruct s as [|b s]; [done|]. case_bool_decide as Hab; [|done].
  intros ->%IH. by subst.
Qed.

Lemma matchScheme_inv s scheme rest :
  matchScheme s = Some (scheme, rest) →
  s = scheme +:+ rest ∧ (scheme = "http://" ∨ scheme = "https://").
Proof.
  unfold matchScheme.
  destruct (dropPrefix "https://" s) as [r|] eqn:Hs.
  - intros [= <- <-]. split; [by apply dropPrefix_inv|by right].
  - destruct (dropPrefix "http://" s) as [r|] eqn:Hp; [|done].
    intros [= <- <-]. split; [by apply dropPrefix_inv|by left].
Qed.

Lemma matchScheme_app scheme rest :
  scheme = "http://" ∨ scheme = "https://" →
  matchScheme (scheme +:+ rest) = Some (scheme, rest).
Proof.
  intros [-> | ->]; unfold matchScheme.
  - change (dropPrefix "https://" ("http://" +:+ rest)) with (@None string).
    by rewrite dropPrefix_app.
  - by rewrite dropPrefix_app.
Qed.

Lemma spanHost_inv s h rest :
  spanHost s = (h, rest) → s = h +:+ rest ∧ has_char "/" h = false ∧ at_path rest = true.
Proof.
  revert h rest. induction s as [|c s IH]; intros h rest; simpl.
  - by intros [= <- <-].
  - case_bool_decide as Hc.
    + intros [= <- <-]. by subst c.
    + destruct (spanHost s) as [h' rest'] eqn:Hspan. intros [= <- <-].
      destruct (IH h' rest' eq_refl) as (-> & Hh & Hrest).
      split; [done|]. split; [|done]. simpl. by rewrite bool_decide_false.
Qed.

Lemma spanHost_app h rest :
  has_char "/" h = false → at_path rest = true → spanHost (h +:+ rest) = (h, rest).
Proof.
  intros Hh Hrest. induction h as [|c h IH].
  - change ("" +:+ rest) with rest. destruct rest as [|c rest]; [done|].
    simpl in *. by rewrite Hrest.
  - rewrite string_app_cons. simpl in *.
    apply orb_false_iff in Hh as [Hc Hh]. rewrite Hc, IH by done. done.
Qed.

Lemma matchOrigin_inv s matched after :
  matchOrigin s = Some (matched, after) →
  ∃ scheme h,
    (scheme = "http://" ∨ scheme = "https://") ∧ h ≠ EmptyString ∧
    has_char "/" h = false ∧ at_path after = true ∧
    matched = scheme +:+ h ∧ s = matched +:+ after.
Proof.
  unfold matchOrigin.
  destruct (matchScheme s) as [[scheme afterScheme]|] eqn:Hscheme; [|done].
  apply matchScheme_inv in Hscheme as [-> Hscheme].
  destruct (spanHost afterScheme) as [h rest] eqn:Hspan.
  apply spanHost_inv in Hspan as (-> & Hh & Hrest).
  destruct h as [|c h]; [done|]. intros [= <- <-].
  exists scheme, (String c h). split_and!; try done.
  by rewrite string_app_assoc.
Qed.

Lemma matchOrigin_app scheme h after :
  (scheme = "http://" ∨ scheme = "https://") → h ≠ EmptyString →
  has_char "/" h = false → at_path after = true →
  matchOrigin (scheme +:+ h +:+ after) = Some (scheme +:+ h, after).
Proof.
  intros Hscheme Hne Hh Hafter. unfold matchOrigin.
  rewrite matchScheme_app, spanHost_app by done. by destruct h.
Qed.

Lemma dropPrefix_app_none p : ∀ b after,
  has_char "/" p = false → dropPrefix p b = None → at_path after = true →
  dropPrefix p (b +:+ after) = None.
Proof.
  induction p as [|a p IH]; intros b after Hp Hb Hafter; [done|].
  simpl in Hp. apply orb_false_iff in Hp as [Ha Hp].
  destruct b as [|c b].
  - change ("" +:+ after) with after. destruct after as [|x after]; [done|].
    simpl in *. apply bool_decide_eq_true in Hafter as ->.
    apply bool_decide_eq_false in Ha. by rewrite bool_decide_false.
  - rewrite string_app_cons. simpl in *.
    case_bool_decide; [by apply IH|done].
Qed.

Lemma matchScheme_not_http baseUrl after :
  dropPrefix "http" baseUrl = None → at_path after = true →
  matchScheme (baseUrl +:+ after) = None.
Proof.
  intros Hbase Hafter.
  pose proof (dropPrefix_app_none "http" baseUrl after eq_refl Hbase Hafter) as Hnone.
  unfold matchScheme.
  destruct (dropPrefix "https://" (baseUrl +:+ after)) as [r|] eqn:Hs.
  { apply dropPrefix_inv in Hs. rewrite Hs in Hnone. by vm_compute in Hnone. }
  destruct (dropPrefix "http://" (baseUrl +:+ after)) as [r|] eqn:Hp; [|done].
  apply dropPrefix_inv in Hp. rewrite Hp in Hnone. by vm_compute in Hnone.
Qed.

Lemma expandReplacement_other c r matched after :
  c ≠ "$"%char →
  expandReplacement (String c r) matched after
  = String c (expandReplacement r matched after).
Proof. intros Hc. destruct c as [[] [] [] [] [] [] [] []]; done. Qed.

Lemma expandReplacement_plain baseUrl matched after :
  has_char "$" baseUrl = false → expandReplacement baseUrl matched after = baseUrl.
Proof.
  induction baseUrl as [|c r IH]; [done|]. simpl has_char.
  intros [Hc Hr]%orb_false_iff. apply bool_decide_eq_false in Hc.
  by rewrite expandReplacement_other, IH.
Qed.

Lemma replaceOrigin_shape baseUrl s :
  has_char "$" baseUrl = false →
  replaceOrigin baseUrl s = s ∨
  ∃ after, at_path after = true ∧ replaceOrigin baseUrl s = baseUrl +:+ after.
Proof.
  intros Hplain. unfold replaceOrigin.
  destruct (matchOrigin s) as [[matched after]|] eqn:Hmatch; [|by left].
  right. exists after.
  apply matchOrigin_inv in Hmatch as (? & ? & _ & _ & _ & Hafter & _).
  by rewrite expandReplacement_plain.
Qed.

Lemma replaceOrigin_twice baseUrl s :
  has_char "$" baseUrl = false →
  is_origin baseUrl = true ∨ dropPrefix "http" baseUrl = None →
  replaceOrigin baseUrl (replaceOrigin baseUrl s) = replaceOrigin baseUrl s.
Proof.
  intros Hplain Hbase.
  destruct (replaceOrigin_shape baseUrl s Hplain) as [Hsame|(after & Hafter & Hreplaced)];
    [by rewrite Hsame|].
  rewrite Hreplaced. destruct Hbase as [Horigin|Hother].
  - unfold is_origin in Horigin.
    destruct (matchOrigin baseUrl) as [[matched rest]|] eqn:Hmatch; [|done].
    apply matchOrigin_inv in Hmatch as (scheme & h & Hscheme & Hne & Hh & _ & -> & Hb).
    destruct rest; [|done]. rewrite string_app_nil_r in Hb. subst baseUrl.
    unfold replaceOrigin.
    rewrite string_app_assoc, matchOrigin_app by done.
    by rewrite <- string_app_assoc, expandReplacement_plain.
  - unfold replaceOrigin, matchOrigin.
    by rewrite matchScheme_not_http.
Qed.

(** X15: with a base URL that holds no dollar sign, a URL made of a scheme
    (http or https), a host and a path becomes the base URL followed by the
    same path, whatever the host was; any other text is left as it is; and
    when the base URL is itself a scheme and a host, or does not start with
    http, replacing again changes nothing. *)
Theorem replaceOrigin_spec (baseUrl : string) :
  has_char "$" baseUrl = false →
  (∀ scheme h after,
     (scheme = "http://" ∨ scheme = "https://") → h ≠ EmptyString →
     has_char "/" h = false → at_path after = true →
     replaceOrigin baseUrl (scheme +:+ h +:+ after) = baseUrl +:+ after) ∧
  (∀ s, matchScheme s = None → replaceOrigin baseUrl s = s) ∧
  (∀ s, replaceOrigin baseUrl s = s ∨
        ∃ after, at_path after = true ∧ replaceOrigin baseUrl s = baseUrl +:+ after) ∧
  (is_origin baseUrl = true ∨ dropPrefix "http" baseUrl = None →
   ∀ s, replaceOrigin baseUrl (replaceOrigin baseUrl s) = replaceOrigin baseUrl s).
Proof.
  intros Hplain. split_and!.
  - intros scheme h after Hscheme Hne Hh Hafter. unfold replaceOrigin.
    rewrite matchOrigin_app by done. by rewrite expandReplacement_plain.
  - intros s Hs. unfold replaceOrigin, matchOrigin. by rewrite Hs.
  - intros s. by apply replaceOrigin_shape.
  - intros Hbase s. by apply replaceOrigin_twice.
Qed.

Lemma replaceOrigin_spec_witness :
  replaceOrigin "https://api.example.com" "http://localhost:3000/pets/1"
  = "https://api.example.com/pets/1".
Proof.
  apply (proj1 (replaceOrigin_spec "https://api.example.com" eq_refl)
               "http://" "localhost:3000" "/pets/1"); by auto.
Defined.

Lemma overrideUrl_twice baseUrl u :
  has_char "$" baseUrl = false →
  is_origin baseUrl = true ∨ dropPrefix "http" baseUrl = None →
  overrideUrl baseUrl (overrideUrl baseUrl u) = overrideUrl baseUrl u.
Proof.
  intros Hplain Hbase. destruct u as [s|[r h rest]]; simpl.
  - by rewrite replaceOrigin_twice.
  - destruct r as [r|]; simpl; [|done].
    destruct (Str.is_empty r) eqn:Hr; simpl; [by rewrite Hr|].
    destruct (Str.is_empty (replaceOrigin baseUrl r)); [done|].
    by rewrite replaceOrigin_twice.
Qed.

Lemma traverse_item_twice baseUrl it :
  has_char "$" baseUrl = false →
  is_origin baseUrl = true ∨ dropPrefix "http" baseUrl = None →
  traverse_item baseUrl (traverse_item baseUrl it) = traverse_item baseUrl it.
Proof.
  intros Hplain Hbase. revert it. fix IH 1.
  intros [name [children|] [rq|] rest]; simpl.
  - f_equal. f_equal. rewrite map_map.
    induction children as [|child children IHc]; simpl; [done|]. by rewrite IH, IHc.
  - f_equal. f_equal. rewrite map_map.
    induction children as [|child children IHc]; simpl; [done|]. by rewrite IH, IHc.
  - do 3 f_equal. destruct (url rq) as [u|]; simpl; [|done].
    by rewrite overrideUrl_twice.
  - done.
Qed.

Lemma traverse_item_frame baseUrl it :
  eraseLeafUrls (traverse_item baseUrl it) = eraseLeafUrls it ∧
  leafUrls (traverse_item baseUrl it) = map (fmap (overrideUrl baseUrl)) (leafUrls it).
Proof.
  revert it. fix IH 1.
  intros [name [children|] [rq|] rest]; simpl; [| |done|done].
  - split.
    + do 2 f_equal. rewrite !map_map.
      induction children as [|child children IHc]; simpl; [done|].
      by rewrite (proj1 (IH child)), IHc.
    + rewrite map_map.
      induction children as [|child children IHc]; simpl; [done|].
      by rewrite map_app, (proj2 (IH child)), IHc.
  - split.
    + do 2 f_equal. rewrite !map_map.
      induction children as [|child children IHc]; simpl; [done|].
      by rewrite (proj1 (IH child)), IHc.
    + rewrite map_map.
      induction children as [|child children IHc]; simpl; [done|].
      by rewrite map_app, (proj2 (IH child)), IHc.
Qed.

(** X16: overriding the base URL changes nothing but the URLs of the
    requests of leaves: the name of the collection, its variables, the
    folder hierarchy, the names, the methods and whatever request a folder
    carries are kept, and the URLs of the leaves are rewritten one by one,
    in place. *)
Theorem overrideBaseUrl_frame (collection : Collection) (baseUrl : string) :
  let overridden := overrideBaseUrl collection baseUrl in
  info_name overridden = info_name collection ∧
  variable overridden = variable collection ∧
  collection_rest overridden = collection_rest collection ∧
  map eraseLeafUrls (item overridden) = map eraseLeafUrls (item collection) ∧
  concat (map leafUrls (item overridden))
  = map (fmap (overrideUrl baseUrl)) (concat (map leafUrls (item collection))).
Proof.
  simpl. split_and!; [done|done|done| |].
  - rewrite map_map. apply map_ext. intros it. apply traverse_item_frame.
  - rewrite map_map. induction (item collection) as [|it items IH]; simpl; [done|].
    by rewrite map_app, (proj2 (traverse_item_frame baseUrl it)), IH.
Qed.

(** X17: with a base URL that holds no dollar sign and is a scheme and a
    host (or does not start with http, as a collection variable does not),
    overriding the base URL twice is overriding it once. *)
Theorem overrideBaseUrl_idempotent (collection : Collection) (baseUrl : string) :
  has_char "$" baseUrl = false →
  is_origin baseUrl = true ∨ dropPrefix "http" baseUrl = None →
  overrideBaseUrl (overrideBaseUrl collection baseUrl) baseUrl
  = overrideBaseUrl collection baseUrl.
Proof.
  intros Hplain Hbase. unfold overrideBaseUrl. simpl. f_equal.
  rewrite map_map. apply map_ext. intros it. by apply traverse_item_twice.
Qed.

Lemma overrideBaseUrl_idempotent_witness :
  overrideBaseUrl (overrideBaseUrl generated_pets "https://api.example.com")
                  "https://api.example.com"
  = overrideBaseUrl generated_pets "https://api.example.com".
Proof.
  apply (overrideBaseUrl_idempotent generated_pets "https://api.example.com");
    [reflexivity|by left].
Defined.

(** A base URL with a path of its own is outside that case: the second
    override repeats the path. *)
Example overrideBaseUrl_path_repeats :
  replaceOrigin "https://h/v1" "http://a/b" = "https://h/v1/b" ∧
  replaceOrigin "https://h/v1" "https://h/v1/b" = "https://h/v1/v1/b".
Proof. by split. Qed.

Lemma push_entries (entries : list (string * JSON)) : ∀ variables : list Variable_,
  fold_left (λ acc entry,
               acc ++ [{| key := entry.1; value := entry.2; type := Some "string" |}])
            entries variables
  = variables
    ++ map (λ entry, {| key := entry.1; value := entry.2; type := Some "string" |}) entries.
Proof.
  induction entries as [|e entries IH]; intros variables; simpl.
  - by rewrite app_nil_r.
  - by rewrite IH, <- app_assoc.
Qed.

(** X18: adding environment variables appends one variable of type string
    per entry, in the order of the entries, after the variables the
    collection already has; nothing is replaced or merged, so a key the
    collection already declares is declared twice; and adding two sets
    one after the other is adding their concatenation. *)
Theorem addEnvironmentVariables_appends (collection : Collection)
    (envVars moreVars : list (string * JSON)) :
  let added := addEnvironmentVariables collection envVars in
  let before := match variable collection with Some vs => vs | None => [] end in
  variable added
  = Some (before
          ++ map (λ entry, {| key := entry.1; value := entry.2; type := Some "string" |})
                 envVars) ∧
  info_name added = info_name collection ∧ item added = item collection ∧
  collection_rest added = collection_rest collection ∧
  addEnvironmentVariables added moreVars
  = addEnvironmentVariables collection (envVars ++ moreVars).
Proof.
  simpl. unfold addEnvironmentVariables. simpl.
  rewrite fold_left_app, !push_entries. done.
Qed.

End ConvertFacts.

(** ** Running the merge again *)

Lemma or_string_again a b : or_string (or_string a b) b = or_string a b.
Proof.
  destruct a as [s|]; simpl; [|by destruct b as [t|]; [simpl; destruct (Str.is_empty t)|]].
  destruct (Str.is_empty s) eqn:Hs; simpl; [|by rewrite Hs].
  by destruct b as [t|]; [simpl; destruct (Str.is_empty t)|].
Qed.

Lemma listens_found listenType events e other :
  find (listens listenType) events = Some e →
  listens other e = String.eqb listenType other.
Proof. intros He%find_listens_listen. unfold listens. by rewrite He. Qed.

Ltac find_events :=
  repeat first
    [ progress simpl
    | rewrite find_listens_app
    | rewrite app_nil_r
    | match goal with
      | H : find (listens _) _ = _ |- _ => rewrite H
      | H : find (listens ?a) _ = Some ?e |- context [listens ?b ?e] =>
          rewrite (listens_found a _ e b H)
      end ].

(** The two collection-level script blocks, run against their own
    result, give that result. *)
Lemma collection_events_again (pre test : bool) existingEvent newEvent :
  let blocks previous :=
    when test (preserveCollectionEvent "test" previous)
         (when pre (preserveCollectionEvent "prerequest" previous) newEvent) in
  blocks (blocks existingEvent) = blocks existingEvent.
Proof.
  unfold when, preserveCollectionEvent.
  destruct existingEvent as [previous|], newEvent as [candidate|];
    destruct pre, test; simpl; try done;
    try (destruct (find (listens "prerequest") previous) as [p|] eqn:Hp);
    try (destruct (find (listens "test") previous) as [q|] eqn:Hq);
    try (destruct (find (listens "prerequest") candidate) as [cp|] eqn:Hcp);
    try (destruct (find (listens "test") candidate) as [cq|] eqn:Hcq);
    find_events; try done.
Qed.

Lemma unknown_keys_again (known : list string) (variables : list Variable_) :
  filter (λ v, key v ∉ known) (filter (λ v, key v ∉ known) variables)
  = filter (λ v, key v ∉ known) variables.
Proof.
  apply (filter_all (λ v, key v ∉ known)), Forall_forall.
  by intros x [? _]%list_elem_of_filter.
Qed.

Lemma unknown_keys_own (variables : list Variable_) :
  filter (λ v, key v ∉ map key variables) variables = [].
Proof.
  apply (filter_none (λ v, key v ∉ map key variables)), Forall_forall.
  intros v Hv Hn. apply Hn. apply list_elem_of_In, in_map. by apply list_elem_of_In.
Qed.

Lemma collection_variables_again (keep : bool) existingVariable newVariable :
  let block previous :=
    when keep (preserveCollectionVariables previous newVariable) newVariable in
  block (block existingVariable) = block existingVariable.
Proof.
  unfold when, preserveCollectionVariables. destruct keep; [|done].
  destruct existingVariable as [previous|], newVariable as [candidate|];
    cbv beta iota zeta; rewrite ?push_unless_known; try done; f_equal.
  - by rewrite filter_app, unknown_keys_again, unknown_keys_own.
  - by rewrite filter_app, unknown_keys_again.
  - by rewrite unknown_keys_own, app_nil_r.
Qed.

Lemma leafKeys_erase it :
  ∀ parentPath,
    map fst (leafEntries parentPath (eraseLeafEvents it))
    = map fst (leafEntries parentPath it).
Proof.
  induction it as [name request event response|name children request event response IH]
    using Item_tree_ind; intros parentPath; [done|].
  simpl. generalize (item_path parentPath name). intros p.
  induction IH as [|child children Hchild _ IHc]; simpl; [done|].
  by rewrite !map_app, Hchild, IHc.
Qed.

(** The merged tree has the keys of the candidate, leaf by leaf. *)
Lemma mergeItems_keys newItems existingItemsMap parentPath mergedItems :
  mergeItems newItems existingItemsMap parentPath = Some mergedItems →
  map fst (treeEntries "" mergedItems) = map fst (treeEntries "" newItems).
Proof.
  intros Hmerge%mergeItems_erase. unfold treeEntries.
  assert (∀ l, map fst (concat (map (leafEntries "") l))
               = concat (map (λ it, map fst (leafEntries "" it)) l)) as Hkeys.
  { induction l as [|it l IH]; simpl; [done|]. by rewrite map_app, IH. }
  rewrite !Hkeys. f_equal.
  apply map_through_erase; [|done]. intros it. apply leafKeys_erase.
Qed.

(** Against its own result the reconciliation always returns: every
    candidate key stands for an entry. *)
Lemma mergeItems_again newItems existingItemsMap mergedItems :
  mergeItems newItems existingItemsMap "" = Some mergedItems →
  ∃ again, mergeItems newItems (buildItemsMap mergedItems "" ∅) "" = Some again.
Proof.
  intros Hmerge.
  destruct (mergeItems newItems (buildItemsMap mergedItems "" ∅) "") as [again|] eqn:Hagain;
    [by exists again|].
  apply mergeItems_throws, Exists_exists in Hagain as (e & Hin & Hforeign).
  destruct (buildItemsMap_hit mergedItems e.1) as [entry Hentry].
  { rewrite (mergeItems_keys _ _ _ _ Hmerge).
    apply list_elem_of_In, in_map. by apply list_elem_of_In. }
  unfold finds_foreign in Hforeign. by rewrite Hentry in Hforeign.
Qed.

(** X19: when the merge returns, merging the same candidate once more,
    against the collection the merge returned, returns as well, and returns
    a collection with the same info (the identifier included), the same
    collection-level events and variables and, request events apart, the
    same item tree. *)
Theorem merge_again options newCollection existingCollection
    newInfo existingInfo newItems existingItems mergedItems :
  c_info newCollection = Some newInfo → c_info existingCollection = Some existingInfo →
  c_item newCollection = Some newItems → c_item existingCollection = Some existingItems →
  mergeItems newItems (buildItemsMap existingItems "" ∅) "" = Some mergedItems →
  ∃ merged written again written',
    merge options (Parsed newCollection) (Parsed existingCollection)
      = Returned merged written ∧
    merge options (Parsed newCollection) (Parsed merged) = Returned again written' ∧
    c_info again = c_info merged ∧
    c_event again = c_event merged ∧
    c_variable again = c_variable merged ∧
    c_rest again = c_rest merged ∧
    (map eraseLeafEvents <$> c_item again) = (map eraseLeafEvents <$> c_item merged).
Proof.
  intros Hni Hei Hnt Het Hitems.
  destruct (mergeItems_again _ _ _ Hitems) as [againItems Hagain].
  eexists _, _, _, _.
  split; [unfold merge; simpl; by rewrite Hni, Hei, Hnt, Het, Hitems|].
  split; [unfold merge; simpl; rewrite Hni, Hnt; simpl; by rewrite Hagain|].
  simpl. split_and!.
  - by rewrite or_string_again.
  - apply (collection_events_again (preservePrerequest options) (preserveTests options)).
  - apply (collection_variables_again (preserveVariables options)).
  - done.
  - f_equal. by rewrite (mergeItems_erase _ _ _ _ Hagain), (mergeItems_erase _ _ _ _ Hitems).
Qed.

Lemma merge_again_witness :
  ∃ merged written again written',
    merge default_options (Parsed candidate_blank_test) (Parsed previous_scripted)
      = Returned merged written ∧
    merge default_options (Parsed candidate_blank_test) (Parsed merged)
      = Returned again written' ∧
    c_info again = c_info merged ∧ c_event again = c_event merged ∧
    c_event merged = Some [blank_test; blank_prerequest].
Proof.
  destruct (merge_again default_options candidate_blank_test previous_scripted
              {| info_name := "Pets API"; _postman_id := Some "fresh-id"; info_rest := [] |}
              {| info_name := "Pets API"; _postman_id := Some "previous-id"; info_rest := [] |}
              [endpoint "B" "b"; endpoint "C" "c"]
              [endpoint "A" "a"; endpoint "B" "b"]
              [endpoint "B" "b"; endpoint "C" "c"]
              eq_refl eq_refl eq_refl eq_refl eq_refl)
    as (merged & written & again & written' & Hmerge & Hagain & Hinfo & Hevent & _).
  exists merged, written, again, written'.
  split; [exact Hmerge|]. split; [exact Hagain|]. split; [exact Hinfo|].
  split; [exact Hevent|].
  vm_compute in Hmerge. by injection Hmerge as <- _.
Defined.
